(** * The data-eden cache ([packages/cache/src/cache.ts])

    A shallow embedding of [CacheImpl] and of the module's [structuredClone].

    - JavaScript objects live in an explicit heap, so that the identity of
      an entity (who else holds the same object) is visible: the cache
      stores references, weak ones in [#weakCache] and strong ones in
      [#lru].
    - Every method is a computation in a state-and-exception monad over the
      heap and the two maps of the instance.  A call runs to completion:
      the suspension points of the [async] methods are not modelled.
    - The values are [undefined], [null], booleans, integer-valued numbers,
      [NaN], strings, and references to plain objects, arrays and
      functions.  A function has properties and a body; what a body does
      is to assign to properties of the object it is called on and then to
      return or throw.  [JSON.stringify], with its call of [toJSON], and
      [JSON.parse] are modelled on these, with the JSON text kept as its
      syntax tree.
    - [clear] is not part of this version of [cache.ts]; it is modelled
      from the specification.
    - The cache with live transactions is the later [CacheImpl] kept in
      [packages/codegen/__tests__/go.test.ts]; it is embedded from that
      file, in the module [Transactional]. *)

From Stdlib Require Import ZArith Lia.
From stdpp Require Import gmap strings list fin_maps pretty.

Local Open Scope string_scope.
Local Open Scope list_scope.

(** ** JavaScript values and the object heap *)

Definition loc := positive.

Inductive jsval :=
  | VUndefined
  | VNull
  | VBool (b : bool)
  | VNum (n : Z)          (* a finite, integer-valued number *)
  | VNaN                  (* the number NaN *)
  | VStr (s : string)
  | VRef (l : loc).       (* a reference to a heap object *)

Inductive exn :=
  | Error (message : string)
  | TypeError (message : string)
  | SyntaxError (message : string)
  | RangeError (message : string).

Inductive result (A : Type) :=
  | Ok (a : A)
  | Throw (e : exn).
Arguments Ok {A} a.
Arguments Throw {A} e.

(** What a call of a function does, as far as user code is followed here:
    it assigns to properties of the object it is called on
    ([this.name = value], in order) and then returns a value, returns
    [this], or throws. *)
Inductive completion :=
  | Returns (v : jsval)
  | ReturnsThis
  | Throws (e : exn).

Record code := {
  assigns : list (string * jsval);
  completes : completion;
}.

Inductive jsobj :=
  | OObj (props : list (string * jsval))  (* own enumerable properties, in order *)
  | OArr (elems : list jsval)
  | OFunction (props : list (string * jsval)) (body : code).  (* a callable object *)

(** [function(){}] *)
Definition OFun : jsobj :=
  OFunction [] {| assigns := []; completes := Returns VUndefined |}.

(** A heap cell is either a live object or the tombstone left behind when
    the collector reclaimed it.  Addresses are never reused, so a weak
    reference to a reclaimed object stays dead. *)
Inductive cell :=
  | Live (o : jsobj)
  | Reclaimed.

Abbreviation heap := (gmap loc cell).

#[global] Instance jsval_eq_dec : EqDecision jsval.
Proof. solve_decision. Defined.

#[global] Instance exn_eq_dec : EqDecision exn.
Proof. solve_decision. Defined.

#[global] Instance completion_eq_dec : EqDecision completion.
Proof. solve_decision. Defined.

#[global] Instance code_eq_dec : EqDecision code.
Proof. solve_decision. Defined.

#[global] Instance jsobj_eq_dec : EqDecision jsobj.
Proof. solve_decision. Defined.

#[global] Instance cell_eq_dec : EqDecision cell.
Proof. solve_decision. Defined.

Definition live_obj (h : heap) (l : loc) : option jsobj :=
  match h !! l with
  | Some (Live o) => Some o
  | _ => None
  end.

Definition is_live (h : heap) (l : loc) : bool :=
  match live_obj h l with Some _ => true | None => false end.

Definition alloc (o : jsobj) (h : heap) : loc * heap :=
  let l := fresh (dom h) in (l, <[l := Live o]> h).
Arguments alloc : simpl never.

(** The references an object holds directly; a function holds the objects
    its body mentions. *)
Definition val_refs (v : jsval) : list loc :=
  match v with VRef l => [l] | _ => [] end.

Definition code_values (body : code) : list jsval :=
  (assigns body).*2 ++
  match completes body with Returns v => [v] | _ => [] end.

Definition children (o : jsobj) : list loc :=
  match o with
  | OObj props => props ≫= (λ p, val_refs p.2)
  | OArr elems => elems ≫= val_refs
  | OFunction props body =>
      (props ≫= (λ p, val_refs p.2)) ++ (code_values body ≫= val_refs)
  end.

(** The named own properties of an object (an array is modelled with its
    elements only). *)
Definition own_props (o : jsobj) : list (string * jsval) :=
  match o with
  | OObj props => props
  | OArr _ => []
  | OFunction props _ => props
  end.

Fixpoint props_get (name : string) (props : list (string * jsval)) : option jsval :=
  match props with
  | [] => None
  | (n, v) :: props' => if decide (n = name) then Some v else props_get name props'
  end.

(** [o[name] = v] on the properties of an object: a present property keeps
    its place, a new one goes last. *)
Fixpoint props_set (name : string) (v : jsval) (props : list (string * jsval))
  : list (string * jsval) :=
  match props with
  | [] => [(name, v)]
  | (n, v') :: props' =>
      if decide (n = name) then (n, v) :: props'
      else (n, v') :: props_set name v props'
  end.

Definition assign (l : loc) (name : string) (v : jsval) (h : heap) : heap :=
  match live_obj h l with
  | Some (OObj props) => <[l := Live (OObj (props_set name v props))]> h
  | Some (OFunction props body) =>
      <[l := Live (OFunction (props_set name v props) body)]> h
  | _ => h
  end.

(** Calling a function on [thisArg]: the assignments of the body, then its
    completion. *)
Definition Invoke (body : code) (thisArg : loc) (h : heap) : result jsval * heap :=
  (match completes body with
   | Returns v => Ok v
   | ReturnsThis => Ok (VRef thisArg)
   | Throws e => Throw e
   end,
   foldl (λ h' a, assign thisArg a.1 a.2 h') h (assigns body)).

(** ** The built-in [Map]: insertion ordered, [set] on a present key
    replaces the value where the key already sits. *)

Definition JsMap (V : Type) := list (string * V).

Fixpoint Map_get {V} (key : string) (m : JsMap V) : option V :=
  match m with
  | [] => None
  | (k, v) :: m' => if decide (k = key) then Some v else Map_get key m'
  end.

Fixpoint Map_set {V} (key : string) (value : V) (m : JsMap V) : JsMap V :=
  match m with
  | [] => [(key, value)]
  | (k, v) :: m' =>
      if decide (k = key) then (k, value) :: m'
      else (k, v) :: Map_set key value m'
  end.

Definition Map_keys {V} (m : JsMap V) : list string := m.*1.

Definition Map_size {V} (m : JsMap V) : nat := length m.

(** ** Cache entries *)

Record CacheEntryState := {
  retained_lru : bool;
  retained_ttl : Z;
  lastAccessed : Z;
}.

(** [CacheEntry]: the 3-tuple [key, value, state?] handed to [load]. *)
Record CacheEntry := {
  entry_key : string;
  entry_value : jsval;
  entry_state : option CacheEntryState;
}.

(** ** The method monad: state and exceptions over the heap and the
    instance a method is called on *)

(** [WeakRef]: remembers its target without keeping it alive. *)
Record WeakRef := { target : loc }.

Record CacheImpl := {
  weakCache : JsMap WeakRef;
  lru : JsMap jsval;
}.

Record WorldOf (I : Type) := {
  w_heap : heap;
  this : I;
}.
Arguments w_heap {I} _.
Arguments this {I} _.
Arguments Build_WorldOf {I} _ _.

Abbreviation World := (WorldOf CacheImpl).

Definition MOf (I A : Type) := WorldOf I → result A * WorldOf I.

Abbreviation M := (MOf CacheImpl).

Definition ret {I A} (a : A) : MOf I A := λ w, (Ok a, w).

Definition throw {I A} (e : exn) : MOf I A := λ w, (Throw e, w).

Definition bind {I A B} (m : MOf I A) (f : A → MOf I B) : MOf I B :=
  λ w, match m w with
       | (Ok a, w') => f a w'
       | (Throw e, w') => (Throw e, w')
       end.

Definition try_catch {I A} (m : MOf I A) (handler : exn → MOf I A) : MOf I A :=
  λ w, match m w with
       | (Ok a, w') => (Ok a, w')
       | (Throw e, w') => handler e w'
       end.

#[global] Instance M_ret {I} : MRet (MOf I) := λ A, @ret I A.

#[global] Instance M_bind {I} : MBind (MOf I) := λ A B f m, bind m f.

Definition get_heap {I} : MOf I heap := λ w, (Ok (w_heap w), w).

Definition get_this {I} : MOf I I := λ w, (Ok (this w), w).

Definition put_this {I} (c : I) : MOf I unit :=
  λ w, (Ok tt, {| w_heap := w_heap w; this := c |}).

Definition put_heap {I} (h : heap) : MOf I unit :=
  λ w, (Ok tt, {| w_heap := h; this := this w |}).

(** [new WeakRef(v)] throws a [TypeError] unless [v] is an object. *)
Definition new_WeakRef {I} (v : jsval) : MOf I WeakRef :=
  match v with
  | VRef l => ret {| target := l |}
  | _ => throw (TypeError "WeakRef: target must be an object")
  end.

(** [ref.deref()]: the target while it is alive, [undefined] afterwards. *)
Definition deref (h : heap) (r : WeakRef) : jsval :=
  if is_live h (target r) then VRef (target r) else VUndefined.

(** ** [CacheImpl] *)

Definition buildCache : CacheImpl := {| weakCache := []; lru := [] |}.

(** [this.#weakCache.get(key)?.deref()] *)
Definition weak_lookup (c : CacheImpl) (h : heap) (key : string) : jsval :=
  match Map_get key (weakCache c) with
  | Some r => deref h r
  | None => VUndefined
  end.

(** [get(cacheKey)] *)
Definition get (cacheKey : string) : M jsval :=
  c ← get_this;
  h ← get_heap;
  ret (weak_lookup c h cacheKey).

Definition weakCache_set (key : string) (r : WeakRef) : M unit :=
  c ← get_this;
  put_this {| weakCache := Map_set key r (weakCache c); lru := lru c |}.

Definition lru_set (key : string) (value : jsval) : M unit :=
  c ← get_this;
  put_this {| weakCache := weakCache c; lru := Map_set key value (lru c) |}.

(** [load(entries)]: the value itself is installed ([let clone = value]),
    weakly in [#weakCache] and strongly in [#lru]; the state of the entry
    is not read. *)
Fixpoint load (entries : list CacheEntry) : M unit :=
  match entries with
  | [] => ret tt
  | entry :: rest =>
      let key := entry_key entry in
      let value := entry_value entry in
      let clone := value in
      r ← new_WeakRef clone;
      (weakCache_set key r;;
       lru_set key value;;
       load rest)
  end.

(** What one round of the loop of [load] does to the instance when the
    value is the object at [l]. *)
Definition install (key : string) (l : loc) (w : World) : World :=
  {| w_heap := w_heap w;
     this := {| weakCache := Map_set key {| target := l |} (weakCache (this w));
                lru := Map_set key (VRef l) (lru (this w)) |} |}.

(** The tuples produced by iteration: [key, value, state]. *)
Record CacheTuple := {
  tuple_key : string;
  tuple_value : jsval;
  tuple_state : option CacheEntryState;
}.

(** [[Symbol.asyncIterator]()]: one tuple per key of [#weakCache], with the
    dereferenced value and [state = undefined]. *)
Definition asyncIterator : M (list CacheTuple) :=
  c ← get_this;
  h ← get_heap;
  ret (map (λ kv : string * WeakRef,
              let key := kv.1 in
              let ref := weak_lookup c h key in
              let state := @None CacheEntryState in
              {| tuple_key := key; tuple_value := ref; tuple_state := state |})
           (weakCache c)).

Definition entries : M (list CacheTuple) := asyncIterator.

Definition keys : M (list string) :=
  ts ← entries; ret (map tuple_key ts).

Definition values : M (list jsval) :=
  ts ← entries; ret (map tuple_value ts).

(** ** [JSON.stringify] and [JSON.parse]

    The text that travels between the two built-ins is kept as its syntax
    tree. *)

#[local] Set Warnings "-register-all".

Inductive json :=
  | JNull
  | JBool (b : bool)
  | JNum (n : Z)
  | JStr (s : string)
  | JArr (items : list json)
  | JObj (members : list (string * json)).

(** The serializer either finishes (with a result or an exception, and the
    heap the [toJSON] methods it called left behind) or runs out of fuel
    ([None]); [JSON_stringify_fuel_enough] below shows that the fuel
    supplied by [JSON_stringify] always suffices. *)
Definition ser_bind {A B} (x : option (result A * heap))
    (f : A → heap → option (result B * heap)) : option (result B * heap) :=
  match x with
  | None => None
  | Some (Throw e, h) => Some (Throw e, h)
  | Some (Ok a, h) => f a h
  end.

Definition circular : exn := TypeError "Converting circular structure to JSON".

(** [GetV(value, "toJSON")], when it is callable: the object the method is
    called on and the body of the method. *)
Definition toJSON (h : heap) (value : jsval) : option (loc * code) :=
  match value with
  | VRef l =>
      match live_obj h l with
      | Some o =>
          match props_get "toJSON" (own_props o) with
          | Some (VRef f) =>
              match live_obj h f with
              | Some (OFunction _ body) => Some (l, body)
              | _ => None
              end
          | _ => None
          end
      | None => None
      end
  | _ => None
  end.

(** The keys of an object when the serializer enters it, each with its
    place; and the value a place holds when its turn comes (assignments
    never remove or reorder properties, so a key keeps its place). *)
Definition keys_of (props : list (string * jsval)) : list (nat * string) :=
  imap (λ i p, (i, p.1)) props.

Definition prop_at (h : heap) (l : loc) (i : nat) : jsval :=
  match live_obj h l with
  | Some o => match own_props o !! i with Some p => p.2 | None => VUndefined end
  | None => VUndefined
  end.

Definition elem_at (h : heap) (l : loc) (i : nat) : jsval :=
  match live_obj h l with
  | Some (OArr elems) => default VUndefined (elems !! i)
  | _ => VUndefined
  end.

(** The properties of the object at [l], written in order: a property
    whose value has no JSON form is left out. *)
Definition serialize_members
    (ser : jsval → heap → option (result (option json) * heap)) (l : loc)
  : list (nat * string) → heap → option (result (list (string * json)) * heap) :=
  fix members K h :=
    match K with
    | [] => Some (Ok [], h)
    | (i, P) :: K' =>
        ser_bind (ser (prop_at h l i) h)
          (λ strP h1,
             ser_bind (members K' h1)
               (λ ms h2, Some (Ok (match strP with
                                   | Some j => (P, j) :: ms
                                   | None => ms
                                   end), h2)))
    end.

(** The elements of the array at [l], written in order: an element whose
    value has no JSON form is written as [null]. *)
Definition serialize_items
    (ser : jsval → heap → option (result (option json) * heap)) (l : loc)
  : list nat → heap → option (result (list json) * heap) :=
  fix items indices h :=
    match indices with
    | [] => Some (Ok [], h)
    | i :: indices' =>
        ser_bind (ser (elem_at h l i) h)
          (λ strP h1,
             ser_bind (items indices' h1)
               (λ js h2, Some (Ok (match strP with
                                   | Some j => j :: js
                                   | None => JNull :: js
                                   end), h2)))
    end.

(** SerializeJSONProperty, for a value already read from its holder: a
    callable [toJSON] of the value is called first and its result written
    instead; [undefined] and functions have no JSON form ([Ok None]); a
    non-finite number is written as [null]; an object that is already on
    the stack of objects being written is a cycle.  [nested] writes the
    values one level down. *)
Definition serialize_value
    (nested : list loc → jsval → heap → option (result (option json) * heap))
    (stack : list loc) (value : jsval) (h : heap)
  : option (result (option json) * heap) :=
  let called :=
    match toJSON h value with
    | Some (l, body) => Invoke body l h
    | None => (Ok value, h)
    end in
  match called with
  | (Throw e, h) => Some (Throw e, h)
  | (Ok VUndefined, h) => Some (Ok None, h)
  | (Ok VNull, h) => Some (Ok (Some JNull), h)
  | (Ok (VBool b), h) => Some (Ok (Some (JBool b)), h)
  | (Ok (VNum n), h) => Some (Ok (Some (JNum n)), h)
  | (Ok VNaN, h) => Some (Ok (Some JNull), h)
  | (Ok (VStr s), h) => Some (Ok (Some (JStr s)), h)
  | (Ok (VRef l), h) =>
      match live_obj h l with
      | None => Some (Throw (TypeError "reference to a reclaimed object"), h)
      | Some (OFunction _ _) => Some (Ok None, h)
      | Some (OObj props) =>
          if decide (l ∈ stack) then Some (Throw circular, h)
          else ser_bind
                 (serialize_members (nested (l :: stack)) l (keys_of props) h)
                 (λ ms h', Some (Ok (Some (JObj ms)), h'))
      | Some (OArr elems) =>
          if decide (l ∈ stack) then Some (Throw circular, h)
          else ser_bind
                 (serialize_items (nested (l :: stack)) l (seq 0 (length elems)) h)
                 (λ js h', Some (Ok (Some (JArr js)), h'))
      end
  end.

(** The fuel bounds the depth of nesting. *)
Fixpoint SerializeJSONProperty (fuel : nat)
  : list loc → jsval → heap → option (result (option json) * heap) :=
  match fuel with
  | O => serialize_value (λ _ _ _, None)
  | S fuel' => serialize_value (SerializeJSONProperty fuel')
  end.

(** [JSON.stringify(x)]: the JSON text of [x], or [undefined]. *)
Definition JSON_stringify {I} (x : jsval) : MOf I (option json) :=
  h ← get_heap;
  match SerializeJSONProperty (S (size h)) [] x h with
  | Some (Ok text, h') => put_heap h';; ret text
  | Some (Throw e, h') => put_heap h';; throw e
  | None => throw (Error "JSON.stringify: out of fuel")
  end.

(** Building the values of a list of JSON texts, left to right. *)
Definition internalize_items (internalize : json → heap → jsval * heap)
  : list json → heap → list jsval * heap :=
  fix elems js h :=
    match js with
    | [] => ([], h)
    | j' :: js' =>
        let '(v, h1) := internalize j' h in
        let '(vs, h2) := elems js' h1 in
        (v :: vs, h2)
    end.

Definition internalize_members (internalize : json → heap → jsval * heap)
  : list (string * json) → heap → list (string * jsval) * heap :=
  fix props ms h :=
    match ms with
    | [] => ([], h)
    | (k, j') :: ms' =>
        let '(v, h1) := internalize j' h in
        let '(ps, h2) := props ms' h1 in
        ((k, v) :: ps, h2)
    end.

(** Building the value a JSON text denotes: every array and object of the
    text becomes a new heap object. *)
Fixpoint InternalizeJSON (j : json) (h : heap) : jsval * heap :=
  match j with
  | JNull => (VNull, h)
  | JBool b => (VBool b, h)
  | JNum n => (VNum n, h)
  | JStr s => (VStr s, h)
  | JArr items =>
      let '(vs, h1) := internalize_items InternalizeJSON items h in
      let '(l, h2) := alloc (OArr vs) h1 in
      (VRef l, h2)
  | JObj members =>
      let '(ps, h1) := internalize_members InternalizeJSON members h in
      let '(l, h2) := alloc (OObj ps) h1 in
      (VRef l, h2)
  end.

(** [JSON.parse(text)]: the argument is converted to a string first, and
    the string [undefined] is not JSON. *)
Definition JSON_parse {I} (text : option json) : MOf I jsval :=
  match text with
  | None => throw (SyntaxError "Unexpected token u in JSON at position 0")
  | Some j =>
      h ← get_heap;
      let '(v, h') := InternalizeJSON j h in
      put_heap h';;
      ret v
  end.

Definition not_clonable : exn :=
  Error "The cache value is not structured clonable use `save` with serializer".

(** The module's own [structuredClone]. *)
Definition structuredClone {I} (x : jsval) : MOf I jsval :=
  try_catch
    (text ← JSON_stringify x; JSON_parse text)
    (λ error, throw not_clonable).

(** [save()]: clone the value of every tuple of [entries()]. *)
Fixpoint save_loop (ts : list CacheTuple) (arrayOfCacheEntryTuples : list CacheTuple)
  : M (list CacheTuple) :=
  match ts with
  | [] => ret arrayOfCacheEntryTuples
  | t :: ts' =>
      structuredClonedValue ← structuredClone (tuple_value t);
      save_loop ts'
        (arrayOfCacheEntryTuples ++
           [{| tuple_key := tuple_key t;
               tuple_value := structuredClonedValue;
               tuple_state := tuple_state t |}])
  end.

Definition save : M (list CacheTuple) :=
  ts ← entries;
  save_loop ts [].

(** ** What the application and the collector do to the heap *)

(** The caller's [o[name] = v] on an object it holds. *)
Definition set_prop (l : loc) (name : string) (v : jsval) : M unit :=
  h ← get_heap;
  match live_obj h l with
  | Some (OObj props) => put_heap (<[l := Live (OObj (props_set name v props))]> h)
  | Some (OFunction props body) =>
      put_heap (<[l := Live (OFunction (props_set name v props) body)]> h)
  | _ => ret tt
  end.

(** The strong references of the cache instance: the values of [#lru]. *)
Definition strong_roots (c : CacheImpl) : list loc :=
  lru c ≫= (λ kv, val_refs kv.2).

Inductive reachable (h : heap) (roots : list loc) : loc → Prop :=
  | reachable_root l :
      l ∈ roots → reachable h roots l
  | reachable_child l o l' :
      reachable h roots l → live_obj h l = Some o → l' ∈ children o →
      reachable h roots l'.

(** Reclaiming the objects at [D]: their cells become tombstones. *)
Definition reclaim (D : gset loc) (h : heap) : heap :=
  map_imap (λ l c, if decide (l ∈ D) then Some Reclaimed else Some c) h.

(** One thing that can happen during the life of a cache instance: a call
    of a public method, the application allocating or mutating objects, or
    a collection of objects that are not strongly reachable from the cache.
    (The collector modelled here is the most eager one: it may even take
    objects the application still holds.)  The values the caller hands to
    [load] are objects it holds, hence alive. *)
Inductive step : World → World → Prop :=
  | step_load es w r w' :
      (∀ e l, e ∈ es → entry_value e = VRef l → is_live (w_heap w) l = true) →
      load es w = (r, w') →
      step w w'
  | step_get k w r w' :
      get k w = (r, w') →
      step w w'
  | step_save w r w' :
      save w = (r, w') →
      step w w'
  | step_application w h' :
      (∀ l, is_live (w_heap w) l = true → is_live h' l = true) →
      (∀ l, w_heap w !! l = Some Reclaimed → h' !! l = Some Reclaimed) →
      step w {| w_heap := h'; this := this w |}
  | step_collect w D :
      (∀ l, l ∈ D → ¬ reachable (w_heap w) (strong_roots (this w)) l) →
      step w {| w_heap := reclaim D (w_heap w); this := this w |}.

(** The worlds a program can be in: any heap with a freshly built cache,
    and whatever follows by [step]s. *)
Definition reachable_world (w : World) : Prop :=
  ∃ h, rtc step {| w_heap := h; this := buildCache |} w.

(** The weak reference stored under [k] still resolves. *)
Definition resolves (w : World) (k : string) : Prop :=
  ∃ r, Map_get k (weakCache (this w)) = Some r ∧
       is_live (w_heap w) (target r) = true.

(** Every weak entry has a strong twin in [#lru] that holds the very same
    object, so the referent is alive; and no key occurs twice. *)
Definition cache_inv (w : World) : Prop :=
  NoDup (Map_keys (weakCache (this w))) ∧
  ∀ k r, Map_get k (weakCache (this w)) = Some r →
         Map_get k (lru (this w)) = Some (VRef (target r)) ∧
         is_live (w_heap w) (target r) = true.

(** The array [save] resolves to, read as the argument of [load]: the
    tuples are the same 3-element arrays. *)
Definition as_entries (ts : list CacheTuple) : list CacheEntry :=
  map (λ t, {| entry_key := tuple_key t;
               entry_value := tuple_value t;
               entry_state := tuple_state t |}) ts.

(** ** An operation the specification names that [cache.ts] does not define *)

(** Modelled from the spec: [clear()], which this version of [Cache] does
    not declare.  The spec: "empty primary store, LRU tier, and revision
    log" (there is no revision log in [CacheImpl]). *)
Definition clear : M unit :=
  put_this {| weakCache := []; lru := [] |}.

(** The built-in [Map.prototype.delete]. *)
Fixpoint Map_delete {V} (key : string) (m : JsMap V) : JsMap V :=
  match m with
  | [] => []
  | (k, v) :: m' =>
      if decide (k = key) then m' else (k, v) :: Map_delete key m'
  end.

(** What a reader sees of a value: a primitive as it is, an object through
    its contents at the time of the read. *)
Inductive observation :=
  | ObsObject (contents : option jsobj)
  | ObsValue (v : jsval).

Definition observe (h : heap) (v : jsval) : observation :=
  match v with
  | VRef l => ObsObject (live_obj h l)
  | _ => ObsValue v
  end.

(** ** Sample worlds *)

Definition w_frame : World :=
  {| w_heap := {[ 1%positive := Live (OObj [("name", VStr "a")]);
                  2%positive := Live (OObj [("name", VStr "b")]) ]};
     this := {| weakCache := [("u:1", {| target := 1%positive |})];
                lru := [("u:1", VRef 1%positive)] |} |}.

(** Keys [k], [kk], [kkk], ...: pairwise distinct. *)
Fixpoint nth_key (n : nat) : string :=
  match n with
  | O => "k"
  | S n' => ("k" ++ nth_key n')%string
  end.

(** [n] entries with pairwise distinct keys, all carrying the value [v]. *)
Definition distinct_entries (v : jsval) (n : nat) : list CacheEntry :=
  map (λ i, {| entry_key := nth_key i; entry_value := v; entry_state := None |})
      (seq 0 n).

Definition fresh_cache (h : heap) : World :=
  {| w_heap := h; this := buildCache |}.

Definition entry (key : string) (value : jsval) : CacheEntry :=
  {| entry_key := key; entry_value := value; entry_state := None |}.

Definition w_three : World :=
  fresh_cache {[ 1%positive := Live (OObj [("v", VNum 1)]);
                 2%positive := Live (OObj [("v", VNum 2)]);
                 3%positive := Live (OObj [("v", VNum 3)]) ]}.

(** A caller that keeps the object it loaded and writes to it afterwards:
    [o = {name: "a"}; load([["u:1", o]]); get("u:1"); o.name = "b";
    get("u:1")].  The result is what the two reads see. *)
Definition w_alias : World :=
  fresh_cache {[ 1%positive := Live (OObj [("name", VStr "a")]) ]}.

Definition caller_mutates_after_load : M (jsval * observation * jsval * observation) :=
  load [entry "u:1" (VRef 1%positive)];;
  before ← get "u:1";
  h1 ← get_heap;
  set_prop 1%positive "name" (VStr "b");;
  after ← get "u:1";
  h2 ← get_heap;
  ret (before, observe h1 before, after, observe h2 after).

(** An entity with a function-valued property, [{f: function(){}, n: 1}],
    loaded under ["k"]. *)
Definition w_function : World :=
  (load [entry "k" (VRef 1%positive)]
     (fresh_cache {[ 1%positive := Live (OObj [("f", VRef 2%positive); ("n", VNum 1)]);
                     2%positive := Live OFun ]})).2.

(** An entry whose value is itself a function. *)
Definition w_function_value : World :=
  (load [entry "k" (VRef 1%positive)]
     (fresh_cache {[ 1%positive := Live OFun ]})).2.

(** An entity that contains itself: [o = {}; o.self = o]. *)
Definition w_cyclic : World :=
  (load [entry "k" (VRef 1%positive)]
     (fresh_cache {[ 1%positive := Live (OObj [("self", VRef 1%positive)]) ]})).2.

(** The entity [{n: NaN}] loaded under ["k"]. *)
Definition w_nan : World :=
  (load [entry "k" (VRef 1%positive)]
     (fresh_cache {[ 1%positive := Live (OObj [("n", VNaN)]) ]})).2.

(** Reading a key together with what the returned object contains. *)
Definition read (key : string) : M (jsval * observation) :=
  v ← get key;
  h ← get_heap;
  ret (v, observe h v).

(** [s = save(); clear(); load(s)], then a read of [key]. *)
Definition save_clear_load_read (key : string) : M (jsval * observation) :=
  s ← save;
  clear;;
  load (as_entries s);;
  read key.


(** Two entities loaded into the cache of [w_three], and the third object,
    which the cache does not hold, reclaimed. *)
Definition w_collected : World :=
  let w := (load [entry "a" (VRef 1%positive); entry "b" (VRef 2%positive)] w_three).2 in
  {| w_heap := reclaim {[3%positive]} (w_heap w); this := this w |}.

(** A world no program reaches: the weak entry of ["k"] outlived its
    object, which [#lru] does not hold. *)
Definition w_evaporated : World :=
  {| w_heap := {[ 1%positive := Reclaimed ]};
     this := {| weakCache := [("k", {| target := 1%positive |})]; lru := [] |} |}.

(** The tuples of [entries()] for the weak entries [m], as seen at heap [h]
    through the instance [c]. *)
Definition tuples_of (c : CacheImpl) (h : heap) (m : JsMap WeakRef) : list CacheTuple :=
  map (λ kv : string * WeakRef,
         {| tuple_key := kv.1;
            tuple_value := weak_lookup c h kv.1;
            tuple_state := None |}) m.

(** ** Values that JSON can express *)

(** [denotes h v j]: in the heap [h] the value [v] is the finite tree of
    plain objects, arrays, [null], booleans, numbers and strings that the
    JSON text [j] writes down.  Two values are structurally equal when they
    denote the same text. *)
Inductive denotes (h : heap) : jsval → json → Prop :=
  | denotes_null : denotes h VNull JNull
  | denotes_bool b : denotes h (VBool b) (JBool b)
  | denotes_num n : denotes h (VNum n) (JNum n)
  | denotes_str s : denotes h (VStr s) (JStr s)
  | denotes_arr l es js :
      live_obj h l = Some (OArr es) →
      Forall2 (denotes h) es js →
      denotes h (VRef l) (JArr js)
  | denotes_obj l ps ms :
      live_obj h l = Some (OObj ps) →
      Forall2 (λ (p : string * jsval) (m : string * json),
                 p.1 = m.1 ∧ denotes h p.2 m.2) ps ms →
      denotes h (VRef l) (JObj ms).

Fixpoint json_size (j : json) : nat :=
  match j with
  | JArr items => S (list_sum (map json_size items))
  | JObj members => S (list_sum (map (λ m : string * json, json_size m.2) members))
  | _ => 1
  end.

(** Every entity the cache holds is alive and expressible in JSON. *)
Definition json_expressible (w : World) : Prop :=
  ∀ k, k ∈ Map_keys (weakCache (this w)) →
       ∃ j, denotes (w_heap w) (weak_lookup (this w) (w_heap w) k) j.

(** [s = save(); clear(); load(s)] *)
Definition save_clear_load : M unit :=
  s ← save;
  clear;;
  load (as_entries s).

(** ** What [load] amounts to *)

Definition is_object (v : jsval) : bool :=
  match v with VRef _ => true | _ => false end.

(** One round of the loop of [load] for the entry [e]; nothing when
    [new WeakRef] would throw. *)
Definition install_entry (w : World) (e : CacheEntry) : World :=
  match entry_value e with
  | VRef l => install (entry_key e) l w
  | _ => w
  end.

Definition install_all (es : list CacheEntry) (w : World) : World :=
  foldl install_entry w es.

(** The entries [load] gets through: those before the first one whose value
    is not an object. *)
Fixpoint loadable_prefix (es : list CacheEntry) : list CacheEntry :=
  match es with
  | [] => []
  | e :: es' => if is_object (entry_value e) then e :: loadable_prefix es' else []
  end.

(** The value of the last entry of [es] with the key [k]. *)
Fixpoint last_value (es : list CacheEntry) (k : string) : option jsval :=
  match es with
  | [] => None
  | e :: es' =>
      match last_value es' k with
      | Some v => Some v
      | None => if decide (entry_key e = k) then Some (entry_value e) else None
      end
  end.

(** [acc] followed by the elements of [ks] that are new, each once, in the
    order of their first occurrence. *)
Definition add_new (acc ks : list string) : list string :=
  foldl (λ acc k, if decide (k ∈ acc) then acc else acc ++ [k]) acc ks.

(** The distinct elements of [ks], in the order of their first occurrence. *)
Definition first_occurrences (ks : list string) : list string := add_new [] ks.

(** Both maps of the instance have the key. *)
Definition has_key (w : World) (k : string) : Prop :=
  k ∈ Map_keys (weakCache (this w)) ∧ k ∈ Map_keys (lru (this w)).

(** [#lru] holds, key by key and in the same order, the targets of
    [#weakCache]. *)
Definition lru_mirrors (c : CacheImpl) : Prop :=
  lru c = map (λ kr : string * WeakRef, (kr.1, VRef (target kr.2))) (weakCache c).

(** The values of an object, in order. *)
Definition obj_values (o : jsobj) : list jsval :=
  match o with
  | OObj props => props.*2
  | OArr elems => elems
  | OFunction props body => props.*2 ++ code_values body
  end.

(** [made_new h0 h v]: in [h] the value [v] is a finite tree whose objects
    all sit at addresses that [h0] does not have. *)
Inductive made_new (h0 h : heap) : jsval → Prop :=
  | made_new_undefined : made_new h0 h VUndefined
  | made_new_null : made_new h0 h VNull
  | made_new_bool b : made_new h0 h (VBool b)
  | made_new_num n : made_new h0 h (VNum n)
  | made_new_nan : made_new h0 h VNaN
  | made_new_str s : made_new h0 h (VStr s)
  | made_new_ref l o :
      h0 !! l = None →
      live_obj h l = Some o →
      Forall (made_new h0 h) (obj_values o) →
      made_new h0 h (VRef l).

(** What [load] resolves or rejects with. *)
Definition load_result (es : list CacheEntry) : result unit :=
  if forallb (λ e, is_object (entry_value e)) es then Ok tt
  else Throw (TypeError "WeakRef: target must be an object").

(** Every weak reference of the instance points at a cell that was
    allocated, whether its object is still alive or not. *)
Definition targets_allocated (w : World) : Prop :=
  ∀ k r, Map_get k (weakCache (this w)) = Some r → is_Some (w_heap w !! target r).

(** ** The heap over time *)

(** [later h h']: [h'] is a later state of the heap [h]; the objects that
    were alive are alive (with whatever contents) and the reclaimed ones
    stay reclaimed. *)
Definition later (h h' : heap) : Prop :=
  ∀ l, (is_live h l = true → is_live h' l = true) ∧
       (h !! l = Some Reclaimed → h' !! l = Some Reclaimed).

(** No object of the heap has a callable [toJSON]. *)
Definition no_toJSON (h : heap) : Prop := ∀ l, toJSON h (VRef l) = None.

(** [only_parsed h0 h]: the objects of [h] at addresses that [h0] does not
    have are plain objects and arrays whose values are primitives or
    objects at such addresses again, as [JSON.parse] builds them. *)
Definition only_parsed (h0 h : heap) : Prop :=
  ∀ l o, h0 !! l = None → live_obj h l = Some o →
         (∀ ps body, o ≠ OFunction ps body) ∧
         ∀ f, VRef f ∈ obj_values o → h0 !! f = None.

(** ** Entities with a [toJSON] method *)

(** [{n: 1, toJSON() { this.n = 2; return this; }}] loaded under ["k"]. *)
Definition w_toJSON_writes : World :=
  (load [entry "k" (VRef 1%positive)]
     (fresh_cache
        {[ 1%positive := Live (OObj [("n", VNum 1); ("toJSON", VRef 2%positive)]);
           2%positive := Live (OFunction []
                                 {| assigns := [("n", VNum 2)];
                                    completes := ReturnsThis |}) ]})).2.

(** [{toJSON: function(){}, n: 1}] loaded under ["k"]. *)
Definition w_toJSON_undefined : World :=
  (load [entry "k" (VRef 1%positive)]
     (fresh_cache
        {[ 1%positive := Live (OObj [("toJSON", VRef 2%positive); ("n", VNum 1)]);
           2%positive := Live OFun ]})).2.

(** A function that carries a [toJSON] returning the string ["f"], loaded
    under ["k"]: [f = function(){}; f.toJSON = function() { return "f"; }]. *)
Definition w_function_toJSON : World :=
  (load [entry "k" (VRef 1%positive)]
     (fresh_cache
        {[ 1%positive := Live (OFunction [("toJSON", VRef 2%positive)]
                                 {| assigns := []; completes := Returns VUndefined |});
           2%positive := Live (OFunction []
                                 {| assigns := [];
                                    completes := Returns (VStr "f") |}) ]})).2.

(** * The transactional cache ([packages/codegen/__tests__/go.test.ts])

    The later [CacheImpl], kept in that file from line 93 on: the cache
    with a bounded LRU tier, entry states, revisions and live
    transactions, together with [LiveCacheTransactionImpl],
    [CommittingTransactionImpl], [LruCacheImpl], [deepMerge] and a
    [structuredClone] that is the one of [cache.ts].

    - A method runs to completion, as before; the timer that [commit]
      races against is not modelled.
    - A transaction is a value that its methods take and give back; the
      cache it was begun on is the instance of the world.
    - The hooks of the cache options are user code: a function of the
      heap.  The transaction object a hook is handed is not among its
      arguments, so what a hook does through that object is not followed. *)

Module Transactional.

(** JavaScript's ToBoolean. *)
Definition truthy (v : jsval) : bool :=
  match v with
  | VUndefined | VNull | VNaN => false
  | VBool b => b
  | VNum n => negb (n =? 0)%Z
  | VStr s => match s with EmptyString => false | _ => true end
  | VRef _ => true
  end.

Definition Map_has {V} (key : string) (m : JsMap V) : bool :=
  bool_decide (key ∈ Map_keys m).

(** [ExpirationPolicy]: a field that is missing or not a number is [None]. *)
Record ExpirationPolicy := {
  lru : option Z;
  ttl : option Z;
}.

(** [DEFAULT_EXPIRATION = { lru: 10000, ttl: 60000 }] *)
Definition DEFAULT_EXPIRATION_lru : Z := 10000.
Definition DEFAULT_EXPIRATION_ttl : Z := 60000.

Definition DEFAULT_EXPIRATION : ExpirationPolicy :=
  {| lru := Some DEFAULT_EXPIRATION_lru; ttl := Some DEFAULT_EXPIRATION_ttl |}.

(** [policy && typeof policy === 'number' ? policy : fallback] *)
Definition number_or (policy : option Z) (fallback : Z) : Z :=
  match policy with
  | Some n => if (n =? 0)%Z then fallback else n
  | None => fallback
  end.

Record CacheEntryState := {
  retained_lru : bool;
  retained_ttl : Z;
  lastAccessed : option Z;
}.

Definition DEFAULT_ENTRY_STATE : CacheEntryState :=
  {| retained_lru := false;
     retained_ttl := DEFAULT_EXPIRATION_ttl;
     lastAccessed := None |}.

Record CachedEntityRevision := {
  entity : jsval;
  revision : Z;
  revisionContext : option string;
}.

(** The 3-tuple [key, value, state?]. *)
Record CacheEntry := {
  entry_key : string;
  entry_value : jsval;
  entry_state : option CacheEntryState;
}.

(** What the code leaves to the engine: the abstract equality [==], which
    between an object and a primitive goes through the conversion of the
    object to a string (for a function, its source text); and
    [Array.prototype.sort], whose order is the engine's choice when the
    comparison function is not consistent, as the one of
    [commitTransaction] is not: the result is some rearrangement of the
    array. *)
Class Engine := {
  IsLooselyEqual : heap → jsval → jsval → bool;
  Array_sort : ∀ {A : Type}, (A → A → Z) → list A → list A;
  Array_sort_permutation :
    ∀ (A : Type) (comparefn : A → A → Z) (l : list A), Array_sort comparefn l ≡ₚ l;
}.

(** User code run on the heap of the world. *)
Definition run_user {I A} (f : heap → result A * heap) : MOf I A :=
  λ w, let '(r, h') := f (w_heap w) in (r, {| w_heap := h'; this := this w |}).

(** ** Objects as [deepMerge] and the spread syntax read them *)

(** [obj !== null && !Array.isArray(obj) && typeof obj === 'object'] *)
Definition isObject (h : heap) (obj : jsval) : bool :=
  match obj with
  | VRef l => match live_obj h l with Some (OObj _) => true | _ => false end
  | _ => false
  end.

(** The own enumerable properties that [{ ...source }] copies: those of an
    object or a function, the elements of an array under their indices,
    the characters of a string; nothing for the other values. *)
Definition CopyDataProperties (h : heap) (source : jsval) : list (string * jsval) :=
  match source with
  | VRef l =>
      match live_obj h l with
      | Some (OObj props) => props
      | Some (OArr elems) => imap (λ i v, (pretty i, v)) elems
      | Some (OFunction props _) => props
      | None => []
      end
  | VStr s =>
      imap (λ i c, (pretty i, VStr (String c EmptyString))) (String.list_ascii_of_string s)
  | _ => []
  end.
Arguments CopyDataProperties : simpl never.

(** [{ ...source }]: a new plain object. *)
Definition spread {I} (source : jsval) : MOf I jsval :=
  h ← get_heap;
  let '(l, h') := alloc (OObj (CopyDataProperties h source)) h in
  put_heap h';;
  ret (VRef l).

(** [o[name]] on an own property. *)
Definition Get (h : heap) (o : jsval) (name : string) : jsval :=
  match o with
  | VRef l =>
      match live_obj h l with
      | Some ob => default VUndefined (props_get name (own_props ob))
      | None => VUndefined
      end
  | _ => VUndefined
  end.

Definition hasOwnProperty (h : heap) (o : jsval) (name : string) : bool :=
  match o with
  | VRef l =>
      match live_obj h l with
      | Some ob => bool_decide (is_Some (props_get name (own_props ob)))
      | None => false
      end
  | _ => false
  end.

Definition Object_keys (h : heap) (o : jsval) : list string :=
  match o with
  | VRef l =>
      match live_obj h l with
      | Some ob => (own_props ob).*1
      | None => []
      end
  | _ => []
  end.

(** [o[name] = v] *)
Definition Set_ {I} (o : jsval) (name : string) (v : jsval) : MOf I unit :=
  match o with
  | VRef l => h ← get_heap; put_heap (assign l name v h)
  | _ => ret tt
  end.

(** ** [deepMerge] and [resolveConflict] *)

(** [keys.forEach(callback)] *)
Fixpoint forEach {I} (callback : string → MOf I unit) (keys : list string) : MOf I unit :=
  match keys with
  | [] => ret tt
  | key :: rest => callback key;; forEach callback rest
  end.

(** The callback of [Object.keys(source).forEach] in [deepMerge];
    [resolveConflict] is the recursive call on the two values of the
    property. *)
Definition merge_sourceKey {I} `{Engine}
    (resolveConflict : jsval → jsval → MOf I jsval)
    (target source : jsval) (sourceKey : string) : MOf I unit :=
  h ← get_heap;
  if hasOwnProperty h target sourceKey then
    if negb (IsLooselyEqual h (Get h source sourceKey) (Get h target sourceKey)) then
      result ← resolveConflict (Get h target sourceKey) (Get h source sourceKey);
      h' ← get_heap;
      if negb (IsLooselyEqual h' result (Get h' target sourceKey)) then
        Set_ target sourceKey result
      else ret tt
    else ret tt
  else Set_ target sourceKey (Get h source sourceKey).

(** [deepMerge(targetData, sourceData)], with the depth of the call stack
    that is left: at depth [0] the engine throws its [RangeError]. *)
Fixpoint deepMerge {I} `{Engine} (depth : nat) (targetData sourceData : jsval)
  : MOf I jsval :=
  match depth with
  | O => throw (RangeError "Maximum call stack size exceeded")
  | S depth' =>
      h ← get_heap;
      source ← (if isObject h sourceData then spread sourceData else ret sourceData);
      target ← (if isObject h targetData then spread targetData else ret targetData);
      h' ← get_heap;
      if isObject h' source && isObject h' target then
        forEach (merge_sourceKey (deepMerge depth') target source) (Object_keys h' source);;
        ret target
      else ret source
  end.

(** The depth [deepMerge] is started with.  The recursion descends along
    pairs of objects of the heap it was started on, which it does not
    change; after more levels than there are such pairs a pair has come
    twice, and the calls do not end. *)
Definition merge_depth (h : heap) : nat := S (size h * size h).

(** [defaultMergeStrategy(id, { entity, revision }, current, tx)] *)
Definition defaultMergeStrategy {I} `{Engine}
    (id : string) (incoming : CachedEntityRevision) (current : jsval) : MOf I jsval :=
  h ← get_heap;
  deepMerge (merge_depth h) current (entity incoming).

(** ** The cache options *)

(** The hooks: [entitymergeStrategy(id, revision, current, tx)] and
    [commit(tx)] are called; of [revisionMergeStrategy] only the presence
    is looked at. *)
Record Hooks := {
  entitymergeStrategy :
    option (string → CachedEntityRevision → jsval → heap → result jsval * heap);
  revisionMergeStrategy : bool;
  commit : option (heap → result unit * heap);
}.

Record CacheOptions := {
  expiration : option ExpirationPolicy;
  hooks : option Hooks;
}.

(** [getCacheOptions()?.hooks] *)
Definition hooks_of (options : option CacheOptions) : option Hooks :=
  match options with
  | Some o => hooks o
  | None => None
  end.

(** [getCacheOptions()?.hooks?.entitymergeStrategy || defaultMergeStrategy] *)
Definition mergeStrategy_of {I} `{Engine} (options : option CacheOptions)
  : string → CachedEntityRevision → jsval → MOf I jsval :=
  match hooks_of options with
  | Some hs =>
      match entitymergeStrategy hs with
      | Some mergeStrategyFromCacheOptionHook =>
          λ id incoming current,
            run_user (mergeStrategyFromCacheOptionHook id incoming current)
      | None => defaultMergeStrategy
      end
  | None => defaultMergeStrategy
  end.

(** [getCacheOptions()?.hooks?.commit], called when there is one. *)
Definition customRetentionPolicy_of {I} (options : option CacheOptions) : MOf I unit :=
  match hooks_of options with
  | Some hs =>
      match commit hs with
      | Some customRetentionPolicy => run_user customRetentionPolicy
      | None => ret tt
      end
  | None => ret tt
  end.

(** Whether [getCacheOptions()?.hooks?.revisionMergeStrategy] is there. *)
Definition has_revisionMergeStrategy (options : option CacheOptions) : bool :=
  match hooks_of options with
  | Some hs => revisionMergeStrategy hs
  | None => false
  end.

(** [options?.expiration] *)
Definition expiration_of (options : option CacheOptions) : option ExpirationPolicy :=
  match options with
  | Some o => expiration o
  | None => None
  end.

(** ** [LruCacheImpl] *)

Module LruCacheImpl.

Record t := {
  max : Z;
  lruCache : JsMap jsval;
}.

Definition constructor (maxCapacity : Z) : t :=
  {| max := maxCapacity; lruCache := [] |}.

(** [set(cacheKey, value)]: a present key is refreshed; otherwise, at
    capacity, the first key of the map is evicted. *)
Definition set (cacheKey : string) (value : jsval) (c : t) : t :=
  let m :=
    if Map_has cacheKey (lruCache c) then Map_delete cacheKey (lruCache c)
    else if bool_decide (Z.of_nat (Map_size (lruCache c)) = max c) then
      match Map_keys (lruCache c) with
      | lruEntryKey :: _ => Map_delete lruEntryKey (lruCache c)
      | [] => lruCache c
      end
    else lruCache c in
  {| max := max c; lruCache := Map_set cacheKey value m |}.

Definition getCache (c : t) : JsMap jsval := lruCache c.

End LruCacheImpl.

(** ** [CommittingTransactionImpl] *)

Module CommittingTransactionImpl.

Record t := {
  mergedRevisions : JsMap (list CachedEntityRevision);
}.

Definition constructor : t := {| mergedRevisions := [] |}.

(** [cache.clearRevisions(tx, id)] *)
Definition clearRevisions (tx : t) (id : string) : t :=
  {| mergedRevisions := Map_delete id (mergedRevisions tx) |}.

(** [cache.appendRevisions(tx, id, revisions)] *)
Definition appendRevisions (tx : t) (id : string) (revisions : list CachedEntityRevision) : t :=
  {| mergedRevisions :=
       match Map_get id (mergedRevisions tx) with
       | Some present => Map_set id (present ++ revisions) (mergedRevisions tx)
       | None => Map_set id revisions (mergedRevisions tx)
       end |}.

End CommittingTransactionImpl.

(** ** [CacheImpl] *)

Module CacheImpl.

Record t := {
  weakCache : JsMap WeakRef;
  entryRevisions : JsMap (list CachedEntityRevision);
  cacheOptions : option CacheOptions;
  cacheEntryState : JsMap (option CacheEntryState);
  lruCache : LruCacheImpl.t;
  lruPolicy : Z;
}.

Abbreviation M := (MOf t).

Definition constructor (options : option CacheOptions) : t :=
  let expiration := default DEFAULT_EXPIRATION (expiration_of options) in
  let lruPolicy := number_or (lru expiration) DEFAULT_EXPIRATION_lru in
  {| weakCache := [];
     entryRevisions := [];
     cacheOptions := options;
     cacheEntryState := [];
     lruCache := LruCacheImpl.constructor lruPolicy;
     lruPolicy := lruPolicy |}.

Definition getCacheOptions : M (option CacheOptions) :=
  c ← get_this; ret (cacheOptions c).

(** [this.#weakCache.get(key)?.deref()] *)
Definition weak_lookup (c : t) (h : heap) (key : string) : jsval :=
  match Map_get key (weakCache c) with
  | Some r => deref h r
  | None => VUndefined
  end.

(** [get(cacheKey)] *)
Definition get (cacheKey : string) : M jsval :=
  c ← get_this;
  h ← get_heap;
  ret (weak_lookup c h cacheKey).

(** One round of the generator [[Symbol.asyncIterator]()], for the key
    [key] that the iteration of [#weakCache] has come to. *)
Definition asyncIterator_next (key : string) : M CacheEntry :=
  c ← get_this;
  h ← get_heap;
  let valueRef := weak_lookup c h key in
  if negb (truthy valueRef) then throw (Error "ref is undefined")
  else
    let state := default DEFAULT_ENTRY_STATE (mjoin (Map_get key (cacheEntryState c))) in
    ret {| entry_key := key; entry_value := valueRef; entry_state := Some state |}.

(** [for await (const entry of this.entries()) body]: the generator is
    resumed once for each key of [#weakCache], in the order of the map,
    and [body] runs on what it yields before the next key is looked at.
    (The keys are those present when the loop starts: no body in this code
    adds a key or deletes one that is still to come.) *)
Fixpoint for_await_keys {A} (keys : list string) (body : CacheEntry → A → M A) (acc : A)
  : M A :=
  match keys with
  | [] => ret acc
  | key :: rest =>
      entry ← asyncIterator_next key;
      acc' ← body entry acc;
      for_await_keys rest body acc'
  end.

Definition for_await_entries {A} (body : CacheEntry → A → M A) (acc : A) : M A :=
  c ← get_this;
  for_await_keys (Map_keys (weakCache c)) body acc.

(** [entries()], [keys()] and [values()], run to the end. *)
Definition entries : M (list CacheEntry) :=
  for_await_entries (λ entry acc, ret (acc ++ [entry])) [].

Definition keys : M (list string) :=
  for_await_entries (λ entry acc, ret (acc ++ [entry_key entry])) [].

Definition values : M (list jsval) :=
  for_await_entries (λ entry acc, ret (acc ++ [entry_value entry])) [].

(** [entryRevisions(cacheKey)], run to the end. *)
Definition entryRevisions_of (c : t) (cacheKey : string) : list CachedEntityRevision :=
  default [] (Map_get cacheKey (entryRevisions c)).

(** [clear()] *)
Definition clear : M unit :=
  for_await_entries
    (λ entry _,
       c ← get_this;
       let key := entry_key entry in
       put_this
         {| weakCache := Map_delete key (weakCache c);
            entryRevisions := Map_delete key (entryRevisions c);
            cacheOptions := cacheOptions c;
            cacheEntryState := cacheEntryState c;
            lruCache := {| LruCacheImpl.max := LruCacheImpl.max (lruCache c);
                           LruCacheImpl.lruCache :=
                             Map_delete key (LruCacheImpl.getCache (lruCache c)) |};
            lruPolicy := lruPolicy c |})
    tt.

(** [save()] *)
Definition save : M (list CacheEntry) :=
  for_await_entries
    (λ entry arrayOfCacheEntryTuples,
       structuredClonedValue ← structuredClone (entry_value entry);
       ret (arrayOfCacheEntryTuples ++
              [{| entry_key := entry_key entry;
                  entry_value := structuredClonedValue;
                  entry_state := entry_state entry |}]))
    [].

(** [this.#entryRevisions]: append to the revisions of a present key, or
    start them. *)
Definition push_revisions (key : string) (revisions : list CachedEntityRevision)
    (m : JsMap (list CachedEntityRevision)) : JsMap (list CachedEntityRevision) :=
  match Map_get key m with
  | Some present => Map_set key (present ++ revisions) m
  | None => Map_set key revisions m
  end.

(** [load(entries)]: a clone of the value is installed, weakly in
    [#weakCache] and strongly in [#lruCache]; the value itself goes into
    the revisions. *)
Fixpoint load_loop (entries : list CacheEntry) (revisionCounter : Z) : M unit :=
  match entries with
  | [] => ret tt
  | entry :: rest =>
      let key := entry_key entry in
      let value := entry_value entry in
      let state := entry_state entry in
      clone ← structuredClone value;
      r ← new_WeakRef clone;
      c ← get_this;
      let entityRevision :=
        {| entity := value; revision := (revisionCounter + 1)%Z; revisionContext := None |} in
      put_this
        {| weakCache := Map_set key r (weakCache c);
           entryRevisions := push_revisions key [entityRevision] (entryRevisions c);
           cacheOptions := cacheOptions c;
           cacheEntryState := Map_set key state (cacheEntryState c);
           lruCache := LruCacheImpl.set key clone (lruCache c);
           lruPolicy := lruPolicy c |};;
      load_loop rest (revisionCounter + 1)%Z
  end.

Definition load (entries : list CacheEntry) : M unit := load_loop entries 0%Z.

(** The comparison function that [commitTransaction] sorts with. *)
Definition by_lastAccessed (a b : CacheEntry) : Z :=
  match entry_state a ≫= lastAccessed, entry_state b ≫= lastAccessed with
  | Some t, Some t1 =>
      if negb (t =? 0)%Z && negb (t1 =? 0)%Z && (t <? t1)%Z then 1%Z else (-1)%Z
  | _, _ => (-1)%Z
  end.

(** The first loop of [commitTransaction]. *)
Fixpoint install_entries (sortEntries : list CacheEntry) : M unit :=
  match sortEntries with
  | [] => ret tt
  | entry :: rest =>
      let key := entry_key entry in
      let value := entry_value entry in
      let state := entry_state entry in
      r ← new_WeakRef value;
      c ← get_this;
      put_this
        {| weakCache := Map_set key r (weakCache c);
           entryRevisions := entryRevisions c;
           cacheOptions := cacheOptions c;
           cacheEntryState := Map_set key state (cacheEntryState c);
           lruCache :=
             (if default false (retained_lru <$> state)
              then LruCacheImpl.set key value (lruCache c)
              else lruCache c);
           lruPolicy := lruPolicy c |};;
      install_entries rest
  end.

(** [commitTransaction(entries, entryRevisions)] *)
Definition commitTransaction `{Engine} (entries : list CacheEntry)
    (entryRevisions' : JsMap (list CachedEntityRevision)) : M unit :=
  let sortEntries := Array_sort by_lastAccessed entries in
  install_entries sortEntries;;
  c ← get_this;
  put_this
    {| weakCache := weakCache c;
       entryRevisions :=
         foldl (λ m kv, push_revisions kv.1 kv.2 m) (entryRevisions c) entryRevisions';
       cacheOptions := cacheOptions c;
       cacheEntryState := cacheEntryState c;
       lruCache := lruCache c;
       lruPolicy := lruPolicy c |}.

End CacheImpl.

Abbreviation World := (WorldOf CacheImpl.t).
Abbreviation M := (MOf CacheImpl.t).

(** [buildCache(options)] *)
Definition buildCache (options : option CacheOptions) : CacheImpl.t :=
  CacheImpl.constructor options.

(** ** [LiveCacheTransactionImpl] *)

Module LiveCacheTransactionImpl.

Record t := {
  transactionalCache : JsMap jsval;
  localUpdatedEntries : JsMap jsval;
  commitingTransaction : CommittingTransactionImpl.t;
  cacheEntryState : JsMap CacheEntryState;
  userOptionRetentionPolicy : ExpirationPolicy;
  ttlPolicy : Z;
  lruPolicy : Z;
  localRevisions : JsMap (list CachedEntityRevision);
  entryRevisions : JsMap (list CachedEntityRevision);
}.

Definition constructor (options : option CacheOptions)
    (transactionalCacheEntryMap : JsMap jsval)
    (entryRevisions : JsMap (list CachedEntityRevision)) : t :=
  let userOptionRetentionPolicy := default DEFAULT_EXPIRATION (expiration_of options) in
  {| transactionalCache := transactionalCacheEntryMap;
     localUpdatedEntries := [];
     commitingTransaction := CommittingTransactionImpl.constructor;
     cacheEntryState := [];
     userOptionRetentionPolicy := userOptionRetentionPolicy;
     ttlPolicy := number_or (ttl userOptionRetentionPolicy) DEFAULT_EXPIRATION_ttl;
     lruPolicy := number_or (lru userOptionRetentionPolicy) DEFAULT_EXPIRATION_lru;
     localRevisions := [];
     entryRevisions := entryRevisions |}.

(** The inner loop of [beginLiveTransaction]: every revision of the key
    replaces the one before, so the last one stays. *)
Definition keep_last_revision (key : string) (revisions : list CachedEntityRevision)
    (m : JsMap (list CachedEntityRevision)) : JsMap (list CachedEntityRevision) :=
  foldl (λ m' entryRevision, Map_set key [entryRevision] m') m revisions.

(** The body of the loop of [beginLiveTransaction]: a shallow copy
    [{ ...value }] of the entity goes into the map of the transaction. *)
Definition copy_entry (entry : CacheEntry)
    (maps : JsMap jsval * JsMap (list CachedEntityRevision))
  : M (JsMap jsval * JsMap (list CachedEntityRevision)) :=
  let key := entry_key entry in
  copy ← spread (entry_value entry);
  c ← get_this;
  ret (Map_set key copy maps.1,
       keep_last_revision key (CacheImpl.entryRevisions_of c key) maps.2).

(** [beginLiveTransaction(originalCache)], over every entry that
    [entries()] yields. *)
Definition beginLiveTransaction : M t :=
  maps ← CacheImpl.for_await_entries copy_entry ([], []);
  options ← CacheImpl.getCacheOptions;
  ret (constructor options maps.1 maps.2).

(** The entry state that [get] and [set] leave. *)
Definition touched (T : t) (now : Z) : CacheEntryState :=
  {| retained_lru := true; retained_ttl := ttlPolicy T; lastAccessed := Some now |}.

Definition with_state (cacheKey : string) (state : CacheEntryState) (T : t) : t :=
  {| transactionalCache := transactionalCache T;
     localUpdatedEntries := localUpdatedEntries T;
     commitingTransaction := commitingTransaction T;
     cacheEntryState := Map_set cacheKey state (cacheEntryState T);
     userOptionRetentionPolicy := userOptionRetentionPolicy T;
     ttlPolicy := ttlPolicy T;
     lruPolicy := lruPolicy T;
     localRevisions := localRevisions T;
     entryRevisions := entryRevisions T |}.

(** [get(cacheKey)] at the time [now]: what [#transactionalCache] holds. *)
Definition get (cacheKey : string) (now : Z) (T : t) : jsval * t :=
  let cacheValue := default VUndefined (Map_get cacheKey (transactionalCache T)) in
  (cacheValue,
   if truthy cacheValue then with_state cacheKey (touched T now) T else T).

(** The generator [[Symbol.asyncIterator](entryMap)], run to the end. *)
Definition asyncIterator (entryMap : JsMap jsval) (T : t) : list CacheEntry :=
  map (λ kv : string * jsval,
         let state := default DEFAULT_ENTRY_STATE (Map_get kv.1 (cacheEntryState T)) in
         {| entry_key := kv.1; entry_value := kv.2; entry_state := Some state |})
      entryMap.

Definition entries (T : t) : list CacheEntry := asyncIterator (transactionalCache T) T.

Definition localEntries (T : t) : list CacheEntry := asyncIterator (localUpdatedEntries T) T.

Definition localRevisions_of (T : t) (cacheKey : string) : list CachedEntityRevision :=
  default [] (Map_get cacheKey (localRevisions T)).

Definition entryRevisions_of (T : t) (cacheKey : string) : list CachedEntityRevision :=
  default [] (Map_get cacheKey (entryRevisions T)) ++
  default [] (Map_get cacheKey (localRevisions T)).

(** [set(cacheKey, value)] at the time [now]; it returns [value]. *)
Definition set (cacheKey : string) (value : jsval) (now : Z) (T : t) : t :=
  with_state cacheKey (touched T now)
    {| transactionalCache := Map_set cacheKey value (transactionalCache T);
       localUpdatedEntries := Map_set cacheKey value (localUpdatedEntries T);
       commitingTransaction := commitingTransaction T;
       cacheEntryState := cacheEntryState T;
       userOptionRetentionPolicy := userOptionRetentionPolicy T;
       ttlPolicy := ttlPolicy T;
       lruPolicy := lruPolicy T;
       localRevisions := localRevisions T;
       entryRevisions := entryRevisions T |}.

(** [delete(cacheKey)]; it resolves to [true]. *)
Definition delete (cacheKey : string) (T : t) : t :=
  {| transactionalCache := Map_delete cacheKey (transactionalCache T);
     localUpdatedEntries := Map_delete cacheKey (localUpdatedEntries T);
     commitingTransaction := commitingTransaction T;
     cacheEntryState := cacheEntryState T;
     userOptionRetentionPolicy := userOptionRetentionPolicy T;
     ttlPolicy := ttlPolicy T;
     lruPolicy := lruPolicy T;
     localRevisions := localRevisions T;
     entryRevisions := entryRevisions T |}.

(** [this.#localRevisions.get(cacheKey)?.push(revision)], or the first
    revision of the key. *)
Definition push_localRevision (cacheKey : string) (revision : CachedEntityRevision)
    (T : t) : t :=
  {| transactionalCache := transactionalCache T;
     localUpdatedEntries := localUpdatedEntries T;
     commitingTransaction := commitingTransaction T;
     cacheEntryState := cacheEntryState T;
     userOptionRetentionPolicy := userOptionRetentionPolicy T;
     ttlPolicy := ttlPolicy T;
     lruPolicy := lruPolicy T;
     localRevisions :=
       match Map_get cacheKey (localRevisions T) with
       | Some present => Map_set cacheKey (present ++ [revision]) (localRevisions T)
       | None => Map_set cacheKey [revision] (localRevisions T)
       end;
     entryRevisions := entryRevisions T |}.

(** [merge(cacheKey, entityRevision)] at the time [now]: the entity merged
    into the current value of the transaction, which is then [set]. *)
Definition merge `{Engine} (cacheKey : string) (entityRevision : CachedEntityRevision)
    (now : Z) (T : t) : M (jsval * t) :=
  options ← CacheImpl.getCacheOptions;
  let mergeStrategy := mergeStrategy_of options in
  let currentValue := default VUndefined (Map_get cacheKey (transactionalCache T)) in
  mergedEntity ← mergeStrategy cacheKey entityRevision currentValue;
  let T1 := set cacheKey mergedEntity now T in
  let revision :=
    {| entity := mergedEntity;
       revision := revision entityRevision;
       revisionContext := revisionContext entityRevision |} in
  ret (mergedEntity, push_localRevision cacheKey revision T1).

(** [defaultRevisionStrategy(id, commitTx, liveTx)]: all local revisions
    of the key are appended to the merged ones. *)
Definition defaultRevisionStrategy (id : string) (T : t) : t :=
  {| transactionalCache := transactionalCache T;
     localUpdatedEntries := localUpdatedEntries T;
     commitingTransaction :=
       CommittingTransactionImpl.appendRevisions (commitingTransaction T) id
         (localRevisions_of T id);
     cacheEntryState := cacheEntryState T;
     userOptionRetentionPolicy := userOptionRetentionPolicy T;
     ttlPolicy := ttlPolicy T;
     lruPolicy := lruPolicy T;
     localRevisions := localRevisions T;
     entryRevisions := entryRevisions T |}.

(** The number that follows the last local revision of the key:
    [localRevisions[localRevisions.length - 1].revision], or [0], plus one. *)
Definition next_revision (T : t) (cacheKey : string) : M Z :=
  match Map_get cacheKey (localRevisions T) with
  | Some localRevisions =>
      match last localRevisions with
      | Some r => ret ((if (revision r =? 0)%Z then 0 else revision r) + 1)%Z
      | None => throw (TypeError "Cannot read properties of undefined (reading 'revision')")
      end
  | None => ret 1%Z
  end.

(** The loop of [writeToCache] in [commit]: the local value is merged into
    what the cache holds under the key now, and a clone of the result is
    staged. *)
Fixpoint writeToCache_loop `{Engine} (localEntries : list CacheEntry)
    (trasactionCacheEntries : list CacheEntry) (T : t) : M (list CacheEntry * t) :=
  match localEntries with
  | [] => ret (trasactionCacheEntries, T)
  | entry :: rest =>
      let cacheKey := entry_key entry in
      let value := entry_value entry in
      let state := entry_state entry in
      latestCacheValue ← CacheImpl.get cacheKey;
      options ← CacheImpl.getCacheOptions;
      let mergeStrategy := mergeStrategy_of options in
      entityToCommit ←
        (if truthy latestCacheValue then
           mergeStrategy cacheKey
             {| entity := value; revision := 3; revisionContext := None |}
             latestCacheValue
         else ret value);
      structuredClonedValue ← structuredClone entityToCommit;
      revisionNumber ← next_revision T cacheKey;
      let entityRevision :=
        {| entity := entityToCommit; revision := revisionNumber; revisionContext := None |} in
      let T1 := push_localRevision cacheKey entityRevision T in
      let T2 :=
        if has_revisionMergeStrategy options
        then T1 else defaultRevisionStrategy cacheKey T1 in
      writeToCache_loop rest
        (trasactionCacheEntries ++
           [{| entry_key := cacheKey;
               entry_value := structuredClonedValue;
               entry_state := state |}])
        T2
  end.

(** [commit()] *)
Definition commit `{Engine} (T : t) : M t :=
  staged ← writeToCache_loop (localEntries T) [] T;
  let '(trasactionCacheEntries, T') := staged in
  options ← CacheImpl.getCacheOptions;
  customRetentionPolicy_of options;;
  let mergedRevisions := CommittingTransactionImpl.mergedRevisions (commitingTransaction T') in
  CacheImpl.commitTransaction trasactionCacheEntries mergedRevisions;;
  ret T'.

End LiveCacheTransactionImpl.

(** [beginTransaction()] *)
Definition beginTransaction : M LiveCacheTransactionImpl.t :=
  LiveCacheTransactionImpl.beginLiveTransaction.

(** ** A live transaction among the other users of the cache *)

(** The objects at [P] belong to one holder: they exist, and no object on
    the heap refers to them.  Nor does any object refer to an address
    where there is nothing. *)
Definition sealed (P : gset loc) (h : heap) : Prop :=
  P ⊆ dom h ∧
  ∀ l o l', live_obj h l = Some o → l' ∈ children o → l' ∈ dom h ∧ l' ∉ P.

(** A value that is not one of the objects at [P]. *)
Definition outside (P : gset loc) (h : heap) (v : jsval) : Prop :=
  ∀ l, v = VRef l → l ∈ dom h ∧ l ∉ P.

(** From [h] to [h']: objects may have been added and changed, those at
    [P] are as they were and still sealed. *)
Definition frame (P : gset loc) (h h' : heap) : Prop :=
  sealed P h' ∧ dom h ⊆ dom h' ∧ ∀ l, l ∈ P → h' !! l = h !! l.

(** The cache does not hold an object of [P]. *)
Definition cache_outside (P : gset loc) (c : CacheImpl.t) (h : heap) : Prop :=
  Forall (λ kr : string * WeakRef, target kr.2 ∈ dom h ∧ target kr.2 ∉ P)
         (CacheImpl.weakCache c).

(** The computation [m], run in [w], leaves the instance and the objects
    at [P] as they are, and [Q] holds of what it returns. *)
Definition confines {I A} (P : gset loc) (m : MOf I A) (w : WorldOf I)
    (Q : A → heap → Prop) : Prop :=
  this (m w).2 = this w ∧
  frame P (w_heap w) (w_heap (m w).2) ∧
  ∀ a, (m w).1 = Ok a → Q a (w_heap (m w).2).

(** A cache with the options [options] that holds no object of [P], in a
    heap where [P] is sealed. *)
Definition good (P : gset loc) (options : option CacheOptions) (w : World) : Prop :=
  sealed P (w_heap w) ∧
  cache_outside P (this w) (w_heap w) ∧
  CacheImpl.cacheOptions (this w) = options.

(** The method [m], run in [w], leaves the cache [good] and the objects at
    [P] as they are, and [Q] holds of what it returns. *)
Definition preserves {A} (P : gset loc) (options : option CacheOptions)
    (m : M A) (w : World) (Q : A → heap → Prop) : Prop :=
  good P options (m w).2 ∧
  frame P (w_heap w) (w_heap (m w).2) ∧
  ∀ a, (m w).1 = Ok a → Q a (w_heap (m w).2).

(** A merge that keeps to itself: what it returns is not an object of
    [P], as long as the incoming value is not one that it would return as
    it is. *)
Definition merges {I} (P : gset loc) (resolveConflict : jsval → jsval → MOf I jsval)
  : Prop :=
  ∀ t s (w : WorldOf I),
    sealed P (w_heap w) → (isObject (w_heap w) s = false → outside P (w_heap w) s) →
    confines P (resolveConflict t s) w (λ v h, outside P h v).

(** User code that keeps to what it is given: whatever is sealed, and not
    among its arguments, it leaves alone, and it does not return it. *)
Definition confined_strategy
    (f : string → CachedEntityRevision → jsval → heap → result jsval * heap) : Prop :=
  ∀ P h id incoming current,
    sealed P h → outside P h (entity incoming) → outside P h current →
    frame P h (f id incoming current h).2 ∧
    ∀ v, (f id incoming current h).1 = Ok v → outside P (f id incoming current h).2 v.

Definition confined_policy (g : heap → result unit * heap) : Prop :=
  ∀ P h, sealed P h → frame P h (g h).2.

Definition confined_hooks (options : option CacheOptions) : Prop :=
  ∀ hs, hooks_of options = Some hs →
    (∀ f, entitymergeStrategy hs = Some f → confined_strategy f) ∧
    (∀ g, commit hs = Some g → confined_policy g).

(** Whether the cache is configured with a merge strategy of its own. *)
Definition custom_merge (options : option CacheOptions) : bool :=
  match hooks_of options with
  | Some hs => bool_decide (is_Some (entitymergeStrategy hs))
  | None => false
  end.

(** One live transaction [tx] on the cache of [world]; [copies] are the
    objects that [beginTransaction] made for it. *)
Record Session := {
  tx : LiveCacheTransactionImpl.t;
  world : World;
  copies : gset loc;
}.

(** What happens while the transaction is live: its own calls, and what
    others do in between: they begin and commit transactions of their
    own, call [load], [save] and [clear], make objects and write to
    objects, and the collector reclaims objects. *)
Inductive event :=
  | TxGet (cacheKey : string) (now : Z)
  | TxSet (cacheKey : string) (value : jsval) (now : Z)
  | TxDelete (cacheKey : string)
  | TxMerge (cacheKey : string) (entityRevision : CachedEntityRevision) (now : Z)
  | TxEntries
  | OtherBegin
  | OtherCommit (T' : LiveCacheTransactionImpl.t)
  | OtherLoad (entries : list CacheEntry)
  | OtherSave
  | OtherClear
  | OtherAlloc (o : jsobj)
  | OtherWrite (l : loc) (name : string) (v : jsval)
  | Collect (D : gset loc).

(** What the caller of the transaction gets back: from [get] the value and
    what it contains at that time, from [entries()] the same for every
    entry, from [merge] the merged entity or the exception. *)
Inductive outcome :=
  | Read (value : jsval) (seen : observation)
  | Listed (entries : list (string * jsval * observation))
  | Merged (r : result jsval)
  | Done.

Definition with_world (s : Session) (w : World) : Session :=
  {| tx := tx s; world := w; copies := copies s |}.

Definition with_heap (s : Session) (h : heap) : Session :=
  with_world s {| w_heap := h; this := this (world s) |}.

Definition with_tx (s : Session) (T : LiveCacheTransactionImpl.t) : Session :=
  {| tx := T; world := world s; copies := copies s |}.

Definition run_event `{Engine} (ev : event) (s : Session) : outcome * Session :=
  let h := w_heap (world s) in
  match ev with
  | TxGet cacheKey now =>
      let '(v, T) := LiveCacheTransactionImpl.get cacheKey now (tx s) in
      (Read v (observe h v), with_tx s T)
  | TxSet cacheKey value now =>
      (Done, with_tx s (LiveCacheTransactionImpl.set cacheKey value now (tx s)))
  | TxDelete cacheKey =>
      (Done, with_tx s (LiveCacheTransactionImpl.delete cacheKey (tx s)))
  | TxMerge cacheKey entityRevision now =>
      match LiveCacheTransactionImpl.merge cacheKey entityRevision now (tx s) (world s) with
      | (Ok (mergedEntity, T), w) => (Merged (Ok mergedEntity), with_world (with_tx s T) w)
      | (Throw e, w) => (Merged (Throw e), with_world s w)
      end
  | TxEntries =>
      (Listed (map (λ e, (entry_key e, entry_value e, observe h (entry_value e)))
                   (LiveCacheTransactionImpl.entries (tx s))),
       s)
  | OtherBegin => (Done, with_world s (beginTransaction (world s)).2)
  | OtherCommit T' => (Done, with_world s (LiveCacheTransactionImpl.commit T' (world s)).2)
  | OtherLoad entries => (Done, with_world s (CacheImpl.load entries (world s)).2)
  | OtherSave => (Done, with_world s (CacheImpl.save (world s)).2)
  | OtherClear => (Done, with_world s (CacheImpl.clear (world s)).2)
  | OtherAlloc o => (Done, with_heap s (alloc o h).2)
  | OtherWrite l name v => (Done, with_heap s (assign l name v h))
  | Collect D => (Done, with_heap s (reclaim D h))
  end.

Fixpoint run `{Engine} (evs : list event) (s : Session) : list outcome * Session :=
  match evs with
  | [] => ([], s)
  | ev :: evs' =>
      let '(out, s') := run_event ev s in
      let '(outs, s'') := run evs' s' in
      (out :: outs, s'')
  end.

(** What an event may be given.  The copies are the transaction's alone:
    what the others hand to the cache, store into objects or write to is
    not a copy, and the collector does not take one.  The entity handed to
    [merge] exists; under a merge strategy of the cache's own, which is
    free to write to its arguments, neither it nor the value merged into
    is a copy. *)
Definition allowed (ev : event) (s : Session) : Prop :=
  let h := w_heap (world s) in
  let P := copies s in
  match ev with
  | TxMerge cacheKey entityRevision _ =>
      (∀ l, entity entityRevision = VRef l → l ∈ dom h) ∧
      (custom_merge (CacheImpl.cacheOptions (this (world s))) = true →
       outside P h (entity entityRevision) ∧
       outside P h (default VUndefined
                      (Map_get cacheKey (LiveCacheTransactionImpl.transactionalCache (tx s)))))
  | OtherCommit T' =>
      Forall (λ kv : string * jsval, outside P h kv.2)
             (LiveCacheTransactionImpl.localUpdatedEntries T')
  | OtherLoad entries => Forall (λ e, outside P h (entry_value e)) entries
  | OtherAlloc o => ∀ l, l ∈ children o → l ∈ dom h ∧ l ∉ P
  | OtherWrite l name v => (l ∉ P) ∧ outside P h v
  | Collect D => D ## P
  | _ => True
  end.

Fixpoint admissible `{Engine} (evs : list event) (s : Session) : Prop :=
  match evs with
  | [] => True
  | ev :: evs' => allowed ev s ∧ admissible evs' (run_event ev s).2
  end.

(** The transaction itself sets, merges or deletes [cacheKey]. *)
Definition writes (cacheKey : string) (ev : event) : bool :=
  match ev with
  | TxSet k _ _ => bool_decide (k = cacheKey)
  | TxDelete k => bool_decide (k = cacheKey)
  | TxMerge k _ _ => bool_decide (k = cacheKey)
  | _ => false
  end.

Definition unwritten (cacheKey : string) (evs : list event) : bool :=
  forallb (λ ev, negb (writes cacheKey ev)) evs.

(** The session that [beginTransaction()] opens in [w0]. *)
Definition begun (w0 : World) : option Session :=
  match beginTransaction w0 with
  | (Ok T, w1) => Some {| tx := T; world := w1;
                          copies := dom (w_heap w1) ∖ dom (w_heap w0) |}
  | (Throw _, _) => None
  end.

(** The session keeps the transaction isolated: the cache holds none of
    its copies, nothing refers to them, and they are as [beginTransaction]
    left them in the heap [h1]. *)
Definition isolated (P : gset loc) (options : option CacheOptions) (h1 : heap)
    (s : Session) : Prop :=
  copies s = P ∧
  good P options (world s) ∧
  ∀ l, l ∈ P → w_heap (world s) !! l = h1 !! l.

(** A cache in a heap without dangling references. *)
Definition well_formed (w : World) : Prop :=
  sealed ∅ (w_heap w) ∧ cache_outside ∅ (this w) (w_heap w).

(** What the primary store holds under [cacheKey]: the entity, seen through
    its contents, or [undefined]. *)
Definition primary_value (w : World) (cacheKey : string) : observation :=
  observe (w_heap w) (CacheImpl.weak_lookup (this w) (w_heap w) cacheKey).

(** The shallow copy [{ ...value }] of what the primary store holds under
    [cacheKey], seen through its contents; [undefined] for a key that is
    not there. *)
Definition shallow_copy (w : World) (cacheKey : string) : observation :=
  match CacheImpl.weak_lookup (this w) (w_heap w) cacheKey with
  | VRef l => ObsObject (Some (OObj (CopyDataProperties (w_heap w) (VRef l))))
  | _ => ObsValue VUndefined
  end.

(** "Every read inside the transaction yields the value present in the
    primary store at t0": after the schedule [evs] the transaction begun
    in [w0] reads under [cacheKey] what [w0] held there. *)
Definition reads_value_at_begin `{Engine} (w0 : World) (evs : list event)
    (cacheKey : string) (now : Z) : Prop :=
  ∀ s0, begun w0 = Some s0 → admissible evs s0 →
    ∃ v, (run_event (TxGet cacheKey now) (run evs s0).2).1
         = Read v (primary_value w0 cacheKey).

(** ** Sample engine, worlds and schedules *)

Fixpoint insert_sorted {A} (comparefn : A → A → Z) (x : A) (l : list A) : list A :=
  match l with
  | [] => [x]
  | y :: l' =>
      if (comparefn x y <=? 0)%Z then x :: y :: l'
      else y :: insert_sorted comparefn x l'
  end.

Definition insertion_sort {A} (comparefn : A → A → Z) (l : list A) : list A :=
  foldr (insert_sorted comparefn) [] l.

(** [==] where no conversion of an object is involved: the same value, or
    [null] against [undefined]. *)
Definition simple_equality (h : heap) (x y : jsval) : bool :=
  match x, y with
  | VNaN, _ | _, VNaN => false
  | (VUndefined | VNull), (VUndefined | VNull) => true
  | _, _ => bool_decide (x = y)
  end.

(** An engine that sorts by insertion. *)
Definition sample_engine : Engine.
Proof.
  refine {| IsLooselyEqual := simple_equality;
            Array_sort := @insertion_sort;
            Array_sort_permutation := _ |}.
  intros A comparefn l. unfold insertion_sort.
  induction l as [|x l IH]; simpl; [done|].
  rewrite <- IH at 2. generalize (foldr (insert_sorted comparefn) [] l).
  intros sorted. induction sorted as [|y sorted IHs]; simpl; [done|].
  destruct (comparefn x y <=? 0)%Z; [done|].
  rewrite IHs. apply Permutation_swap.
Defined.

Definition entry (key : string) (value : jsval) : CacheEntry :=
  {| entry_key := key; entry_value := value; entry_state := None |}.

(** A cache loaded with a plain object under ["u:1"] and an array under
    ["list"]; the heap holds the two values handed to [load], their
    clones, which the cache holds, and an object [{name: "b"}] that
    someone else has made. *)
Definition w_loaded : World :=
  (CacheImpl.load
     [entry "u:1" (VRef 1%positive); entry "list" (VRef 2%positive)]
     {| w_heap := {[ 1%positive := Live (OObj [("name", VStr "a")]);
                     2%positive := Live (OArr [VNum 1; VNum 2]);
                     3%positive := Live (OObj [("name", VStr "b")]) ]};
        this := buildCache None |}).2.

(** Another transaction, which has set ["u:1"] to the object [{name: "b"}]
    at [3]. *)
Definition other_tx : LiveCacheTransactionImpl.t :=
  LiveCacheTransactionImpl.set "u:1" (VRef 3%positive) 5
    (LiveCacheTransactionImpl.constructor None [] []).

(** Others commit [{name: "b"}] under ["u:1"], load it under ["u:2"], call
    [save], whose clones the collector takes, write to their object and
    begin a transaction; the transaction sets ["mine"] and lists its
    entries in between. *)
Definition busy_schedule : list event :=
  [ OtherCommit other_tx;
    TxSet "mine" (VRef 3%positive) 6;
    OtherLoad [entry "u:2" (VRef 3%positive)];
    OtherSave;
    TxEntries;
    OtherWrite 3%positive "name" (VStr "c");
    Collect {[12%positive; 13%positive; 14%positive]};
    OtherBegin ].

End Transactional.
(** * The settled-tracking middleware ([SettledTrackingMiddleware])

    The module keeps two [WeakMap]s keyed by the [fetch] a request was
    issued through: the array of the debug infos of its pending requests,
    and the deferred that [requestsCompleted] waits on.  Objects of this
    module (arrays, debug infos, promises) are identified by the number
    they got when they were created. *)

Definition Fetch := positive.

(** [FetchDebugInfo]; [info_id] stands for the identity of the object (the
    [stack] getter is left out). *)
Record FetchDebugInfo := {
  info_id : positive;
  startTime : Z;
  method : string;
  url : string;
}.

Record Request := {
  request_url : string;
  request_method : string;
}.

Record Tracking := {
  TrackingInfoPerFetch : gmap Fetch positive;           (* fetch -> its array *)
  arrays : gmap positive (list FetchDebugInfo);         (* the arrays' contents *)
  RequestsCompletedPromisesByToken : gmap Fetch positive; (* fetch -> promise of its deferred *)
  resolved : gset positive;                             (* the promises resolved so far *)
  next_object : positive;                               (* the next identity *)
}.

Definition no_tracking : Tracking :=
  {| TrackingInfoPerFetch := ∅; arrays := ∅;
     RequestsCompletedPromisesByToken := ∅; resolved := ∅;
     next_object := 1%positive |}.

(** [getPendingRequestState(originatingFetch)] *)
Definition getPendingRequestState (originatingFetch : Fetch) (t : Tracking)
  : list FetchDebugInfo :=
  match TrackingInfoPerFetch t !! originatingFetch with
  | None => []
  | Some a => default [] (arrays t !! a)
  end.

(** [hasPendingRequests(originatingFetch)] *)
Definition hasPendingRequests (originatingFetch : Fetch) (t : Tracking) : bool :=
  bool_decide (0 < List.length (getPendingRequestState originatingFetch t))%nat.

(** What one call of the middleware keeps in its local variables across
    [await next(request)]. *)
Record Call := {
  call_fetch : Fetch;                 (* [originatingFetch] *)
  call_infos : positive;              (* [fetchDebugInfos], the array *)
  call_debugInfo : FetchDebugInfo;    (* [debugInfo] *)
}.

(** [TrackingInfoPerFetch.get(originatingFetch)], or a new empty array
    registered for the fetch when there is none. *)
Definition find_or_create_array (originatingFetch : Fetch) (t : Tracking)
  : positive * Tracking :=
  match TrackingInfoPerFetch t !! originatingFetch with
  | Some a => (a, t)
  | None =>
      let a := next_object t in
      (a, {| TrackingInfoPerFetch := <[originatingFetch := a]> (TrackingInfoPerFetch t);
             arrays := <[a := []]> (arrays t);
             RequestsCompletedPromisesByToken := RequestsCompletedPromisesByToken t;
             resolved := resolved t;
             next_object := Pos.succ (next_object t) |})
  end.

(** [if (fetchDebugInfos.length === 0)]: a new deferred for the fetch. *)
Definition renew_deferred (originatingFetch : Fetch) (fetchDebugInfos : positive)
    (t : Tracking) : Tracking :=
  if decide (List.length (default [] (arrays t !! fetchDebugInfos)) = 0%nat) then
    {| TrackingInfoPerFetch := TrackingInfoPerFetch t;
       arrays := arrays t;
       RequestsCompletedPromisesByToken :=
         <[originatingFetch := next_object t]> (RequestsCompletedPromisesByToken t);
       resolved := resolved t;
       next_object := Pos.succ (next_object t) |}
  else t.

(** The new [debugInfo] object, pushed on the array. *)
Definition push_debugInfo (request : Request) (fetchDebugInfos : positive) (now : Z)
    (t : Tracking) : FetchDebugInfo * Tracking :=
  let debugInfo :=
    {| info_id := next_object t; startTime := now;
       method := request_method request; url := request_url request |} in
  (debugInfo,
   {| TrackingInfoPerFetch := TrackingInfoPerFetch t;
      arrays := <[fetchDebugInfos :=
                    default [] (arrays t !! fetchDebugInfos) ++ [debugInfo]]> (arrays t);
      RequestsCompletedPromisesByToken := RequestsCompletedPromisesByToken t;
      resolved := resolved t;
      next_object := Pos.succ (next_object t) |}).

(** The middleware up to [await next(request)]: find or create the array of
    the fetch, create a new deferred when the array is empty, then push the
    debug info of this request. *)
Definition middleware_enter (request : Request) (originatingFetch : Fetch) (now : Z)
    (t : Tracking) : Call * Tracking :=
  let '(fetchDebugInfos, t1) := find_or_create_array originatingFetch t in
  let t2 := renew_deferred originatingFetch fetchDebugInfos t1 in
  let '(debugInfo, t3) := push_debugInfo request fetchDebugInfos now t2 in
  ({| call_fetch := originatingFetch; call_infos := fetchDebugInfos;
      call_debugInfo := debugInfo |}, t3).

Definition missing_debug_info : exn :=
  Error "[INTERNAL ERROR @data-eden/network]: Could not find debug information for a previously started request".

Definition missing_promise : exn :=
  Error "[INTERNAL ERROR @data-eden/network]: Could not find requestsCompleted promise for a previously started request".

(** The [finally] block of the middleware: take this request's debug info
    out of the array (found by identity), and resolve the deferred of the
    fetch when the array became empty. *)
Definition middleware_exit (c : Call) (t : Tracking) : result unit * Tracking :=
  let infos := default [] (arrays t !! call_infos c) in
  match list_find (λ item, info_id item = info_id (call_debugInfo c)) infos with
  | None => (Throw missing_debug_info, t)
  | Some (index, _) =>
      let infos' := delete index infos in
      let t1 :=
        {| TrackingInfoPerFetch := TrackingInfoPerFetch t;
           arrays := <[call_infos c := infos']> (arrays t);
           RequestsCompletedPromisesByToken := RequestsCompletedPromisesByToken t;
           resolved := resolved t;
           next_object := next_object t |} in
      if decide (List.length infos' = 0%nat) then
        match RequestsCompletedPromisesByToken t1 !! call_fetch c with
        | None => (Throw missing_promise, t1)
        | Some p =>
            (Ok tt,
             {| TrackingInfoPerFetch := TrackingInfoPerFetch t1;
                arrays := arrays t1;
                RequestsCompletedPromisesByToken := RequestsCompletedPromisesByToken t1;
                resolved := {[p]} ∪ resolved t1;
                next_object := next_object t1 |})
        end
      else (Ok tt, t1)
  end.

(** The promise [requestsCompleted(originatingFetch)] races against its
    timer, if the fetch has a deferred; the race and the timer are not
    modelled. *)
Definition requestsCompleted_promise (originatingFetch : Fetch) (t : Tracking)
  : option positive :=
  RequestsCompletedPromisesByToken t !! originatingFetch.

(** The calls of the middleware that are waiting in [await next(request)],
    oldest first, together with the module state. *)
Record Run := {
  run_tracking : Tracking;
  in_flight : list Call;
}.

Definition calls_of (f : Fetch) (cs : list Call) : list Call :=
  filter (λ c, call_fetch c = f) cs.

Definition without (c : Call) (cs : list Call) : list Call :=
  filter (λ c', info_id (call_debugInfo c') ≠ info_id (call_debugInfo c)) cs.

(** A request enters the middleware, or the [next] of a waiting call
    settles and its [finally] block runs. *)
Inductive run_step : Run → Run → Prop :=
  | run_enter request f now r :
      run_step r
        {| run_tracking := (middleware_enter request f now (run_tracking r)).2;
           in_flight := in_flight r ++ [(middleware_enter request f now (run_tracking r)).1] |}
  | run_exit c r :
      c ∈ in_flight r →
      run_step r
        {| run_tracking := (middleware_exit c (run_tracking r)).2;
           in_flight := without c (in_flight r) |}.

Definition run_start : Run := {| run_tracking := no_tracking; in_flight := [] |}.

Definition reachable_run (r : Run) : Prop := rtc run_step run_start r.

Definition call_id (c : Call) : positive := info_id (call_debugInfo c).

(** What holds of the module state and the waiting calls in every run. *)
Record run_inv (r : Run) : Prop := {
  inv_arrays : ∀ f a,
    TrackingInfoPerFetch (run_tracking r) !! f = Some a →
    (a < next_object (run_tracking r))%positive ∧
    arrays (run_tracking r) !! a
      = Some (map call_debugInfo (calls_of f (in_flight r)));
  inv_arrays_inj : ∀ f g a,
    TrackingInfoPerFetch (run_tracking r) !! f = Some a →
    TrackingInfoPerFetch (run_tracking r) !! g = Some a → f = g;
  inv_calls : ∀ c, c ∈ in_flight r →
    TrackingInfoPerFetch (run_tracking r) !! call_fetch c = Some (call_infos c) ∧
    (call_id c < next_object (run_tracking r))%positive ∧
    is_Some (RequestsCompletedPromisesByToken (run_tracking r) !! call_fetch c);
  inv_ids : NoDup (map call_id (in_flight r));
  inv_deferred : ∀ f p,
    RequestsCompletedPromisesByToken (run_tracking r) !! f = Some p →
    (p < next_object (run_tracking r))%positive ∧
    (p ∈ resolved (run_tracking r) ↔ calls_of f (in_flight r) = []);
  inv_deferred_inj : ∀ f g p,
    RequestsCompletedPromisesByToken (run_tracking r) !! f = Some p →
    RequestsCompletedPromisesByToken (run_tracking r) !! g = Some p → f = g;
  inv_resolved : ∀ p,
    p ∈ resolved (run_tracking r) → (p < next_object (run_tracking r))%positive;
}.

(** A sample run: one request [GET /some-url] entered through the fetch
    [1] at time [1675198640993] and is waiting. *)
Definition sample_request : Request :=
  {| request_url := "/some-url"; request_method := "GET" |}.

Definition run_one : Run :=
  {| run_tracking :=
       (middleware_enter sample_request 1%positive 1675198640993 no_tracking).2;
     in_flight :=
       [(middleware_enter sample_request 1%positive 1675198640993 no_tracking).1] |}.

(** * Properties *)

(** ** The built-in [Map] *)

Section JsMap_facts.
Context {V : Type}.
Implicit Types (m : JsMap V) (k : string) (v : V).

Lemma Map_get_set_eq k v m : Map_get k (Map_set k v m) = Some v.
Proof.
  induction m as [|[k' v'] m IH]; simpl.
  - by rewrite decide_True.
  - destruct (decide (k' = k)) as [->|Hne]; simpl.
    + by rewrite decide_True.
    + by rewrite decide_False.
Qed.

Lemma Map_get_set_ne k k' v m :
  k ≠ k' → Map_get k' (Map_set k v m) = Map_get k' m.
Proof.
  intros Hne. induction m as [|[k0 v0] m IH]; simpl.
  - by rewrite decide_False.
  - destruct (decide (k0 = k)) as [->|Hk0]; simpl.
    + by rewrite !decide_False.
    + by rewrite IH.
Qed.

Lemma Map_get_None k m : Map_get k m = None ↔ k ∉ Map_keys m.
Proof.
  unfold Map_keys. induction m as [|[k0 v0] m IH]; simpl.
  - split; [intros _; apply not_elem_of_nil | done].
  - rewrite not_elem_of_cons. destruct (decide (k0 = k)) as [->|Hne].
    + split; [done | by intros [? _]].
    + rewrite IH. split; [by intros ?; split | by intros [_ ?]].
Qed.

Lemma Map_get_is_Some k m : is_Some (Map_get k m) ↔ k ∈ Map_keys m.
Proof.
  rewrite <- not_eq_None_Some, Map_get_None.
  destruct (decide (k ∈ Map_keys m)); tauto.
Qed.

(** [set] on a present key keeps the key where it is. *)
Lemma Map_keys_set_present k v m :
  k ∈ Map_keys m → Map_keys (Map_set k v m) = Map_keys m.
Proof.
  unfold Map_keys. induction m as [|[k0 v0] m IH]; simpl.
  - by intros ?%elem_of_nil.
  - intros Hin. destruct (decide (k0 = k)) as [->|Hne]; simpl; [done|].
    f_equal. apply IH. apply elem_of_cons in Hin as [?|?]; [congruence | done].
Qed.

(** [set] on a new key appends it. *)
Lemma Map_keys_set_absent k v m :
  k ∉ Map_keys m → Map_keys (Map_set k v m) = Map_keys m ++ [k].
Proof.
  unfold Map_keys. induction m as [|[k0 v0] m IH]; simpl; [done|].
  intros [Hne Hnin]%not_elem_of_cons.
  rewrite decide_False by done. simpl. f_equal. by apply IH.
Qed.

Lemma Map_keys_set_elem k k' v m :
  k' ∈ Map_keys (Map_set k v m) ↔ k' = k ∨ k' ∈ Map_keys m.
Proof.
  destruct (decide (k ∈ Map_keys m)) as [Hin|Hnin].
  - rewrite Map_keys_set_present by done.
    split; [by right | by intros [->|?]].
  - rewrite Map_keys_set_absent by done. rewrite elem_of_app, list_elem_of_singleton.
    tauto.
Qed.

Lemma Map_set_NoDup k v m :
  NoDup (Map_keys m) → NoDup (Map_keys (Map_set k v m)).
Proof.
  intros Hnd. destruct (decide (k ∈ Map_keys m)) as [Hin|Hnin].
  - by rewrite Map_keys_set_present.
  - rewrite Map_keys_set_absent by done.
    apply NoDup_app. split_and!; [done| |apply NoDup_singleton].
    intros x Hx ->%list_elem_of_singleton. done.
Qed.

Lemma Map_size_set_absent k v m :
  k ∉ Map_keys m → Map_size (Map_set k v m) = S (Map_size m).
Proof.
  intros Hnin. unfold Map_size.
  rewrite <- (length_fmap fst (Map_set k v m)), <- (length_fmap fst m).
  fold (Map_keys (Map_set k v m)). rewrite Map_keys_set_absent by done.
  fold (Map_keys m). rewrite length_app. simpl. lia.
Qed.

Lemma Map_get_delete_eq k m :
  NoDup (Map_keys m) → Map_get k (Map_delete k m) = None.
Proof.
  unfold Map_keys. induction m as [|[k0 v0] m IH]; simpl; [done|].
  intros [Hnin Hnd]%NoDup_cons.
  destruct (decide (k0 = k)) as [->|Hne]; simpl.
  - by apply Map_get_None.
  - rewrite decide_False by done. by apply IH.
Qed.

Lemma Map_get_delete_ne k k' m :
  k ≠ k' → Map_get k' (Map_delete k m) = Map_get k' m.
Proof.
  intros Hne. induction m as [|[k0 v0] m IH]; simpl; [done|].
  destruct (decide (k0 = k)) as [->|Hk0]; simpl.
  - by rewrite decide_False.
  - by rewrite IH.
Qed.
End JsMap_facts.

(** ** [load], one entry at a time *)

Lemma load_nil w : load [] w = (Ok tt, w).
Proof. done. Qed.

Lemma load_cons_object e es l w :
  entry_value e = VRef l →
  load (e :: es) w = load es (install (entry_key e) l w).
Proof. intros Hv. cbn. rewrite Hv. reflexivity. Qed.

Lemma load_cons_primitive e es w :
  (∀ l, entry_value e ≠ VRef l) →
  ∃ err, load (e :: es) w = (Throw err, w).
Proof.
  intros Hv. cbn. destruct (entry_value e); try (eexists; reflexivity).
  by destruct (Hv l).
Qed.

Lemma load_heap es w : w_heap (load es w).2 = w_heap w.
Proof.
  revert w. induction es as [|e es IH]; intros w; [done|].
  destruct (entry_value e) as [| | | | | |l] eqn:Hv;
    try (destruct (load_cons_primitive e es w) as [err ->];
         [intros l; rewrite Hv; discriminate | done]).
  rewrite (load_cons_object _ _ l) by done. by rewrite IH.
Qed.

Lemma install_prefix_weak key l w :
  Map_keys (weakCache (this w)) `prefix_of` Map_keys (weakCache (this (install key l w))).
Proof.
  simpl. destruct (decide (key ∈ Map_keys (weakCache (this w)))).
  - by rewrite Map_keys_set_present.
  - rewrite Map_keys_set_absent by done. by apply prefix_app_r.
Qed.

Lemma install_prefix_lru key l w :
  Map_keys (lru (this w)) `prefix_of` Map_keys (lru (this (install key l w))).
Proof.
  simpl. destruct (decide (key ∈ Map_keys (lru (this w)))).
  - by rewrite Map_keys_set_present.
  - rewrite Map_keys_set_absent by done. by apply prefix_app_r.
Qed.

(** Case analysis on the first entry of a [load]: either its value is an
    object and the entry is installed, or [new WeakRef] throws and nothing
    more happens. *)
Lemma load_cons_cases e es w :
  (∃ l, entry_value e = VRef l ∧
        load (e :: es) w = load es (install (entry_key e) l w)) ∨
  (∃ err, load (e :: es) w = (Throw err, w)).
Proof.
  destruct (entry_value e) as [| | | | | |l] eqn:Hv;
    try (right; apply load_cons_primitive; intros l; rewrite Hv; discriminate).
  left. exists l. split; [done|]. by apply load_cons_object.
Qed.

(** C9 -- [load] is a frame around the keys it is given: for a key [k]
    that does not occur in the entry list, the weak entry of [k], the LRU
    entry of [k] and the heap are what they were before the call, and the
    keys already present keep their places in both maps (nothing is
    cleared). *)
Theorem load_leaves_other_keys (es : list CacheEntry) (k : string) (w : World) :
  k ∉ map entry_key es →
  Map_get k (weakCache (this (load es w).2)) = Map_get k (weakCache (this w)) ∧
  Map_get k (lru (this (load es w).2)) = Map_get k (lru (this w)) ∧
  w_heap (load es w).2 = w_heap w ∧
  Map_keys (weakCache (this w)) `prefix_of` Map_keys (weakCache (this (load es w).2)) ∧
  Map_keys (lru (this w)) `prefix_of` Map_keys (lru (this (load es w).2)).
Proof.
  revert w. induction es as [|e es IH]; intros w Hk.
  - by rewrite load_nil.
  - simpl in Hk. apply not_elem_of_cons in Hk as [Hne Hk].
    destruct (load_cons_cases e es w) as [(l & Hv & ->)|[err ->]]; [|done].
    destruct (IH (install (entry_key e) l w) Hk) as (Hw & Hl & Hh & Hpw & Hpl).
    rewrite Hw, Hl, Hh. simpl.
    rewrite !Map_get_set_ne by done. split_and!; try done.
    + etrans; [apply (install_prefix_weak (entry_key e) l w)|done].
    + etrans; [apply (install_prefix_lru (entry_key e) l w)|done].
Qed.

Lemma load_leaves_other_keys_witness :
  ("u:1" ∉ map entry_key
    [ {| entry_key := "u:2"; entry_value := VRef 2%positive; entry_state := None |} ]) ∧
  Map_get "u:1" (weakCache (this (load
    [ {| entry_key := "u:2"; entry_value := VRef 2%positive; entry_state := None |} ]
    w_frame).2)) = Some {| target := 1%positive |}.
Proof.
  assert (Hk : "u:1" ∉ map entry_key
    [ {| entry_key := "u:2"; entry_value := VRef 2%positive; entry_state := None |} ]).
  { simpl. intros Hin. apply list_elem_of_singleton in Hin. discriminate. }
  split; [exact Hk|].
  destruct (load_leaves_other_keys _ _ w_frame Hk) as [-> _]. reflexivity.
Defined.

(** ** [get] *)

Lemma get_eq key w : get key w = (Ok (weak_lookup (this w) (w_heap w) key), w).
Proof. by destruct w. Qed.

(** C6 -- [get(key)] never throws and leaves the world as it is; it
    returns [undefined] when the key has no weak entry or when the referent
    of the weak entry was reclaimed, and the referent itself when the weak
    reference still resolves. *)
Theorem get_resolves_weak_reference (key : string) (w : World) :
  ∃ v, get key w = (Ok v, w) ∧
       (Map_get key (weakCache (this w)) = None → v = VUndefined) ∧
       (∀ r, Map_get key (weakCache (this w)) = Some r →
             live_obj (w_heap w) (target r) = None → v = VUndefined) ∧
       (∀ r o, Map_get key (weakCache (this w)) = Some r →
               w_heap w !! target r = Some (Live o) → v = VRef (target r)).
Proof.
  exists (weak_lookup (this w) (w_heap w) key). split; [apply get_eq|].
  unfold weak_lookup, deref, is_live, live_obj. split_and!.
  - by intros ->.
  - intros r -> Hdead. unfold live_obj in Hdead. by rewrite Hdead.
  - intros r o -> Hlive. by rewrite Hlive.
Qed.

Lemma get_resolves_weak_reference_witness :
  get "u:1" w_frame = (Ok (VRef 1%positive), w_frame).
Proof.
  destruct (get_resolves_weak_reference "u:1" w_frame) as (v & Hget & _ & _ & Hlive).
  rewrite Hget. f_equal. f_equal.
  exact (Hlive {| target := 1%positive |} (OObj [("name", VStr "a")])
           eq_refl eq_refl).
Defined.

(** ** No entry state *)

Lemma save_loop_cons t ts acc w :
  save_loop (t :: ts) acc w =
  match structuredClone (tuple_value t) w with
  | (Ok v, w') =>
      save_loop ts (acc ++ [{| tuple_key := tuple_key t; tuple_value := v;
                               tuple_state := tuple_state t |}]) w'
  | (Throw e, w') => (Throw e, w')
  end.
Proof. reflexivity. Qed.

Lemma entries_eq w :
  entries w =
  (Ok (map (λ kv : string * WeakRef,
              {| tuple_key := kv.1;
                 tuple_value := weak_lookup (this w) (w_heap w) kv.1;
                 tuple_state := None |}) (weakCache (this w))), w).
Proof. reflexivity. Qed.

Lemma save_eq w :
  save w = save_loop (tuples_of (this w) (w_heap w) (weakCache (this w))) [] w.
Proof. reflexivity. Qed.

Lemma save_loop_states ts acc w r w' :
  save_loop ts acc w = (Ok r, w') →
  Forall (λ t, tuple_state t = None) acc →
  Forall (λ t, tuple_state t = None) ts →
  Forall (λ t, tuple_state t = None) r.
Proof.
  revert acc w. induction ts as [|t ts IH]; intros acc w Hrun Hacc Hts.
  - cbn in Hrun. by inversion Hrun; subst.
  - rewrite save_loop_cons in Hrun.
    destruct (structuredClone (tuple_value t) w) as [[v|e] w1]; [|discriminate].
    apply Forall_cons in Hts as [Ht Hts].
    apply (IH _ _ Hrun); [|done].
    apply Forall_app. split; [done|]. by apply Forall_singleton.
Qed.

Lemma entries_states w ts w' :
  entries w = (Ok ts, w') → Forall (λ t, tuple_state t = None) ts.
Proof.
  rewrite entries_eq. intros [= <- _]. apply Forall_fmap. by apply Forall_true.
Qed.

Lemma load_ignores_state es w :
  load es w = load (map (λ e, entry (entry_key e) (entry_value e)) es) w.
Proof.
  revert w. induction es as [|e es IH]; intros w; [done|].
  cbn. destruct (entry_value e); try reflexivity. apply IH.
Qed.

(** C10 -- every tuple that iteration yields, and so every tuple [save]
    returns, has [state = undefined]; and [load] installs the same cache
    whatever state the entries carry: no [CacheEntryState] is recorded. *)
Theorem iteration_state_is_undefined (w : World) :
  (∃ ts, asyncIterator w = (Ok ts, w) ∧ entries w = (Ok ts, w) ∧
         Forall (λ t, tuple_state t = None) ts) ∧
  (∀ ts w', save w = (Ok ts, w') → Forall (λ t, tuple_state t = None) ts) ∧
  (∀ es, load es w = load (map (λ e, entry (entry_key e) (entry_value e)) es) w).
Proof.
  split_and!.
  - eexists. split_and!; [apply entries_eq | apply entries_eq |].
    apply Forall_fmap. by apply Forall_true.
  - intros ts w' Hsave. unfold save in Hsave.
    change (save_loop (map (λ kv : string * WeakRef,
              {| tuple_key := kv.1;
                 tuple_value := weak_lookup (this w) (w_heap w) kv.1;
                 tuple_state := None |}) (weakCache (this w))) [] w = (Ok ts, w'))
      in Hsave.
    apply (save_loop_states _ _ _ _ _ Hsave); [done|].
    apply Forall_fmap. by apply Forall_true.
  - intros es. apply load_ignores_state.
Qed.

Lemma iteration_state_is_undefined_witness :
  ∃ ts w', save w_frame = (Ok ts, w') ∧ Forall (λ t, tuple_state t = None) ts.
Proof.
  eexists _, _. split; [vm_compute; reflexivity|].
  destruct (iteration_state_is_undefined w_frame) as (_ & Hsave & _).
  eapply Hsave. vm_compute. reflexivity.
Defined.

(** ** The LRU tier is a plain [Map] *)

Lemma nth_key_length n : String.length (nth_key n) = S n.
Proof.
  induction n as [|n IH]; [done|].
  change (S (String.length (nth_key n)) = S (S n)). by rewrite IH.
Qed.

Lemma nth_key_inj i j : nth_key i = nth_key j → i = j.
Proof.
  intros Heq. apply (f_equal String.length) in Heq.
  rewrite !nth_key_length in Heq. lia.
Qed.

Lemma distinct_entries_keys v n :
  NoDup (map entry_key (distinct_entries v n)).
Proof.
  unfold distinct_entries. rewrite map_map. simpl.
  apply (NoDup_fmap_2 (A := nat)); [|apply NoDup_seq].
  intros i j. apply nth_key_inj.
Qed.

Lemma load_fresh_size es w :
  NoDup (map entry_key es) →
  (∀ k, k ∈ map entry_key es → k ∉ Map_keys (lru (this w))) →
  (∀ e, e ∈ es → ∃ l, entry_value e = VRef l) →
  (load es w).1 = Ok tt ∧
  Map_size (lru (this (load es w).2)) = Map_size (lru (this w)) + length es.
Proof.
  revert w. induction es as [|e es IH]; intros w Hnd Hfresh Hobj.
  - rewrite load_nil. simpl. split; [done|lia].
  - simpl in Hnd. apply NoDup_cons in Hnd as [Hnin Hnd].
    destruct (Hobj e) as [l Hv]; [by left|].
    rewrite (load_cons_object _ _ l) by done.
    destruct (IH (install (entry_key e) l w)) as [Hok Hsize]; [done| |by intros; apply Hobj; right|].
    + intros k Hk. simpl. rewrite Map_keys_set_elem.
      intros [->|Hin]; [done|]. apply (Hfresh k); [by right; exact Hk|done].
    + split; [done|]. rewrite Hsize. simpl.
      rewrite Map_size_set_absent; [lia|]. apply Hfresh. by left.
Qed.

(** C2 -- the LRU tier is not bounded.  Whatever the capacity [N] (the
    default 10000 included), loading [N + 1] entries with pairwise distinct
    keys into a fresh cache succeeds and leaves all [N + 1] of them in
    [#lru]: nothing is ever evicted. *)
Theorem lru_grows_past_any_capacity (N : nat) (h : heap) (l : loc) :
  (load (distinct_entries (VRef l) (S N)) (fresh_cache h)).1 = Ok tt ∧
  Map_size (lru (this (load (distinct_entries (VRef l) (S N)) (fresh_cache h)).2))
    = S N ∧
  (N < Map_size (lru (this (load (distinct_entries (VRef l) (S N)) (fresh_cache h)).2)))%nat.
Proof.
  destruct (load_fresh_size (distinct_entries (VRef l) (S N)) (fresh_cache h))
    as [Hok Hsize].
  - apply distinct_entries_keys.
  - intros k _. simpl. apply not_elem_of_nil.
  - intros e He. unfold distinct_entries in He.
    apply list_elem_of_fmap in He as (i & -> & _). by exists l.
  - assert (Hlen : length (distinct_entries (VRef l) (S N)) = S N).
    { unfold distinct_entries. by rewrite length_map, length_seq. }
    rewrite Hlen in Hsize.
    change (Map_size (lru (this (fresh_cache h)))) with 0 in Hsize.
    split_and!; [done | by rewrite Hsize | rewrite Hsize; lia].
Qed.

Lemma reload_keeps_key_order key l w :
  key ∈ Map_keys (lru (this w)) →
  Map_keys (lru (this (load [entry key (VRef l)] w).2)) = Map_keys (lru (this w)).
Proof.
  intros Hin. rewrite (load_cons_object _ _ l) by done.
  rewrite load_nil. simpl. by apply Map_keys_set_present.
Qed.

(** C8 -- re-inserting a present key does not move it.  After
    [load([["a", o1], ["b", o2]])] and then [load([["a", o3]])] the LRU tier
    holds the new value under ["a"], but iterates ["a"] first and ["b"]
    last, as before the re-insertion. *)
Theorem lru_reinsertion_keeps_position :
  let w1 := (load [entry "a" (VRef 1%positive); entry "b" (VRef 2%positive)] w_three).2 in
  let w2 := (load [entry "a" (VRef 3%positive)] w1).2 in
  Map_keys (lru (this w1)) = ["a"; "b"] ∧
  Map_keys (lru (this w2)) = ["a"; "b"] ∧
  last (Map_keys (lru (this w2))) = Some "b" ∧
  Map_get "a" (lru (this w2)) = Some (VRef 3%positive).
Proof. vm_compute. done. Qed.

(** ** [load] installs the caller's object *)

Lemma load_installs_reference key l w :
  is_live (w_heap w) l = true →
  (load [entry key (VRef l)];; get key) w = (Ok (VRef l), install key l w).
Proof.
  intros Hlive.
  change ((load [entry key (VRef l)];; get key) w)
    with (Ok (weak_lookup (this (install key l w)) (w_heap w) key), install key l w).
  unfold weak_lookup, install, deref. cbn [this weakCache].
  rewrite Map_get_set_eq. cbn [target]. by rewrite Hlive.
Qed.

(** C3 -- [load] does not copy.  The caller loads its object
    [{name: "a"}] under ["u:1"] and reads it back, then writes
    [name = "b"] to its own object and reads again: both reads return the
    caller's object itself, and the second read sees [{name: "b"}]. *)
Theorem load_shares_the_callers_object :
  (caller_mutates_after_load w_alias).1 =
  Ok (VRef 1%positive, ObsObject (Some (OObj [("name", VStr "a")])),
      VRef 1%positive, ObsObject (Some (OObj [("name", VStr "b")]))).
Proof. vm_compute. reflexivity. Qed.

(** ** [save] and the JSON round trip *)

(** The documented failure: a value that is a function makes [save] throw. *)
Lemma save_function_value_throws :
  (save w_function_value).1 = Throw not_clonable.
Proof. vm_compute. reflexivity. Qed.

(** A cyclic entity makes [save] throw as well. *)
Lemma save_cyclic_throws :
  (save w_cyclic).1 = Throw not_clonable.
Proof. vm_compute. reflexivity. Qed.

(** C4 -- [save] of a cache holding [{f: function(){}, n: 1}] under ["k"]
    does not throw: it returns the tuple [["k", clone, undefined]] where
    [clone] is a new object [{n: 1}], without the property [f] of the stored
    entity, which is still [{f: function(){}, n: 1}]. *)
Theorem save_drops_function_properties :
  get "k" w_function = (Ok (VRef 1%positive), w_function) ∧
  (save w_function).1 =
    Ok [{| tuple_key := "k"; tuple_value := VRef 3%positive; tuple_state := None |}] ∧
  live_obj (w_heap (save w_function).2) 3%positive = Some (OObj [("n", VNum 1)]) ∧
  live_obj (w_heap (save w_function).2) 1%positive
    = Some (OObj [("f", VRef 2%positive); ("n", VNum 1)]) ∧
  live_obj (w_heap (save w_function).2) 2%positive = Some OFun.
Proof. vm_compute. done. Qed.

(** [clear()] leaves the instance as [buildCache()] makes it. *)
Lemma clear_is_buildCache w : clear w = (Ok tt, fresh_cache (w_heap w)).
Proof. reflexivity. Qed.

(** C5 -- the round trip changes an entity that the JSON text cannot
    express.  With [{n: NaN}] stored under ["k"], [save] succeeds, and after
    [clear()] and [load] of the saved tuples the key ["k"] holds a
    different object, [{n: null}]; the same when the saved tuples are loaded
    into a newly built cache. *)
Theorem save_clear_load_changes_nan :
  (read "k" w_nan).1 = Ok (VRef 1%positive, ObsObject (Some (OObj [("n", VNaN)]))) ∧
  (save w_nan).1 =
    Ok [{| tuple_key := "k"; tuple_value := VRef 2%positive; tuple_state := None |}] ∧
  (save_clear_load_read "k" w_nan).1
    = Ok (VRef 2%positive, ObsObject (Some (OObj [("n", VNull)]))) ∧
  ((load (as_entries
            [{| tuple_key := "k"; tuple_value := VRef 2%positive; tuple_state := None |}]);;
    read "k") (fresh_cache (w_heap (save w_nan).2))).1
    = Ok (VRef 2%positive, ObsObject (Some (OObj [("n", VNull)]))).
Proof. vm_compute. done. Qed.

(** ** The heap under [JSON.stringify] and [JSON.parse] *)

Lemma alloc_extends o h : h ⊆ (alloc o h).2.
Proof.
  unfold alloc. simpl. apply insert_subseteq.
  apply not_elem_of_dom. apply is_fresh.
Qed.

Lemma json_nested_ind (P : json → Prop) :
  P JNull →
  (∀ b, P (JBool b)) →
  (∀ n, P (JNum n)) →
  (∀ s, P (JStr s)) →
  (∀ items, Forall P items → P (JArr items)) →
  (∀ members, Forall (λ m : string * json, P m.2) members → P (JObj members)) →
  ∀ j, P j.
Proof.
  intros HNull HBool HNum HStr HArr HObj.
  fix IH 1. intros [ |b|n|s|items|members].
  - exact HNull.
  - apply HBool.
  - apply HNum.
  - apply HStr.
  - apply HArr. induction items as [|j items IHitems]; constructor.
    + apply IH.
    + exact IHitems.
  - apply HObj. induction members as [|[k j] members IHmembers]; constructor.
    + apply IH.
    + exact IHmembers.
Qed.

Lemma InternalizeJSON_extends j : ∀ h, h ⊆ (InternalizeJSON j h).2.
Proof.
  induction j as [ |b|n|s|items IH|members IH] using json_nested_ind;
    intros h; try reflexivity.
  - simpl.
    assert (Hel : ∀ h0, h0 ⊆ (internalize_items InternalizeJSON items h0).2).
    { clear h. induction IH as [|j items Hj _ IHitems]; intros h0; [done|].
      simpl. specialize (Hj h0). destruct (InternalizeJSON j h0) as [v h1].
      specialize (IHitems h1).
      destruct (internalize_items InternalizeJSON items h1) as [vs h2].
      simpl in *. by etrans. }
    specialize (Hel h).
    destruct (internalize_items InternalizeJSON items h) as [vs h1]. simpl in *.
    etrans; [exact Hel|]. apply (alloc_extends (OArr vs) h1).
  - simpl.
    assert (Hel : ∀ h0, h0 ⊆ (internalize_members InternalizeJSON members h0).2).
    { clear h. induction IH as [|[k j] members Hj _ IHmembers]; intros h0; [done|].
      simpl. simpl in Hj. specialize (Hj h0).
      destruct (InternalizeJSON j h0) as [v h1].
      specialize (IHmembers h1).
      destruct (internalize_members InternalizeJSON members h1) as [ps h2].
      simpl in *. by etrans. }
    specialize (Hel h).
    destruct (internalize_members InternalizeJSON members h) as [ps h1]. simpl in *.
    etrans; [exact Hel|]. apply (alloc_extends (OObj ps) h1).
Qed.

Lemma extends_is_live (h h' : heap) l :
  h ⊆ h' → is_live h l = true → is_live h' l = true.
Proof.
  intros Hsub. unfold is_live, live_obj.
  destruct (h !! l) as [[o|]|] eqn:Hl; try discriminate.
  by rewrite (lookup_weaken _ _ _ _ Hl Hsub).
Qed.

Lemma extends_live_obj (h h' : heap) l o :
  h ⊆ h' → live_obj h l = Some o → live_obj h' l = Some o.
Proof.
  intros Hsub. unfold live_obj.
  destruct (h !! l) as [[o'|]|] eqn:Hl; try discriminate.
  by rewrite (lookup_weaken _ _ _ _ Hl Hsub).
Qed.

Lemma later_refl h : later h h.
Proof. by intros l. Qed.

Lemma later_trans h1 h2 h3 : later h1 h2 → later h2 h3 → later h1 h3.
Proof.
  intros H12 H23 l. destruct (H12 l) as [Ha Hb], (H23 l) as [Hc Hd]. split; auto.
Qed.

Lemma extends_later (h h' : heap) : h ⊆ h' → later h h'.
Proof.
  intros Hsub l. split; [by apply extends_is_live|].
  intros Hl. by apply (lookup_weaken _ _ _ _ Hl Hsub).
Qed.

Lemma later_dom (h h' : heap) l : later h h' → l ∈ dom h → l ∈ dom h'.
Proof.
  intros Hlater [c Hc]%elem_of_dom. destruct (Hlater l) as [Hlive Hdead].
  apply elem_of_dom. destruct c as [o|].
  - assert (is_live h l = true) as Hl by (unfold is_live, live_obj; by rewrite Hc).
    apply Hlive in Hl. unfold is_live, live_obj in Hl.
    destruct (h' !! l) as [c'|]; [by exists c'|done].
  - rewrite (Hdead Hc). by eexists.
Qed.

(** On an allocated address a later heap agrees on who is alive. *)
Lemma later_is_live (h h' : heap) l :
  later h h' → is_Some (h !! l) → is_live h' l = is_live h l.
Proof.
  intros Hlater [c Hc]. destruct (Hlater l) as [Hlive Hdead]. destruct c as [o|].
  - assert (is_live h l = true) as Hl by (unfold is_live, live_obj; by rewrite Hc).
    by rewrite Hl, (Hlive Hl).
  - unfold is_live, live_obj. by rewrite Hc, (Hdead Hc).
Qed.

(** *** Assignments *)

Lemma assign_lookup_ne l l' name v (h : heap) :
  l ≠ l' → assign l name v h !! l' = h !! l'.
Proof.
  intros Hne. unfold assign.
  destruct (live_obj h l) as [[props|elems|props body]|]; try done;
    by rewrite lookup_insert_ne.
Qed.

Lemma assign_live_obj l name v (h : heap) :
  live_obj (assign l name v h) l =
  match live_obj h l with
  | Some (OObj props) => Some (OObj (props_set name v props))
  | Some (OFunction props body) => Some (OFunction (props_set name v props) body)
  | other => other
  end.
Proof.
  unfold assign.
  destruct (live_obj h l) as [[props|elems|props body]|] eqn:Hl;
    try done; unfold live_obj; by rewrite lookup_insert_eq.
Qed.

Lemma assign_live_obj_ne l l' name v (h : heap) :
  l ≠ l' → live_obj (assign l name v h) l' = live_obj h l'.
Proof. intros Hne. unfold live_obj. by rewrite assign_lookup_ne. Qed.

Lemma assign_dom l name v (h : heap) : dom (assign l name v h) = dom h.
Proof.
  unfold assign.
  destruct (live_obj h l) as [[props|elems|props body]|] eqn:Hl; try done;
    rewrite dom_insert_L;
    assert (l ∈ dom h) as Hdom by (unfold live_obj in Hl; apply elem_of_dom;
                                   destruct (h !! l); [by eexists|done]);
    set_solver.
Qed.

Lemma assign_later l name v (h : heap) : later h (assign l name v h).
Proof.
  intros l'. destruct (decide (l = l')) as [<-|Hne].
  - split.
    + unfold is_live. rewrite assign_live_obj.
      by destruct (live_obj h l) as [[props|elems|props body]|].
    + intros Hl. unfold assign, live_obj. by rewrite Hl.
  - unfold is_live. by rewrite assign_live_obj_ne, assign_lookup_ne.
Qed.

(** An assignment keeps what kind of object sits at an address, and the
    body of a function. *)
Lemma assign_function l name v (h : heap) f ps body :
  live_obj (assign l name v h) f = Some (OFunction ps body) →
  ∃ ps0, live_obj h f = Some (OFunction ps0 body).
Proof.
  destruct (decide (l = f)) as [<-|Hne].
  - rewrite assign_live_obj.
    destruct (live_obj h l) as [[props|elems|props body0]|]; try done.
    intros [= _ <-]. by eexists.
  - rewrite assign_live_obj_ne by done. by eexists.
Qed.

Lemma Invoke_heap_ind (P : heap → Prop) body l (h : heap) :
  (∀ h' name v, P h' → P (assign l name v h')) →
  P h → P (Invoke body l h).2.
Proof.
  intros Hstep. unfold Invoke. simpl. generalize (assigns body) as asg.
  intros asg. revert h. induction asg as [|[name v] asg IH]; intros h Hh; [done|].
  simpl. apply IH. by apply Hstep.
Qed.

Lemma Invoke_lookup_ne body l l' (h : heap) :
  l ≠ l' → (Invoke body l h).2 !! l' = h !! l'.
Proof.
  intros Hne.
  apply (Invoke_heap_ind (λ h', h' !! l' = h !! l')); [|done].
  intros h' name v <-. by apply assign_lookup_ne.
Qed.

Lemma Invoke_dom body l (h : heap) : dom (Invoke body l h).2 = dom h.
Proof.
  apply (Invoke_heap_ind (λ h', dom h' = dom h)); [|done].
  intros h' name v <-. apply assign_dom.
Qed.

Lemma Invoke_later body l (h : heap) : later h (Invoke body l h).2.
Proof.
  apply (Invoke_heap_ind (later h)); [|apply later_refl].
  intros h' name v Hh. eapply later_trans; [exact Hh|apply assign_later].
Qed.

Lemma Invoke_function body l (h : heap) f ps b :
  live_obj (Invoke body l h).2 f = Some (OFunction ps b) →
  ∃ ps0, live_obj h f = Some (OFunction ps0 b).
Proof.
  revert ps.
  apply (Invoke_heap_ind
           (λ h', ∀ ps, live_obj h' f = Some (OFunction ps b) →
                        ∃ ps0, live_obj h f = Some (OFunction ps0 b))).
  - intros h' name v IH ps Hf.
    destruct (assign_function _ _ _ _ _ _ _ Hf) as [ps1 Hps1]. by apply (IH ps1).
  - intros ps Hf. by exists ps.
Qed.

(** The result of a call is a value the body mentions, or [this]. *)
Lemma Invoke_result body l (h : heap) v :
  (Invoke body l h).1 = Ok v → v = VRef l ∨ v ∈ code_values body.
Proof.
  unfold Invoke, code_values. simpl.
  destruct (completes body) as [v0| |e]; intros [= <-]; [right|by left].
  apply elem_of_app. right. by left.
Qed.

Lemma toJSON_Some h value l body :
  toJSON h value = Some (l, body) →
  value = VRef l ∧
  ∃ o f ps, live_obj h l = Some o ∧
            props_get "toJSON" (own_props o) = Some (VRef f) ∧
            live_obj h f = Some (OFunction ps body).
Proof.
  unfold toJSON. destruct value as [| | | | | |l0]; try done.
  destruct (live_obj h l0) as [o|] eqn:Hl; [|done].
  destruct (props_get "toJSON" (own_props o)) as [[| | | | | |f]|] eqn:Hp; try done.
  destruct (live_obj h f) as [[ps|es|ps b]|] eqn:Hf; try done.
  intros [= <- <-]. split; [done|]. by exists o, f, ps.
Qed.

(** *** What every run of the serializer preserves

    An invariant of the heap that every call of a [toJSON] method the
    serializer can reach preserves is preserved by the serializer.  [V]
    says which objects it can reach. *)

Section serializer.
Variable V : loc → Prop.
Variable Inv : heap → Prop.

Hypothesis visit_values : ∀ h l o v l',
  Inv h → V l → live_obj h l = Some o → v ∈ obj_values o → v = VRef l' → V l'.

Hypothesis invoke_ok : ∀ h l body,
  Inv h → V l → toJSON h (VRef l) = Some (l, body) →
  Inv (Invoke body l h).2 ∧
  ∀ l', (Invoke body l h).1 = Ok (VRef l') → V l'.

Lemma prop_at_visitable h l i l' :
  Inv h → V l → prop_at h l i = VRef l' → V l'.
Proof.
  intros Hinv Hl. unfold prop_at.
  destruct (live_obj h l) as [o|] eqn:Ho; [|done].
  destruct (own_props o !! i) as [p|] eqn:Hp; [|done].
  intros Hv. apply (visit_values h l o p.2 l'); try done.
  apply list_elem_of_lookup_2 in Hp.
  destruct o as [props|elems|props body]; simpl in *.
  - apply list_elem_of_fmap. by exists p.
  - by apply elem_of_nil in Hp.
  - apply elem_of_app. left. apply list_elem_of_fmap. by exists p.
Qed.

Lemma elem_at_visitable h l i l' :
  Inv h → V l → elem_at h l i = VRef l' → V l'.
Proof.
  intros Hinv Hl. unfold elem_at.
  destruct (live_obj h l) as [[props|elems|props body]|] eqn:Ho; try done.
  destruct (elems !! i) as [v|] eqn:Hv; [|done]. simpl. intros ->.
  apply (visit_values h l (OArr elems) (VRef l') l'); try done.
  simpl. by apply list_elem_of_lookup_2 in Hv.
Qed.

Lemma serialize_members_inv ser l :
  (∀ v h r h', Inv h → (∀ l', v = VRef l' → V l') →
               ser v h = Some (r, h') → Inv h') →
  V l →
  ∀ K h r h', Inv h → serialize_members ser l K h = Some (r, h') → Inv h'.
Proof.
  intros Hser Hl. induction K as [|[i P] K IH]; intros h r h' Hinv; simpl.
  - by intros [= _ <-].
  - destruct (ser (prop_at h l i) h) as [[[strP|e] h1]|] eqn:Hone; simpl; try done.
    + assert (Inv h1) as Hinv1.
      { apply (Hser _ _ _ _ Hinv) in Hone; [done|].
        intros l'. by apply prop_at_visitable. }
      destruct (serialize_members ser l K h1) as [[[ms|e] h2]|] eqn:Hrest;
        simpl; try done; intros [= _ <-]; by apply (IH _ _ _ Hinv1 Hrest).
    + intros [= _ <-]. apply (Hser _ _ _ _ Hinv) in Hone; [done|].
      intros l'. by apply prop_at_visitable.
Qed.

Lemma serialize_items_inv ser l :
  (∀ v h r h', Inv h → (∀ l', v = VRef l' → V l') →
               ser v h = Some (r, h') → Inv h') →
  V l →
  ∀ indices h r h', Inv h → serialize_items ser l indices h = Some (r, h') → Inv h'.
Proof.
  intros Hser Hl. induction indices as [|i indices IH]; intros h r h' Hinv; simpl.
  - by intros [= _ <-].
  - destruct (ser (elem_at h l i) h) as [[[strP|e] h1]|] eqn:Hone; simpl; try done.
    + assert (Inv h1) as Hinv1.
      { apply (Hser _ _ _ _ Hinv) in Hone; [done|].
        intros l'. by apply elem_at_visitable. }
      destruct (serialize_items ser l indices h1) as [[[js|e] h2]|] eqn:Hrest;
        simpl; try done; intros [= _ <-]; by apply (IH _ _ _ Hinv1 Hrest).
    + intros [= _ <-]. apply (Hser _ _ _ _ Hinv) in Hone; [done|].
      intros l'. by apply elem_at_visitable.
Qed.

Lemma serialize_value_inv nested :
  (∀ stack v h r h', Inv h → (∀ l', v = VRef l' → V l') →
                     nested stack v h = Some (r, h') → Inv h') →
  ∀ stack value h r h',
    Inv h → (∀ l', value = VRef l' → V l') →
    serialize_value nested stack value h = Some (r, h') → Inv h'.
Proof.
  intros Hnested stack value h r h' Hinv Hvis. unfold serialize_value.
  assert (Hcalled : ∀ res h1,
    match toJSON h value with
    | Some (l, body) => Invoke body l h
    | None => (Ok value, h)
    end = (res, h1) →
    Inv h1 ∧ ∀ l', res = Ok (VRef l') → V l').
  { intros res h1. destruct (toJSON h value) as [[l body]|] eqn:Hto.
    - destruct (toJSON_Some _ _ _ _ Hto) as [-> _].
      destruct (invoke_ok h l body Hinv (Hvis l eq_refl) Hto) as [Hi Hr].
      destruct (Invoke body l h) as [res' h1']. intros [= <- <-]. by split.
    - intros [= <- <-]. split; [done|]. intros l' [= ->]. by apply Hvis. }
  destruct (match toJSON h value with
            | Some (l, body) => Invoke body l h
            | None => (Ok value, h)
            end) as [res h1].
  destruct (Hcalled res h1 eq_refl) as [Hinv1 Hres]. clear Hcalled.
  destruct res as [[| |b|n| |s|l]|e]; try (by intros [= _ <-]).
  assert (Hl : V l) by by apply Hres.
  destruct (live_obj h1 l) as [[props|elems|props body]|] eqn:Ho;
    try (by intros [= _ <-]).
  - destruct (decide (l ∈ stack)); [by intros [= _ <-]|].
    destruct (serialize_members (nested (l :: stack)) l (keys_of props) h1)
      as [[[ms|e] h2]|] eqn:Hms; simpl; try done; intros [= _ <-];
      apply (serialize_members_inv _ l (Hnested (l :: stack)) Hl _ _ _ _ Hinv1 Hms).
  - destruct (decide (l ∈ stack)); [by intros [= _ <-]|].
    destruct (serialize_items (nested (l :: stack)) l (seq 0 (length elems)) h1)
      as [[[js|e] h2]|] eqn:Hjs; simpl; try done; intros [= _ <-];
      apply (serialize_items_inv _ l (Hnested (l :: stack)) Hl _ _ _ _ Hinv1 Hjs).
Qed.

Lemma SerializeJSONProperty_inv fuel : ∀ stack value h r h',
  Inv h → (∀ l', value = VRef l' → V l') →
  SerializeJSONProperty fuel stack value h = Some (r, h') → Inv h'.
Proof.
  induction fuel as [|fuel IH]; simpl.
  - apply serialize_value_inv. intros; discriminate.
  - apply serialize_value_inv. exact IH.
Qed.
End serializer.

Lemma SerializeJSONProperty_dom fuel stack value (h : heap) r h' :
  SerializeJSONProperty fuel stack value h = Some (r, h') → dom h' = dom h.
Proof.
  apply (SerializeJSONProperty_inv (λ _, True) (λ hx, dom hx = dom h)); try done.
  intros hx l body Hx _ _. split; [|done]. by rewrite Invoke_dom.
Qed.

Lemma SerializeJSONProperty_later fuel stack value (h : heap) r h' :
  SerializeJSONProperty fuel stack value h = Some (r, h') → later h h'.
Proof.
  apply (SerializeJSONProperty_inv (λ _, True) (later h)); try done.
  intros hx l body Hx _ _. split; [|done].
  eapply later_trans; [exact Hx|apply Invoke_later].
Qed.

Lemma toJSON_intro (h : heap) l o f ps body :
  live_obj h l = Some o →
  props_get "toJSON" (own_props o) = Some (VRef f) →
  live_obj h f = Some (OFunction ps body) →
  toJSON h (VRef l) = Some (l, body).
Proof. intros Hl Hp Hf. unfold toJSON. by rewrite Hl, Hp, Hf. Qed.

(** The serializer writes only to objects that had a callable [toJSON]
    when it started. *)
Lemma SerializeJSONProperty_touches fuel stack value (h : heap) r h' :
  SerializeJSONProperty fuel stack value h = Some (r, h') →
  ∀ l, toJSON h (VRef l) = None → h' !! l = h !! l.
Proof.
  intros Hser.
  apply (SerializeJSONProperty_inv (λ _, True)
           (λ hx, (∀ l, toJSON h (VRef l) = None → hx !! l = h !! l) ∧
                  (∀ f ps b, live_obj hx f = Some (OFunction ps b) →
                             ∃ ps0, live_obj h f = Some (OFunction ps0 b)))
           ltac:(done)) in Hser; try done.
  - by destruct Hser.
  - intros hx l body [Hsame Hfun] _ Hto. split; [|done]. split.
    + intros l0 Hnone. destruct (decide (l = l0)) as [<-|Hne].
      * exfalso. destruct (toJSON_Some _ _ _ _ Hto) as (_ & o & f & ps & Hl & Hp & Hf).
        destruct (Hfun f ps body Hf) as [ps0 Hf0].
        assert (live_obj h l = Some o) as Hl0.
        { unfold live_obj in *. by rewrite <- (Hsame l Hnone). }
        rewrite (toJSON_intro h l o f ps0 body Hl0 Hp Hf0) in Hnone. done.
      * rewrite Invoke_lookup_ne by done. by apply Hsame.
    + intros f ps b Hf. destruct (Invoke_function _ _ _ _ _ _ Hf) as [ps1 Hf1].
      by apply (Hfun f ps1 b).
  - split; [done|]. intros f ps b Hf. by exists ps.
Qed.

(** Without a callable [toJSON] anywhere, the serializer only reads. *)
Lemma SerializeJSONProperty_quiet fuel stack value (h : heap) r h' :
  no_toJSON h →
  SerializeJSONProperty fuel stack value h = Some (r, h') → h' = h.
Proof.
  intros Hquiet Hser. apply map_eq. intros l.
  apply (SerializeJSONProperty_touches _ _ _ _ _ _ Hser). apply Hquiet.
Qed.

(** *** [JSON.stringify], [JSON.parse] and [structuredClone] as steps *)

Lemma JSON_stringify_eq {I} x (w : WorldOf I) :
  JSON_stringify x w =
  match SerializeJSONProperty (S (size (w_heap w))) [] x (w_heap w) with
  | Some (Ok text, h') => (Ok text, {| w_heap := h'; this := this w |})
  | Some (Throw e, h') => (Throw e, {| w_heap := h'; this := this w |})
  | None => (Throw (Error "JSON.stringify: out of fuel"), w)
  end.
Proof.
  unfold JSON_stringify, mbind, M_bind, bind, get_heap.
  by destruct (SerializeJSONProperty (S (size (w_heap w))) [] x (w_heap w))
    as [[[text|e] h']|].
Qed.

Lemma JSON_stringify_world {I} x (w : WorldOf I) :
  this (JSON_stringify x w).2 = this w ∧
  later (w_heap w) (w_heap (JSON_stringify x w).2) ∧
  dom (w_heap (JSON_stringify x w).2) = dom (w_heap w) ∧
  (∀ l, toJSON (w_heap w) (VRef l) = None →
        w_heap (JSON_stringify x w).2 !! l = w_heap w !! l).
Proof.
  rewrite JSON_stringify_eq.
  destruct (SerializeJSONProperty (S (size (w_heap w))) [] x (w_heap w))
    as [[[text|e] h']|] eqn:Hser; simpl;
    try (split_and!; [done|by apply (SerializeJSONProperty_later _ _ _ _ _ _ Hser)
                     |by apply (SerializeJSONProperty_dom _ _ _ _ _ _ Hser)
                     |by apply (SerializeJSONProperty_touches _ _ _ _ _ _ Hser)]).
  split_and!; [done|apply later_refl|done|done].
Qed.

Lemma JSON_parse_text {I} j (w : WorldOf I) :
  JSON_parse (Some j) w =
  (Ok (InternalizeJSON j (w_heap w)).1,
   {| w_heap := (InternalizeJSON j (w_heap w)).2; this := this w |}).
Proof.
  unfold JSON_parse, mbind, M_bind, bind, get_heap.
  by destruct (InternalizeJSON j (w_heap w)) as [v h'].
Qed.

Lemma JSON_parse_world {I} text (w : WorldOf I) :
  this (JSON_parse text w).2 = this w ∧ w_heap w ⊆ w_heap (JSON_parse text w).2.
Proof.
  destruct text as [j|]; [|done]. rewrite JSON_parse_text. simpl.
  split; [done|]. apply InternalizeJSON_extends.
Qed.

Lemma structuredClone_eq {I} x (w : WorldOf I) :
  structuredClone x w =
  match JSON_stringify x w with
  | (Ok text, w1) =>
      match JSON_parse text w1 with
      | (Ok v, w2) => (Ok v, w2)
      | (Throw e, w2) => (Throw not_clonable, w2)
      end
  | (Throw e, w1) => (Throw not_clonable, w1)
  end.
Proof.
  unfold structuredClone, try_catch, mbind, M_bind, bind.
  destruct (JSON_stringify x w) as [[text|e] w1]; [|done].
  by destruct (JSON_parse text w1) as [[v|e] w2].
Qed.

Lemma structuredClone_world {I} x (w : WorldOf I) :
  this (structuredClone x w).2 = this w ∧
  later (w_heap w) (w_heap (structuredClone x w).2).
Proof.
  rewrite structuredClone_eq.
  pose proof (JSON_stringify_world x w) as (Hthis & Hlater & _).
  destruct (JSON_stringify x w) as [[text|e] w1]; simpl in *; [|done].
  pose proof (JSON_parse_world text w1) as [Hthis' Hext].
  destruct (JSON_parse text w1) as [[v|e] w2]; simpl in *;
    (split; [congruence|]);
    (eapply later_trans; [exact Hlater|by apply extends_later]).
Qed.

Lemma save_loop_world ts acc w :
  this (save_loop ts acc w).2 = this w ∧
  later (w_heap w) (w_heap (save_loop ts acc w).2).
Proof.
  revert acc w. induction ts as [|t ts IH]; intros acc w.
  { split; [done|apply later_refl]. }
  rewrite save_loop_cons.
  pose proof (structuredClone_world (tuple_value t) w) as [Hthis Hheap].
  destruct (structuredClone (tuple_value t) w) as [[v|e] w1]; [|done].
  destruct (IH (acc ++ [{| tuple_key := tuple_key t; tuple_value := v;
                           tuple_state := tuple_state t |}]) w1) as [Hthis' Hheap'].
  simpl in Hthis, Hheap. split; [congruence | by eapply later_trans].
Qed.

Lemma save_world w :
  this (save w).2 = this w ∧ later (w_heap w) (w_heap (save w).2).
Proof. apply save_loop_world. Qed.

(** *** What [JSON.parse] allocates *)

Lemma alloc_fresh o (h : heap) : h !! (alloc o h).1 = None.
Proof. unfold alloc. simpl. apply not_elem_of_dom. apply is_fresh. Qed.

Lemma alloc_live o (h : heap) : live_obj (alloc o h).2 (alloc o h).1 = Some o.
Proof. unfold alloc. simpl. unfold live_obj. by rewrite lookup_insert_eq. Qed.

Lemma alloc_lookup o (h : heap) l :
  (alloc o h).2 !! l = if decide (l = (alloc o h).1) then Some (Live o) else h !! l.
Proof.
  unfold alloc. simpl. destruct (decide (l = fresh (dom h))) as [->|Hne].
  - by rewrite lookup_insert_eq.
  - by rewrite lookup_insert_ne.
Qed.

Lemma InternalizeJSON_arr items h :
  InternalizeJSON (JArr items) h =
  let '(vs, h1) := internalize_items InternalizeJSON items h in
  let '(l, h2) := alloc (OArr vs) h1 in
  (VRef l, h2).
Proof. reflexivity. Qed.

Lemma InternalizeJSON_obj members h :
  InternalizeJSON (JObj members) h =
  let '(ps, h1) := internalize_members InternalizeJSON members h in
  let '(l, h2) := alloc (OObj ps) h1 in
  (VRef l, h2).
Proof. reflexivity. Qed.

Lemma internalize_items_extends items : ∀ h : heap,
  h ⊆ (internalize_items InternalizeJSON items h).2.
Proof.
  induction items as [|j items IH]; intros h; [done|]. simpl.
  pose proof (InternalizeJSON_extends j h) as Hj.
  destruct (InternalizeJSON j h) as [v h1]. specialize (IH h1).
  destruct (internalize_items InternalizeJSON items h1) as [vs h2].
  simpl in *. by etrans.
Qed.

Lemma internalize_members_extends members : ∀ h : heap,
  h ⊆ (internalize_members InternalizeJSON members h).2.
Proof.
  induction members as [|[k j] members IH]; intros h; [done|]. simpl.
  pose proof (InternalizeJSON_extends j h) as Hj.
  destruct (InternalizeJSON j h) as [v h1]. specialize (IH h1).
  destruct (internalize_members InternalizeJSON members h1) as [ps h2].
  simpl in *. by etrans.
Qed.

(** The value [JSON.parse] returns is a primitive or a new object, and the
    objects it allocates hold primitives and objects it allocated. *)
Lemma InternalizeJSON_new_cells : ∀ j (h : heap),
  (∀ l, (InternalizeJSON j h).1 = VRef l → h !! l = None) ∧
  only_parsed h (InternalizeJSON j h).2.
Proof.
  assert (Hbase : ∀ h : heap, only_parsed h h).
  { intros h l o Hl Ho. unfold live_obj in Ho. by rewrite Hl in Ho. }
  induction j as [ |b|n|s|items IH|members IH] using json_nested_ind; intros h;
    try (split; [done|apply Hbase]).
  - rewrite InternalizeJSON_arr.
    assert (Haux : ∀ h0,
      (∀ l, VRef l ∈ (internalize_items InternalizeJSON items h0).1 → h0 !! l = None) ∧
      only_parsed h0 (internalize_items InternalizeJSON items h0).2).
    { clear h. induction IH as [|j items Hj _ IHitems]; intros h0.
      { split; [by intros l ?%elem_of_nil|apply Hbase]. }
      simpl. destruct (Hj h0) as [Hv Hcells].
      pose proof (InternalizeJSON_extends j h0) as Hext.
      destruct (InternalizeJSON j h0) as [v ha]. cbn [fst snd] in *.
      destruct (IHitems ha) as [Hvs Hcells'].
      pose proof (internalize_items_extends items ha) as Hext'.
      destruct (internalize_items InternalizeJSON items ha) as [vs hb].
      cbn [fst snd] in *. split.
      - intros l [Hl|Hl]%elem_of_cons; [by apply Hv|].
        apply (lookup_weaken_None h0 ha); [by apply Hvs|done].
      - intros l o Hl Ho. destruct (ha !! l) as [c|] eqn:Hla.
        + pose proof (lookup_weaken _ _ _ _ Hla Hext') as Hlb.
          assert (live_obj ha l = Some o) as Ho'.
          { unfold live_obj in *. rewrite Hlb in Ho. by rewrite Hla. }
          by apply (Hcells l o).
        + destruct (Hcells' l o Hla Ho) as [Hkind Hch]. split; [done|].
          intros f Hf. apply (lookup_weaken_None h0 ha); [by apply Hch|done]. }
    destruct (Haux h) as [Hvs Hcells].
    pose proof (internalize_items_extends items h) as Hext.
    destruct (internalize_items InternalizeJSON items h) as [vs h1].
    cbn [fst snd] in *.
    pose proof (alloc_fresh (OArr vs) h1) as Hfresh.
    pose proof (alloc_lookup (OArr vs) h1) as Hlook.
    destruct (alloc (OArr vs) h1) as [l h2]. cbn [fst snd] in *. split.
    + intros l' [= <-]. by apply (lookup_weaken_None h h1).
    + intros l' o Hl' Ho. unfold live_obj in Ho. rewrite Hlook in Ho.
      destruct (decide (l' = l)) as [->|Hne].
      * injection Ho as <-. split; [done|]. simpl. apply Hvs.
      * apply (Hcells l' o Hl'). by unfold live_obj.
  - rewrite InternalizeJSON_obj.
    assert (Haux : ∀ h0,
      (∀ l, VRef l ∈ (internalize_members InternalizeJSON members h0).1.*2 →
            h0 !! l = None) ∧
      only_parsed h0 (internalize_members InternalizeJSON members h0).2).
    { clear h. induction IH as [|[k j] members Hj _ IHmembers]; intros h0.
      { split; [by intros l ?%elem_of_nil|apply Hbase]. }
      simpl. simpl in Hj. destruct (Hj h0) as [Hv Hcells].
      pose proof (InternalizeJSON_extends j h0) as Hext.
      destruct (InternalizeJSON j h0) as [v ha]. cbn [fst snd] in *.
      destruct (IHmembers ha) as [Hvs Hcells'].
      pose proof (internalize_members_extends members ha) as Hext'.
      destruct (internalize_members InternalizeJSON members ha) as [ps hb].
      cbn [fst snd] in *. split.
      - intros l [Hl|Hl]%elem_of_cons; [by apply Hv|].
        apply (lookup_weaken_None h0 ha); [by apply Hvs|done].
      - intros l o Hl Ho. destruct (ha !! l) as [c|] eqn:Hla.
        + pose proof (lookup_weaken _ _ _ _ Hla Hext') as Hlb.
          assert (live_obj ha l = Some o) as Ho'.
          { unfold live_obj in *. rewrite Hlb in Ho. by rewrite Hla. }
          by apply (Hcells l o).
        + destruct (Hcells' l o Hla Ho) as [Hkind Hch]. split; [done|].
          intros f Hf. apply (lookup_weaken_None h0 ha); [by apply Hch|done]. }
    destruct (Haux h) as [Hvs Hcells].
    pose proof (internalize_members_extends members h) as Hext.
    destruct (internalize_members InternalizeJSON members h) as [ps h1].
    cbn [fst snd] in *.
    pose proof (alloc_fresh (OObj ps) h1) as Hfresh.
    pose proof (alloc_lookup (OObj ps) h1) as Hlook.
    destruct (alloc (OObj ps) h1) as [l h2]. cbn [fst snd] in *. split.
    + intros l' [= <-]. by apply (lookup_weaken_None h h1).
    + intros l' o Hl' Ho. unfold live_obj in Ho. rewrite Hlook in Ho.
      destruct (decide (l' = l)) as [->|Hne].
      * injection Ho as <-. split; [done|]. simpl. apply Hvs.
      * apply (Hcells l' o Hl'). by unfold live_obj.
Qed.
(** ** What stays true of every world a program can reach *)

Lemma install_inv key l w :
  is_live (w_heap w) l = true → cache_inv w → cache_inv (install key l w).
Proof.
  intros Hlive [Hnd Hinv]. split; [by apply Map_set_NoDup|].
  intros k r. simpl. destruct (decide (key = k)) as [->|Hne].
  - rewrite !Map_get_set_eq. by intros [= <-].
  - rewrite !Map_get_set_ne by done. apply Hinv.
Qed.

Lemma load_inv es w :
  (∀ e l, e ∈ es → entry_value e = VRef l → is_live (w_heap w) l = true) →
  cache_inv w → cache_inv (load es w).2.
Proof.
  revert w. induction es as [|e es IH]; intros w Hlive Hinv; [done|].
  destruct (load_cons_cases e es w) as [(l & Hv & ->)|[err ->]]; [|done].
  apply IH.
  - intros e' l' He' Hv'. apply (Hlive e' l'); [by right|done].
  - apply install_inv; [|done]. apply (Hlive e l); [by left|done].
Qed.

Lemma lookup_reclaim D (h : heap) l :
  reclaim D h !! l = (λ c, if decide (l ∈ D) then Reclaimed else c) <$> h !! l.
Proof.
  unfold reclaim. rewrite map_lookup_imap.
  destruct (h !! l) as [c|]; simpl; [|done]. by destruct (decide (l ∈ D)).
Qed.

Lemma strong_roots_elem c k l :
  Map_get k (lru c) = Some (VRef l) → l ∈ strong_roots c.
Proof.
  unfold strong_roots. generalize (lru c) as m.
  induction m as [|[k0 v0] m IH]; simpl; [done|].
  destruct (decide (k0 = k)) as [->|Hne].
  - intros [= ->]. simpl. by left.
  - intros Hm. apply elem_of_app. right. by apply IH.
Qed.

Lemma step_inv a b : step a b → cache_inv a → cache_inv b.
Proof.
  intros Hstep. destruct Hstep as
    [es w r w' Hlive Hload|k w r w' Hget|w r w' Hsave|w h' Hlive Hdead|w D Hgc];
    intros Hinv.
  - pose proof (load_inv es w Hlive Hinv) as H'. by rewrite Hload in H'.
  - rewrite get_eq in Hget. by inversion Hget; subst.
  - pose proof (save_world w) as [Hthis Hheap]. rewrite Hsave in Hthis, Hheap.
    simpl in *. destruct Hinv as [Hnd Hinv]. split; [by rewrite Hthis|].
    intros k wr Hk. rewrite Hthis in Hk |- *.
    destruct (Hinv k wr Hk) as [Hl Hlv]. split; [done|].
    by apply (Hheap (target wr)).
  - destruct Hinv as [Hnd Hinv]. split; [done|]. simpl.
    intros k r Hk. destruct (Hinv k r Hk) as [Hl Hlv]. split; [done|by apply Hlive].
  - destruct Hinv as [Hnd Hinv]. split; [done|]. simpl.
    intros k r Hk. destruct (Hinv k r Hk) as [Hl Hlv]. split; [done|].
    assert (Hnot : target r ∉ D).
    { intros Hin. apply (Hgc _ Hin). apply reachable_root.
      by apply (strong_roots_elem _ k). }
    unfold is_live, live_obj in *. rewrite lookup_reclaim.
    destruct (w_heap w !! target r) as [c|]; simpl; [|done].
    by rewrite decide_False.
Qed.

Lemma buildCache_inv h : cache_inv (fresh_cache h).
Proof. split; [apply NoDup_nil_2|]. intros k r. discriminate. Qed.

Lemma steps_inv a b : rtc step a b → cache_inv a → cache_inv b.
Proof.
  induction 1 as [a|a b c Hab _ IH]; [done|].
  intros Ha. apply IH. by apply (step_inv a).
Qed.

Lemma reachable_world_inv w : reachable_world w → cache_inv w.
Proof.
  intros [h Hsteps]. apply (steps_inv _ _ Hsteps). apply (buildCache_inv h).
Qed.

Lemma keys_eq w :
  keys w = (Ok (Map_keys (weakCache (this w))), w).
Proof.
  unfold keys, mbind, M_bind, bind. rewrite entries_eq. unfold ret. simpl.
  unfold Map_keys. by rewrite <- list_fmap_compose.
Qed.

Lemma values_eq w :
  values w =
  (Ok (map (λ kv : string * WeakRef, weak_lookup (this w) (w_heap w) kv.1)
           (weakCache (this w))), w).
Proof.
  unfold values, mbind, M_bind, bind. rewrite entries_eq. unfold ret. simpl.
  by rewrite map_map.
Qed.

Lemma resolves_weak_lookup w k :
  resolves w k ↔ weak_lookup (this w) (w_heap w) k ≠ VUndefined.
Proof.
  unfold resolves, weak_lookup, deref. split.
  - intros (r & -> & ->). done.
  - destruct (Map_get k (weakCache (this w))) as [r|]; [|done].
    destruct (is_live (w_heap w) (target r)) eqn:Hl; [|done].
    intros _. by exists r.
Qed.

(** In a reachable world every key of [#weakCache] resolves. *)
Lemma reachable_keys_resolve w k :
  reachable_world w → k ∈ Map_keys (weakCache (this w)) → resolves w k.
Proof.
  intros [_ Hinv]%reachable_world_inv [r Hr]%Map_get_is_Some.
  exists r. split; [done|]. by destruct (Hinv k r Hr).
Qed.

(** C7 -- in every world a program can reach, iteration
    ([Symbol.asyncIterator], [entries], and through it [keys] and [values])
    yields a tuple exactly for the keys whose weak reference still resolves,
    each once, and every tuple carries the entity [get] returns for its
    key, never [undefined]: no key whose weak entry has evaporated is
    yielded.  ([load] keeps every entity in [#lru] as well and nothing is
    ever removed from [#lru], so the collector takes no entity of the
    cache.) *)
Theorem iteration_yields_resolving_keys (w : World) :
  reachable_world w →
  ∃ ts,
    asyncIterator w = (Ok ts, w) ∧
    entries w = (Ok ts, w) ∧
    keys w = (Ok (map tuple_key ts), w) ∧
    values w = (Ok (map tuple_value ts), w) ∧
    (∀ k, k ∈ map tuple_key ts ↔ resolves w k) ∧
    (∀ k, ¬ resolves w k → k ∉ map tuple_key ts) ∧
    NoDup (map tuple_key ts) ∧
    Forall (λ t, tuple_value t ≠ VUndefined ∧
                 get (tuple_key t) w = (Ok (tuple_value t), w)) ts.
Proof.
  intros Hreach.
  assert (Hkeys : ∀ k, k ∈ Map_keys (weakCache (this w)) ↔ resolves w k).
  { intros k. split; [by apply reachable_keys_resolve|].
    intros (r & Hr & _). apply Map_get_is_Some. by exists r. }
  eexists. split_and!; [apply entries_eq|apply entries_eq| | | | | |].
  - rewrite keys_eq. do 2 f_equal. unfold Map_keys. by rewrite map_map.
  - rewrite values_eq. do 2 f_equal. by rewrite map_map.
  - intros k. rewrite map_map. apply Hkeys.
  - intros k Hk. rewrite map_map. by rewrite (Hkeys k).
  - rewrite map_map. by destruct (reachable_world_inv w Hreach).
  - apply Forall_fmap. apply Forall_forall. intros [k r0] Hin. simpl.
    split; [|apply get_eq].
    apply resolves_weak_lookup. apply reachable_keys_resolve; [done|].
    unfold Map_keys. apply list_elem_of_fmap. by exists (k, r0).
Qed.

Lemma w_frame_reachable : reachable_world w_frame.
Proof.
  exists (w_heap w_frame).
  apply rtc_once.
  apply (step_load [entry "u:1" (VRef 1%positive)] _ (Ok tt)).
  - intros e l ->%list_elem_of_singleton [= <-]. reflexivity.
  - reflexivity.
Defined.

Lemma w_collected_reachable : reachable_world w_collected.
Proof.
  exists (w_heap w_three).
  apply (rtc_l _ _
    (load [entry "a" (VRef 1%positive); entry "b" (VRef 2%positive)] w_three).2).
  - apply (step_load [entry "a" (VRef 1%positive); entry "b" (VRef 2%positive)]
             _ (Ok tt) _); [|reflexivity].
    intros e l He Hv.
    repeat (apply elem_of_cons in He as [->|He]; [by injection Hv as <-|]).
    by apply elem_of_nil in He.
  - apply rtc_once. apply (step_collect _ {[3%positive]}).
    intros l ->%elem_of_singleton Hreach.
    assert (Hroots : ∀ l, reachable
              (w_heap (load [entry "a" (VRef 1%positive);
                             entry "b" (VRef 2%positive)] w_three).2)
              (strong_roots (this (load [entry "a" (VRef 1%positive);
                                         entry "b" (VRef 2%positive)] w_three).2)) l →
            l = 1%positive ∨ l = 2%positive).
    { clear Hreach. intros l. induction 1 as [l Hroot|l o l' _ IH Hl Hchild].
      - apply elem_of_cons in Hroot as [->|Hroot]; [by left|].
        apply elem_of_cons in Hroot as [->|Hroot]; [by right|].
        by apply elem_of_nil in Hroot.
      - destruct IH as [->| ->]; vm_compute in Hl; injection Hl as <-;
          by apply elem_of_nil in Hchild. }
    by destruct (Hroots _ Hreach).
Defined.

Lemma iteration_yields_resolving_keys_witness :
  reachable_world w_collected ∧
  ∃ ts, entries w_collected = (Ok ts, w_collected) ∧
        map tuple_key ts = ["a"; "b"] ∧
        Forall (λ t, tuple_value t ≠ VUndefined) ts.
Proof.
  split; [exact w_collected_reachable|].
  destruct (iteration_yields_resolving_keys w_collected w_collected_reachable)
    as (ts & _ & Hentries & _ & _ & _ & _ & _ & Hvals).
  exists ts. split_and!; [exact Hentries| |].
  - rewrite entries_eq in Hentries. by injection Hentries as <-.
  - eapply Forall_impl; [exact Hvals|]. by intros t [? _].
Defined.

(** A weak entry that outlived its object would be yielded with
    [undefined], and [save] would reject it; no program reaches such a
    world. *)
Lemma evaporated_entry_is_yielded :
  (entries w_evaporated).1 =
    Ok [{| tuple_key := "k"; tuple_value := VUndefined; tuple_state := None |}] ∧
  (save w_evaporated).1 = Throw not_clonable ∧
  ¬ reachable_world w_evaporated.
Proof.
  split_and!; [reflexivity|reflexivity|].
  intros [_ Hinv]%reachable_world_inv.
  by destruct (Hinv "k" {| target := 1%positive |} eq_refl) as [Hlru _].
Qed.


Lemma weak_lookup_cases c h k :
  (∃ l o, weak_lookup c h k = VRef l ∧ live_obj h l = Some o) ∨
  weak_lookup c h k = VUndefined.
Proof.
  unfold weak_lookup, deref, is_live.
  destruct (Map_get k (weakCache c)) as [r|]; [|by right].
  destruct (live_obj h (target r)) as [o|] eqn:Hl; [|by right].
  left. by exists (target r), o.
Qed.

Lemma live_obj_insert_eq (h : heap) l o : live_obj (<[l := Live o]> h) l = Some o.
Proof. unfold live_obj. by rewrite lookup_insert_eq. Qed.
(** ** [JSON.stringify] always finishes *)

Lemma stack_length (h : heap) (stack : list loc) :
  NoDup stack → (∀ l, l ∈ stack → l ∈ dom h) → (List.length stack ≤ size (dom h))%nat.
Proof.
  intros Hnd Hsub. rewrite <- (size_list_to_set (C := gset loc) stack Hnd).
  apply subseteq_size. intros l Hl. apply Hsub. by apply elem_of_list_to_set in Hl.
Qed.

Lemma live_obj_dom (h : heap) l o : live_obj h l = Some o → l ∈ dom h.
Proof.
  unfold live_obj. intros Hl. apply elem_of_dom.
  destruct (h !! l) as [c|]; [by exists c|done].
Qed.

Lemma serialize_members_is_Some ser l (D : gset loc) :
  (∀ v h, dom h = D → is_Some (ser v h)) →
  (∀ v h r h', ser v h = Some (r, h') → dom h' = dom h) →
  ∀ K h, dom h = D → is_Some (serialize_members ser l K h).
Proof.
  intros Hser Hdom. induction K as [|[i P] K IH]; intros h Hh; simpl; [done|].
  destruct (Hser (prop_at h l i) h Hh) as [[[strP|e] h1] Hone];
    rewrite Hone; simpl; [|done].
  assert (dom h1 = D) as Hh1 by by rewrite (Hdom _ _ _ _ Hone).
  by destruct (IH h1 Hh1) as [[[ms|e] h2] ->].
Qed.

Lemma serialize_items_is_Some ser l (D : gset loc) :
  (∀ v h, dom h = D → is_Some (ser v h)) →
  (∀ v h r h', ser v h = Some (r, h') → dom h' = dom h) →
  ∀ indices h, dom h = D → is_Some (serialize_items ser l indices h).
Proof.
  intros Hser Hdom. induction indices as [|i indices IH]; intros h Hh; simpl; [done|].
  destruct (Hser (elem_at h l i) h Hh) as [[[strP|e] h1] Hone];
    rewrite Hone; simpl; [|done].
  assert (dom h1 = D) as Hh1 by by rewrite (Hdom _ _ _ _ Hone).
  by destruct (IH h1 Hh1) as [[[js|e] h2] ->].
Qed.

Lemma SerializeJSONProperty_finishes fuel : ∀ stack v (h : heap),
  NoDup stack →
  (∀ l, l ∈ stack → l ∈ dom h) →
  (size (dom h) < fuel + List.length stack)%nat →
  is_Some (SerializeJSONProperty fuel stack v h).
Proof.
  induction fuel as [|fuel IH]; intros stack v h Hnd Hsub Hsize.
  { pose proof (stack_length h stack Hnd Hsub). simpl in Hsize. lia. }
  simpl. unfold serialize_value.
  assert (Hcalled : ∀ res h1,
    match toJSON h v with
    | Some (l, body) => Invoke body l h
    | None => (Ok v, h)
    end = (res, h1) → dom h1 = dom h).
  { intros res h1. destruct (toJSON h v) as [[l body]|].
    - intros Hcall. pose proof (Invoke_dom body l h) as Hd. by rewrite Hcall in Hd.
    - by intros [= _ <-]. }
  destruct (match toJSON h v with
            | Some (l, body) => Invoke body l h
            | None => (Ok v, h)
            end) as [res h1].
  specialize (Hcalled res h1 eq_refl).
  destruct res as [[| |b|n| |s|l]|e]; try done.
  assert (Hrec : ∀ o, live_obj h1 l = Some o → l ∉ stack →
                      ∀ v' hx, dom hx = dom h1 →
                               is_Some (SerializeJSONProperty fuel (l :: stack) v' hx)).
  { intros o Hl Hnin v' hx Hx. apply IH.
    - by apply NoDup_cons.
    - intros l' [->|Hl']%elem_of_cons; rewrite Hx.
      + by apply (live_obj_dom h1 l o).
      + rewrite Hcalled. by apply Hsub.
    - rewrite Hx, Hcalled. simpl. lia. }
  destruct (live_obj h1 l) as [[props|elems|props body]|] eqn:Hl; try done.
  - destruct (decide (l ∈ stack)) as [|Hnin]; [done|].
    destruct (serialize_members_is_Some
                (SerializeJSONProperty fuel (l :: stack)) l (dom h1)
                (Hrec _ eq_refl Hnin)
                (SerializeJSONProperty_dom fuel (l :: stack))
                (keys_of props) h1 eq_refl) as [[[ms|e] h2] ->]; done.
  - destruct (decide (l ∈ stack)) as [|Hnin]; [done|].
    destruct (serialize_items_is_Some
                (SerializeJSONProperty fuel (l :: stack)) l (dom h1)
                (Hrec _ eq_refl Hnin)
                (SerializeJSONProperty_dom fuel (l :: stack))
                (seq 0 (length elems)) h1 eq_refl) as [[[js|e] h2] ->]; done.
Qed.

(** The fuel [JSON_stringify] supplies is enough on every heap. *)
Lemma JSON_stringify_fuel_enough (h : heap) (x : jsval) :
  is_Some (SerializeJSONProperty (S (size h)) [] x h).
Proof.
  apply SerializeJSONProperty_finishes.
  - apply NoDup_nil_2.
  - by intros l ?%elem_of_nil.
  - rewrite size_dom. simpl. lia.
Qed.
(** ** Values that JSON can express survive the round trip *)

Lemma denotes_extends (h h' : heap) :
  h ⊆ h' → ∀ j v, denotes h v j → denotes h' v j.
Proof.
  intros Hsub.
  induction j as [ |b|n|s|items IH|members IH] using json_nested_ind;
    intros v Hd; inversion Hd as [ | | | |l es js Hl Hes|l ps ms Hl Hps]; subst;
    try constructor.
  - apply (denotes_arr _ _ es); [by apply (extends_live_obj h)|].
    clear Hl Hd. induction Hes as [|e j es items He _ IHes]; constructor.
    + apply Forall_cons in IH as [IHj _]. by apply IHj.
    + apply Forall_cons in IH as [_ IH]. by apply IHes.
  - apply (denotes_obj _ _ ps); [by apply (extends_live_obj h)|].
    clear Hl Hd. induction Hps as [|p m ps members [Hk Hp] _ IHps]; constructor.
    + apply Forall_cons in IH as [IHj _]. split; [done|]. by apply IHj.
    + apply Forall_cons in IH as [_ IH]. by apply IHps.
Qed.

Lemma denotes_functional (h : heap) :
  ∀ j1 v j2, denotes h v j1 → denotes h v j2 → j1 = j2.
Proof.
  induction j1 as [ |b|n|s|items IH|members IH] using json_nested_ind;
    intros v j2 H1 H2;
    inversion H1 as [ | | | |l es js Hl Hes|l ps ms Hl Hps]; subst;
    inversion H2 as [ | | | |l' es' js' Hl' Hes'|l' ps' ms' Hl' Hps']; subst;
    try done; try congruence.
  - assert (es' = es) as -> by congruence. f_equal.
    clear Hl Hl' H1 H2. revert js' Hes'.
    induction Hes as [|e j es items He _ IHes]; intros js' Hes'.
    + by inversion Hes'.
    + inversion Hes' as [|e' j' es' js'' He' Hes'']; subst.
      apply Forall_cons in IH as [IHj IH]. f_equal.
      * by apply (IHj e).
      * by apply IHes.
  - assert (ps' = ps) as -> by congruence. f_equal.
    clear Hl Hl' H1 H2. revert ms' Hps'.
    induction Hps as [|p m ps members [Hk Hp] _ IHps]; intros ms' Hps'.
    + by inversion Hps'.
    + inversion Hps' as [|p' [k' j'] ps' ms'' [Hk' Hp'] Hps'']; subst.
      apply Forall_cons in IH as [IHj IH]. f_equal.
      * destruct m as [k j]. simpl in *. f_equal; [congruence|].
        by apply (IHj p.2).
      * by apply IHps.
Qed.

Lemma list_sum_elem (x : nat) (l : list nat) : x ∈ l → (x ≤ list_sum l)%nat.
Proof.
  induction l as [|y l IH]; [by intros ?%elem_of_nil|].
  intros [->|Hin]%elem_of_cons; simpl; [lia|]. specialize (IH Hin). lia.
Qed.

Lemma json_size_item j items :
  j ∈ items → (json_size j < json_size (JArr items))%nat.
Proof.
  intros Hin. simpl.
  assert (json_size j ≤ list_sum (map json_size items))%nat; [|lia].
  apply list_sum_elem. apply list_elem_of_fmap. by exists j.
Qed.

Lemma json_size_member (m : string * json) members :
  m ∈ members → (json_size m.2 < json_size (JObj members))%nat.
Proof.
  intros Hin. simpl.
  assert (json_size m.2 ≤
          list_sum (map (λ m : string * json, json_size m.2) members))%nat; [|lia].
  apply list_sum_elem. apply list_elem_of_fmap. by exists m.
Qed.

Lemma props_get_elem name (props : list (string * jsval)) v :
  props_get name props = Some v → (name, v) ∈ props.
Proof.
  induction props as [|[n v0] props IH]; simpl; [done|].
  destruct (decide (n = name)) as [->|Hne].
  - intros [= ->]. by left.
  - intros Hv. right. by apply IH.
Qed.

Lemma denotes_toJSON (h : heap) v j : denotes h v j → toJSON h v = None.
Proof.
  intros Hd. inversion Hd as [ | | | |l es js Hl Hes|l ps ms Hl Hps]; subst;
    try done; unfold toJSON; rewrite Hl; simpl; [done|].
  destruct (props_get "toJSON" ps) as [[| | | | | |f]|] eqn:Hp; try done.
  apply props_get_elem in Hp.
  apply list_elem_of_lookup_1 in Hp as [i Hi].
  destruct (Forall2_lookup_l _ _ _ _ _ Hps Hi) as (m & _ & _ & Hf). simpl in Hf.
  inversion Hf as [ | | | |l' es' js' Hl'|l' ps' ms' Hl']; subst; by rewrite Hl'.
Qed.

Lemma serialize_items_denotes ser l (h : heap) es :
  live_obj h l = Some (OArr es) →
  ∀ suffix items n,
    drop n es = suffix →
    Forall2 (λ e j, ser e h = Some (Ok (Some j), h)) suffix items →
    serialize_items ser l (seq n (length suffix)) h = Some (Ok items, h).
Proof.
  intros Hl suffix items n Hdrop Hall. revert n Hdrop.
  induction Hall as [|e j suffix items He _ IH]; intros n Hdrop; [done|].
  assert (es !! n = Some e) as Hn.
  { rewrite <- (Nat.add_0_r n), <- lookup_drop, Hdrop. done. }
  simpl. unfold elem_at. rewrite Hl, Hn. simpl. rewrite He. simpl.
  rewrite (IH (S n)); [done|].
  rewrite (drop_S _ _ _ Hn) in Hdrop. by injection Hdrop.
Qed.

Lemma serialize_members_denotes ser l (h : heap) o :
  live_obj h l = Some o →
  ∀ suffix members n,
    drop n (own_props o) = suffix →
    Forall2 (λ (p : string * jsval) (m : string * json),
               p.1 = m.1 ∧ ser p.2 h = Some (Ok (Some m.2), h)) suffix members →
    serialize_members ser l (imap (λ i p, (n + i, p.1)) suffix) h
    = Some (Ok members, h).
Proof.
  intros Hl suffix members n Hdrop Hall. revert n Hdrop.
  induction Hall as [|[k v] [k' j] suffix members [Hk He] _ IH]; intros n Hdrop; [done|].
  simpl in Hk, He. subst k'.
  assert (own_props o !! n = Some (k, v)) as Hn.
  { rewrite <- (Nat.add_0_r n), <- lookup_drop, Hdrop. done. }
  simpl. unfold prop_at. rewrite Hl, Nat.add_0_r, Hn. simpl. rewrite He. simpl.
  rewrite (imap_ext _ (λ i p, (S n + i, p.1))).
  2:{ intros i p _. simpl. f_equal. lia. }
  rewrite (IH (S n)); [done|].
  rewrite (drop_S _ _ _ Hn) in Hdrop. by injection Hdrop.
Qed.

Lemma SerializeJSONProperty_primitive fuel stack v (h : heap) :
  (∀ l, v ≠ VRef l) →
  SerializeJSONProperty fuel stack v h = serialize_value (λ _ _ _, None) stack v h.
Proof. intros Hv. destruct fuel; [done|]. simpl. by destruct v; try done; destruct (Hv l). Qed.

(** Writing a value that denotes [j] yields [j] and leaves the heap as it
    is: no cycle is met, since an object on the stack denotes a strictly
    larger text. *)
Lemma serialize_denotes (h : heap) : ∀ j v,
  denotes h v j →
  ∀ fuel stack,
    NoDup stack →
    (∀ l, l ∈ stack → l ∈ dom h) →
    (size (dom h) < fuel + List.length stack)%nat →
    (∀ l0, l0 ∈ stack →
           ∃ j0, denotes h (VRef l0) j0 ∧ (json_size j < json_size j0)%nat) →
    SerializeJSONProperty fuel stack v h = Some (Ok (Some j), h).
Proof.
  induction j as [ |b|n|s|items IH|members IH] using json_nested_ind;
    intros v Hd fuel stack Hnd Hsub Hsize Hstack;
    inversion Hd as [ | | | |l es js Hl Hes|l ps ms Hl Hps]; subst;
    try (by destruct fuel).
  - assert (Hnin : l ∉ stack).
    { intros Hin. destruct (Hstack l Hin) as (j0 & Hd0 & Hlt).
      rewrite (denotes_functional h _ _ _ Hd0 Hd) in Hlt. lia. }
    assert (Hnd' : NoDup (l :: stack)) by by apply NoDup_cons.
    assert (Hsub' : ∀ l', l' ∈ l :: stack → l' ∈ dom h).
    { intros l' [->|Hl']%elem_of_cons; [by apply (live_obj_dom h l (OArr es))|by apply Hsub]. }
    destruct fuel as [|fuel].
    { pose proof (stack_length h (l :: stack) Hnd' Hsub'). simpl in *. lia. }
    simpl. unfold serialize_value. rewrite (denotes_toJSON h _ _ Hd). rewrite Hl.
    rewrite decide_False by done.
    rewrite (serialize_items_denotes _ l h es Hl es items 0 eq_refl); [done|].
    assert (Haux : ∀ es' items',
      Forall2 (denotes h) es' items' →
      (∀ j, j ∈ items' → j ∈ items) →
      Forall2 (λ e j, SerializeJSONProperty fuel (l :: stack) e h = Some (Ok (Some j), h))
              es' items').
    { induction 1 as [|e j es' items' He _ IHes]; intros Hmem; constructor.
      - assert (Hj : j ∈ items) by (apply Hmem; by left).
        pose proof (proj1 (Forall_forall _ _) IH j Hj) as IHj.
        apply IHj; try done; [simpl in *; lia|].
        pose proof (json_size_item j items Hj) as Hlt.
        intros l0 [->|Hl0]%elem_of_cons.
        + by exists (JArr items).
        + destruct (Hstack l0 Hl0) as (j0 & Hd0 & Hlt0). exists j0.
          split; [done|lia].
      - apply IHes. intros j' Hj'. apply Hmem. by right. }
    by apply Haux.
  - assert (Hnin : l ∉ stack).
    { intros Hin. destruct (Hstack l Hin) as (j0 & Hd0 & Hlt).
      rewrite (denotes_functional h _ _ _ Hd0 Hd) in Hlt. lia. }
    assert (Hnd' : NoDup (l :: stack)) by by apply NoDup_cons.
    assert (Hsub' : ∀ l', l' ∈ l :: stack → l' ∈ dom h).
    { intros l' [->|Hl']%elem_of_cons; [by apply (live_obj_dom h l (OObj ps))|by apply Hsub]. }
    destruct fuel as [|fuel].
    { pose proof (stack_length h (l :: stack) Hnd' Hsub'). simpl in *. lia. }
    simpl. unfold serialize_value. rewrite (denotes_toJSON h _ _ Hd). rewrite Hl.
    rewrite decide_False by done.
    change (keys_of ps) with (imap (λ i (p : string * jsval), (0 + i, p.1)) ps).
    rewrite (serialize_members_denotes _ l h (OObj ps) Hl ps members 0 eq_refl); [done|].
    assert (Haux : ∀ ps' members',
      Forall2 (λ (p : string * jsval) (m : string * json),
                 p.1 = m.1 ∧ denotes h p.2 m.2) ps' members' →
      (∀ m, m ∈ members' → m ∈ members) →
      Forall2 (λ (p : string * jsval) (m : string * json),
                 p.1 = m.1 ∧
                 SerializeJSONProperty fuel (l :: stack) p.2 h = Some (Ok (Some m.2), h))
              ps' members').
    { induction 1 as [|p m ps' members' [Hk He] _ IHps]; intros Hmem; constructor.
      - split; [done|].
        assert (Hm : m ∈ members) by (apply Hmem; by left).
        pose proof (proj1 (Forall_forall _ _) IH m Hm) as IHm.
        apply IHm; try done; [simpl in *; lia|].
        pose proof (json_size_member m members Hm) as Hlt.
        intros l0 [->|Hl0]%elem_of_cons.
        + by exists (JObj members).
        + destruct (Hstack l0 Hl0) as (j0 & Hd0 & Hlt0). exists j0.
          split; [done|lia].
      - apply IHps. intros m' Hm'. apply Hmem. by right. }
    by apply Haux.
Qed.

(** Reading a JSON text builds a value that denotes the text, out of new
    objects only. *)
Lemma InternalizeJSON_denotes : ∀ j (h : heap),
  denotes (InternalizeJSON j h).2 (InternalizeJSON j h).1 j ∧
  (∀ l, (InternalizeJSON j h).1 = VRef l → h !! l = None).
Proof.
  induction j as [ |b|n|s|items IH|members IH] using json_nested_ind; intros h;
    try (split; [constructor|done]).
  - rewrite InternalizeJSON_arr.
    assert (Haux : ∀ h0,
      Forall2 (denotes (internalize_items InternalizeJSON items h0).2)
              (internalize_items InternalizeJSON items h0).1 items ∧
      h0 ⊆ (internalize_items InternalizeJSON items h0).2).
    { clear h. induction IH as [|j items Hj _ IHitems]; intros h0; [by split|].
      simpl. destruct (Hj h0) as [Hd _].
      pose proof (InternalizeJSON_extends j h0) as Hext.
      destruct (InternalizeJSON j h0) as [v ha]. simpl in *.
      destruct (IHitems ha) as [Hds Hext'].
      destruct (internalize_items InternalizeJSON items ha) as [vs hb]. simpl in *.
      split; [|by etrans]. constructor; [|done].
      by apply (denotes_extends ha). }
    destruct (Haux h) as [Hds Hext].
    destruct (internalize_items InternalizeJSON items h) as [vs h1].
    cbn [fst snd] in *.
    pose proof (alloc_fresh (OArr vs) h1) as Hfresh.
    pose proof (alloc_live (OArr vs) h1) as Hlive.
    pose proof (alloc_extends (OArr vs) h1) as Hext1.
    destruct (alloc (OArr vs) h1) as [l h2]. cbn [fst snd] in *. split.
    + apply (denotes_arr _ _ vs); [done|].
      eapply Forall2_impl; [exact Hds|]. intros v j. by apply denotes_extends.
    + intros l' [= <-]. by apply (lookup_weaken_None h h1).
  - rewrite InternalizeJSON_obj.
    assert (Haux : ∀ h0,
      Forall2 (λ (p : string * jsval) (m : string * json),
                 p.1 = m.1 ∧
                 denotes (internalize_members InternalizeJSON members h0).2 p.2 m.2)
              (internalize_members InternalizeJSON members h0).1 members ∧
      h0 ⊆ (internalize_members InternalizeJSON members h0).2).
    { clear h. induction IH as [|[k j] members Hj _ IHmembers]; intros h0; [by split|].
      simpl. simpl in Hj. destruct (Hj h0) as [Hd _].
      pose proof (InternalizeJSON_extends j h0) as Hext.
      destruct (InternalizeJSON j h0) as [v ha]. simpl in *.
      destruct (IHmembers ha) as [Hds Hext'].
      destruct (internalize_members InternalizeJSON members ha) as [ps hb]. simpl in *.
      split; [|by etrans]. constructor; [|done].
      split; [done|]. by apply (denotes_extends ha). }
    destruct (Haux h) as [Hds Hext].
    destruct (internalize_members InternalizeJSON members h) as [ps h1].
    cbn [fst snd] in *.
    pose proof (alloc_fresh (OObj ps) h1) as Hfresh.
    pose proof (alloc_live (OObj ps) h1) as Hlive.
    pose proof (alloc_extends (OObj ps) h1) as Hext1.
    destruct (alloc (OObj ps) h1) as [l h2]. cbn [fst snd] in *. split.
    + apply (denotes_obj _ _ ps); [done|].
      eapply Forall2_impl; [exact Hds|]. intros p m [Hk Hd]. split; [done|].
      by apply (denotes_extends h1).
    + intros l' [= <-]. by apply (lookup_weaken_None h h1).
Qed.

(** [structuredClone] of a value that denotes [j] returns a value that
    denotes [j] as well, built from objects that did not exist before. *)
Lemma structuredClone_denotes {I} x j (w : WorldOf I) :
  denotes (w_heap w) x j →
  ∃ v w',
    structuredClone x w = (Ok v, w') ∧
    this w' = this w ∧
    w_heap w ⊆ w_heap w' ∧
    denotes (w_heap w') v j ∧
    (∀ l, v = VRef l → w_heap w !! l = None).
Proof.
  intros Hd.
  assert (Hser : SerializeJSONProperty (S (size (w_heap w))) [] x (w_heap w)
                 = Some (Ok (Some j), w_heap w)).
  { apply serialize_denotes; try done.
    - apply NoDup_nil_2.
    - by intros l ?%elem_of_nil.
    - rewrite size_dom. simpl. lia.
    - by intros l ?%elem_of_nil. }
  destruct (InternalizeJSON_denotes j (w_heap w)) as [Hd' Hfresh].
  pose proof (InternalizeJSON_extends j (w_heap w)) as Hext.
  exists (InternalizeJSON j (w_heap w)).1,
         {| w_heap := (InternalizeJSON j (w_heap w)).2; this := this w |}.
  split_and!; try done.
  rewrite structuredClone_eq, JSON_stringify_eq, Hser, JSON_parse_text. done.
Qed.

Lemma save_loop_denotes ts : ∀ acc w,
  (∀ t, t ∈ ts → ∃ j, denotes (w_heap w) (tuple_value t) j) →
  ∃ out w',
    save_loop ts acc w = (Ok (acc ++ out), w') ∧
    this w' = this w ∧
    w_heap w ⊆ w_heap w' ∧
    Forall2 (λ t t',
               tuple_key t' = tuple_key t ∧
               tuple_state t' = tuple_state t ∧
               (∀ j, denotes (w_heap w) (tuple_value t) j →
                     denotes (w_heap w') (tuple_value t') j) ∧
               (∀ l, tuple_value t' = VRef l → w_heap w !! l = None)) ts out.
Proof.
  induction ts as [|t ts IH]; intros acc w Hall.
  - exists [], w. rewrite app_nil_r. by split_and!.
  - destruct (Hall t) as [j Hj]; [by left|].
    destruct (structuredClone_denotes _ j w Hj) as (v & w1 & Hclone & Hthis & Hext & Hv & Hfresh).
    rewrite save_loop_cons, Hclone.
    destruct (IH (acc ++ [{| tuple_key := tuple_key t; tuple_value := v;
                             tuple_state := tuple_state t |}]) w1)
      as (out & w' & Hrun & Hthis' & Hext' & Hout).
    { intros t' Ht'. destruct (Hall t') as [j' Hj']; [by right|].
      exists j'. by apply (denotes_extends (w_heap w)). }
    exists ({| tuple_key := tuple_key t; tuple_value := v;
               tuple_state := tuple_state t |} :: out), w'.
    split_and!.
    + by rewrite Hrun, <- app_assoc.
    + congruence.
    + by etrans.
    + constructor.
      * split_and!; try done.
        intros j0 Hj0. rewrite (denotes_functional _ _ _ _ Hj0 Hj).
        by apply (denotes_extends (w_heap w1)).
      * eapply Forall2_impl; [exact Hout|]. intros t1 t2 (Hk & Hs & Hd & Hf).
        split_and!; try done.
        -- intros j0 Hj0. apply Hd. by apply (denotes_extends (w_heap w)).
        -- intros l Hl. apply (lookup_weaken_None (w_heap w) (w_heap w1)); [|done].
           by apply Hf.
Qed.

(** [save] of a cache whose entities are all expressible in JSON succeeds:
    one tuple per key, in order, each carrying a structurally equal copy
    made of new objects, and no state. *)
Lemma save_copies_expressible w :
  json_expressible w →
  ∃ ts w',
    save w = (Ok ts, w') ∧
    this w' = this w ∧
    w_heap w ⊆ w_heap w' ∧
    map tuple_key ts = Map_keys (weakCache (this w)) ∧
    Forall (λ t,
              tuple_state t = None ∧
              (∀ j, denotes (w_heap w) (weak_lookup (this w) (w_heap w) (tuple_key t)) j →
                    denotes (w_heap w') (tuple_value t) j) ∧
              (∀ l, tuple_value t = VRef l → w_heap w !! l = None)) ts.
Proof.
  intros Hexp.
  destruct (save_loop_denotes (tuples_of (this w) (w_heap w) (weakCache (this w))) [] w)
    as (out & w' & Hrun & Hthis & Hext & Hout).
  { intros t (kr & -> & Hin)%list_elem_of_fmap. simpl. apply Hexp.
    unfold Map_keys. apply list_elem_of_fmap. by exists kr. }
  exists out, w'. split_and!; [by rewrite save_eq|done|done| |].
  - clear Hrun. unfold tuples_of in Hout. unfold Map_keys.
    induction (weakCache (this w)) as [|kr m IHm] in out, Hout |- *.
    + by inversion Hout.
    + inversion Hout as [|t t' ts out' (Hk & _) Hrest]; subst. simpl in *.
      f_equal; [done|]. by apply IHm.
  - clear Hrun. unfold tuples_of in Hout.
    induction (weakCache (this w)) as [|kr m IHm] in out, Hout |- *.
    + inversion Hout. constructor.
    + inversion Hout as [|t t' ts out' (Hk & Hs & Hd & Hf) Hrest]; subst.
      simpl in *. constructor; [|by apply IHm].
      rewrite Hk. by split_and!.
Qed.

Lemma load_other_weak es k : ∀ w,
  k ∉ map entry_key es →
  Map_get k (weakCache (this (load es w).2)) = Map_get k (weakCache (this w)).
Proof.
  induction es as [|e es IH]; intros w Hk; [done|].
  simpl in Hk. apply not_elem_of_cons in Hk as [Hne Hk].
  destruct (load_cons_cases e es w) as [(l & Hv & ->)|[err ->]]; [|done].
  rewrite IH by done. simpl. by rewrite Map_get_set_ne.
Qed.

Lemma load_objects es : ∀ w,
  NoDup (map entry_key es) →
  (∀ e, e ∈ es → entry_key e ∉ Map_keys (weakCache (this w))) →
  (∀ e, e ∈ es → ∃ l, entry_value e = VRef l) →
  (load es w).1 = Ok tt ∧
  Map_keys (weakCache (this (load es w).2))
    = Map_keys (weakCache (this w)) ++ map entry_key es ∧
  (∀ e l, e ∈ es → entry_value e = VRef l →
          Map_get (entry_key e) (weakCache (this (load es w).2))
            = Some {| target := l |}).
Proof.
  induction es as [|e es IH]; intros w Hnd Hfresh Hobj.
  - rewrite load_nil. simpl. rewrite app_nil_r. split_and!; [done|done|].
    by intros e l ?%elem_of_nil.
  - simpl in Hnd. apply NoDup_cons in Hnd as [Hnin Hnd].
    destruct (Hobj e) as [l Hv]; [by left|].
    rewrite (load_cons_object _ _ l) by done.
    destruct (IH (install (entry_key e) l w)) as (Hok & Hkeys & Hget); [done| | |].
    { intros e' He'. simpl. rewrite Map_keys_set_elem. intros [Heq|Hin].
      - apply Hnin. rewrite <- Heq. apply list_elem_of_fmap. by exists e'.
      - by apply (Hfresh e'); [right|]. }
    { intros e' He'. apply Hobj. by right. }
    split_and!; [done| |].
    + rewrite Hkeys. simpl. rewrite Map_keys_set_absent by (apply Hfresh; by left).
      by rewrite <- app_assoc.
    + intros e' l' [->|He']%elem_of_cons Hv'; [|by apply Hget].
      rewrite load_other_weak by done. simpl. rewrite Map_get_set_eq. congruence.
Qed.

Lemma denotes_object (h h' : heap) l v j :
  denotes h (VRef l) j → denotes h' v j →
  ∃ l', v = VRef l' ∧ is_live h' l' = true.
Proof.
  intros Hd Hd'. unfold is_live.
  inversion Hd; subst; inversion Hd' as [ | | | |l' es' js' Hl'|l' ps' ms' Hl']; subst;
    exists l'; by rewrite Hl'.
Qed.

(** The round trip keeps a cache whose entities are all expressible in
    JSON: the same keys in the same order, each holding a structurally
    equal entity. *)
Lemma save_clear_load_expressible w :
  json_expressible w →
  NoDup (Map_keys (weakCache (this w))) →
  ∃ w',
    save_clear_load w = (Ok tt, w') ∧
    Map_keys (weakCache (this w')) = Map_keys (weakCache (this w)) ∧
    ∀ k j, k ∈ Map_keys (weakCache (this w)) →
           denotes (w_heap w) (weak_lookup (this w) (w_heap w) k) j →
           denotes (w_heap w') (weak_lookup (this w') (w_heap w') k) j.
Proof.
  intros Hexp Hnd.
  destruct (save_copies_expressible w Hexp)
    as (ts & w1 & Hsave & Hthis & Hext & Hkeys & Hts).
  assert (Hvals : ∀ t, t ∈ ts →
            ∃ l, tuple_value t = VRef l ∧ is_live (w_heap w1) l = true).
  { intros t Ht. pose proof (proj1 (Forall_forall _ _) Hts t Ht) as (_ & Hd & _).
    destruct (Hexp (tuple_key t)) as [j Hj].
    { rewrite <- Hkeys. apply list_elem_of_fmap. by exists t. }
    destruct (weak_lookup_cases (this w) (w_heap w) (tuple_key t))
      as [(l & o & Hv & _)|Hv]; rewrite Hv in Hj; [|inversion Hj].
    rewrite Hv in Hd. apply (denotes_object _ _ _ _ _ Hj (Hd j Hj)). }
  destruct (load_objects (as_entries ts) (fresh_cache (w_heap w1)))
    as (Hok & Hkeys' & Hget).
  { unfold as_entries. rewrite map_map. simpl.
    change (map (λ x, tuple_key x) ts) with (map tuple_key ts). by rewrite Hkeys. }
  { intros e _. simpl. apply not_elem_of_nil. }
  { intros e (t & -> & Ht)%list_elem_of_fmap. simpl.
    destruct (Hvals t Ht) as (l & Hl & _). by exists l. }
  exists (load (as_entries ts) (fresh_cache (w_heap w1))).2. split_and!.
  - unfold save_clear_load, mbind, M_bind, bind. rewrite Hsave.
    rewrite clear_is_buildCache.
    destruct (load (as_entries ts) (fresh_cache (w_heap w1))) as [r w2].
    simpl in Hok. by subst r.
  - rewrite Hkeys'. simpl. unfold as_entries. rewrite map_map. simpl.
    change (map (λ x, tuple_key x) ts) with (map tuple_key ts). done.
  - intros k j Hk Hj. rewrite <- Hkeys in Hk.
    apply list_elem_of_fmap in Hk as (t & -> & Ht).
    pose proof (proj1 (Forall_forall _ _) Hts t Ht) as (_ & Hd & _).
    destruct (Hvals t Ht) as (l & Hl & Hlive).
    rewrite load_heap. simpl.
    assert (Hw : Map_get (tuple_key t)
                   (weakCache (this (load (as_entries ts) (fresh_cache (w_heap w1))).2))
                 = Some {| target := l |}).
    { apply (Hget {| entry_key := tuple_key t; entry_value := tuple_value t;
                     entry_state := tuple_state t |} l); [|done].
      apply list_elem_of_fmap. by exists t. }
    unfold weak_lookup at 1. rewrite Hw.
    unfold deref. simpl. rewrite Hlive, <- Hl. by apply Hd.
Qed.

(** * More about [cache.ts] *)

(** ** [load] as a fold *)

Lemma load_eq es : ∀ w,
  load es w = (load_result es, install_all (loadable_prefix es) w).
Proof.
  induction es as [|e es IH]; intros w; [done|].
  unfold load_result, install_all. cbn [loadable_prefix forallb].
  destruct (entry_value e) as [| | | | | |l] eqn:Hv; cbn [is_object andb foldl];
    try (cbn; by rewrite Hv).
  rewrite (load_cons_object _ _ l), IH by done.
  assert (install_entry w e = install (entry_key e) l w) as ->; [|done].
  unfold install_entry. by rewrite Hv.
Qed.

Lemma loadable_prefix_objects es :
  Forall (λ e, is_object (entry_value e) = true) (loadable_prefix es).
Proof.
  induction es as [|e es IH]; simpl; [constructor|].
  destruct (is_object (entry_value e)) eqn:He; by constructor.
Qed.

Lemma loadable_prefix_all es :
  Forall (λ e, is_object (entry_value e) = true) es → loadable_prefix es = es.
Proof.
  induction 1 as [|e es He _ IH]; simpl; [done|]. by rewrite He, IH.
Qed.

Lemma load_result_all es :
  Forall (λ e, is_object (entry_value e) = true) es → load_result es = Ok tt.
Proof.
  intros Hall. unfold load_result.
  assert (forallb (λ e, is_object (entry_value e)) es = true) as ->; [|done].
  induction Hall as [|e es He _ IH]; simpl; [done|]. by rewrite He, IH.
Qed.

Lemma install_all_cons e es w :
  install_all (e :: es) w = install_all es (install_entry w e).
Proof. reflexivity. Qed.

Lemma install_all_heap es : ∀ w, w_heap (install_all es w) = w_heap w.
Proof.
  induction es as [|e es IH]; intros w; [done|].
  rewrite install_all_cons, IH. unfold install_entry. by destruct (entry_value e).
Qed.

Lemma install_entry_object w e l :
  entry_value e = VRef l → install_entry w e = install (entry_key e) l w.
Proof. intros Hv. unfold install_entry. by rewrite Hv. Qed.

Lemma install_entry_primitive w e :
  is_object (entry_value e) = false → install_entry w e = w.
Proof. unfold install_entry. by destruct (entry_value e). Qed.

Lemma last_value_elem es k v :
  last_value es k = Some v →
  ∃ e, e ∈ es ∧ entry_key e = k ∧ entry_value e = v.
Proof.
  induction es as [|e es IH]; simpl; [done|].
  destruct (last_value es k) as [v'|].
  - intros [= ->]. destruct IH as (e' & He' & Hk & Hv); [done|].
    exists e'. split; [by right|done].
  - destruct (decide (entry_key e = k)) as [Hk|]; [|done].
    intros [= <-]. exists e. split; [by left|done].
Qed.

Lemma install_all_weak_lookup es :
  Forall (λ e, is_object (entry_value e) = true) es →
  ∀ w k,
    Map_get k (weakCache (this (install_all es w))) =
    match last_value es k with
    | Some (VRef l) => Some {| target := l |}
    | Some _ => None
    | None => Map_get k (weakCache (this w))
    end.
Proof.
  induction 1 as [|e es He _ IH]; intros w k; [done|].
  rewrite install_all_cons, IH. simpl.
  destruct (last_value es k) as [v|]; [done|].
  destruct (entry_value e) as [| | | | | |l] eqn:Hv; try done.
  rewrite (install_entry_object _ _ l) by done. simpl.
  destruct (decide (entry_key e = k)) as [<-|Hne].
  - by rewrite Map_get_set_eq.
  - by rewrite Map_get_set_ne.
Qed.

(** X1 -- [load] then [get]: when every value of the entry list is an
    object the caller holds, [load] resolves, and afterwards [get(k)]
    returns, for every key [k] of the list, the value of the last entry
    with that key (the object itself), and for every other key what it
    returned before. *)
Theorem load_then_get_last_wins (es : list CacheEntry) (w : World) :
  (∀ e, e ∈ es → ∃ l, entry_value e = VRef l ∧ is_live (w_heap w) l = true) →
  (load es w).1 = Ok tt ∧
  (∀ k v, last_value es k = Some v →
          get k (load es w).2 = (Ok v, (load es w).2)) ∧
  (∀ k, last_value es k = None →
        (get k (load es w).2).1 = (get k w).1).
Proof.
  intros Hlive.
  assert (Hobj : Forall (λ e, is_object (entry_value e) = true) es).
  { apply Forall_forall. intros e He. by destruct (Hlive e He) as (l & -> & _). }
  rewrite load_eq, (load_result_all es Hobj), (loadable_prefix_all es Hobj).
  cbn [fst snd]. split_and!; [done| |].
  - intros k v Hlast. rewrite get_eq. do 2 f_equal.
    destruct (last_value_elem es k v Hlast) as (e & He & _ & Hv).
    destruct (Hlive e He) as (l & Hl & Hlv). rewrite Hl in Hv. subst v.
    unfold weak_lookup. rewrite (install_all_weak_lookup es Hobj), Hlast.
    unfold deref. cbn [target]. by rewrite install_all_heap, Hlv.
  - intros k Hlast. rewrite !get_eq. cbn [fst]. f_equal.
    unfold weak_lookup. rewrite (install_all_weak_lookup es Hobj), Hlast.
    by rewrite install_all_heap.
Qed.

Lemma load_then_get_last_wins_witness :
  get "a" (load [entry "a" (VRef 1%positive); entry "b" (VRef 2%positive);
                 entry "a" (VRef 3%positive)] w_three).2
  = (Ok (VRef 3%positive),
     (load [entry "a" (VRef 1%positive); entry "b" (VRef 2%positive);
            entry "a" (VRef 3%positive)] w_three).2).
Proof.
  refine (proj1 (proj2 (load_then_get_last_wins
    [entry "a" (VRef 1%positive); entry "b" (VRef 2%positive);
     entry "a" (VRef 3%positive)] w_three _)) "a" (VRef 3%positive) eq_refl).
  intros e He.
  repeat (apply elem_of_cons in He as [->|He]; [eexists; split; reflexivity|]).
  by apply elem_of_nil in He.
Defined.

Lemma loadable_prefix_app es1 e es2 :
  Forall (λ e, is_object (entry_value e) = true) es1 →
  is_object (entry_value e) = false →
  loadable_prefix (es1 ++ e :: es2) = es1 ∧
  load_result (es1 ++ e :: es2) = Throw (TypeError "WeakRef: target must be an object").
Proof.
  intros Hobj He. unfold load_result.
  induction Hobj as [|e1 es1 He1 _ [IH1 IH2]]; simpl.
  - by rewrite He.
  - rewrite He1. simpl. split; [by rewrite IH1|done].
Qed.

(** X2 -- [load] is not atomic: at the first entry whose value is not an
    object it rejects with the [TypeError] of [new WeakRef]; the entries
    before that one stay installed exactly as [load] of them alone installs
    them, and neither that entry nor any later one is installed. *)
Theorem load_stops_at_first_primitive (es1 es2 : list CacheEntry) (e : CacheEntry)
    (w : World) :
  Forall (λ e, is_object (entry_value e) = true) es1 →
  is_object (entry_value e) = false →
  load es1 w = (Ok tt, (load es1 w).2) ∧
  load (es1 ++ e :: es2) w =
    (Throw (TypeError "WeakRef: target must be an object"), (load es1 w).2).
Proof.
  intros Hobj He.
  destruct (loadable_prefix_app es1 e es2 Hobj He) as [Hpre Hres].
  rewrite !load_eq, Hpre, Hres. cbn [fst snd].
  by rewrite (load_result_all es1 Hobj), (loadable_prefix_all es1 Hobj).
Qed.

Lemma load_stops_at_first_primitive_witness :
  load [entry "a" (VRef 1%positive); entry "b" (VNum 5); entry "c" (VRef 3%positive)]
       w_three
  = (Throw (TypeError "WeakRef: target must be an object"),
     (load [entry "a" (VRef 1%positive)] w_three).2).
Proof.
  refine (proj2 (load_stops_at_first_primitive
    [entry "a" (VRef 1%positive)] [entry "c" (VRef 3%positive)]
    (entry "b" (VNum 5)) w_three _ eq_refl)).
  repeat constructor.
Defined.

(** ** Loading twice *)

Lemma Map_set_set {V} k (v v' : V) (m : JsMap V) :
  Map_set k v (Map_set k v' m) = Map_set k v m.
Proof.
  induction m as [|[k0 v0] m IH]; simpl.
  - by rewrite decide_True.
  - destruct (decide (k0 = k)) as [->|Hne]; simpl.
    + by rewrite decide_True.
    + by rewrite decide_False, IH.
Qed.

Lemma Map_set_comm {V} k k' (v v' : V) (m : JsMap V) :
  k ≠ k' → k ∈ Map_keys m →
  Map_set k v (Map_set k' v' m) = Map_set k' v' (Map_set k v m).
Proof.
  intros Hne. unfold Map_keys. induction m as [|[k0 v0] m IH]; simpl.
  - by intros ?%elem_of_nil.
  - intros Hin.
    destruct (decide (k0 = k')) as [Hk'|Hk'], (decide (k0 = k)) as [Hk|Hk]; simpl;
      try congruence.
    + by rewrite decide_False, decide_True by congruence.
    + by rewrite decide_True, decide_False by congruence.
    + rewrite !decide_False by congruence. f_equal. apply IH.
      apply elem_of_cons in Hin as [?|?]; [congruence|done].
Qed.

Lemma install_install k l l' w : install k l (install k l' w) = install k l w.
Proof. unfold install. simpl. by rewrite !Map_set_set. Qed.

Lemma install_comm k k' l l' w :
  k ≠ k' → has_key w k →
  install k l (install k' l' w) = install k' l' (install k l w).
Proof.
  intros Hne [Hw Hl]. unfold install. simpl.
  by rewrite (Map_set_comm k k') by done; rewrite (Map_set_comm k k') by done.
Qed.

Lemma has_key_install k l w k' :
  has_key (install k l w) k' ↔ k' = k ∨ has_key w k'.
Proof.
  unfold has_key. simpl. rewrite !Map_keys_set_elem. split.
  - intros [[->|Hw] [Hl|Hl]]; auto.
  - intros [->|[Hw Hl]]; auto.
Qed.

Lemma has_key_install_all es : ∀ w k, has_key w k → has_key (install_all es w) k.
Proof.
  induction es as [|e es IH]; intros w k Hk; [done|].
  rewrite install_all_cons. apply IH. unfold install_entry.
  destruct (entry_value e); try done. apply has_key_install. by right.
Qed.

Lemma install_all_commute es : ∀ w k l,
  has_key w k → k ∉ map entry_key es →
  install k l (install_all es w) = install_all es (install k l w).
Proof.
  induction es as [|e es IH]; intros w k l Hk Hnin; [done|].
  simpl in Hnin. apply not_elem_of_cons in Hnin as [Hne Hnin].
  rewrite !install_all_cons.
  destruct (is_object (entry_value e)) eqn:He.
  - destruct (entry_value e) as [| | | | | |l0] eqn:Hv; try done.
    rewrite !(install_entry_object _ _ l0) by done.
    rewrite IH; [|apply has_key_install; by right|done].
    by rewrite (install_comm k (entry_key e)).
  - rewrite !install_entry_primitive by done. by apply IH.
Qed.

Lemma install_all_absorbs es : ∀ w k l,
  Forall (λ e, is_object (entry_value e) = true) es →
  has_key w k → k ∈ map entry_key es →
  install_all es (install k l w) = install_all es w.
Proof.
  induction es as [|e es IH]; intros w k l Hobj Hk Hin.
  { by apply elem_of_nil in Hin. }
  apply Forall_cons in Hobj as [He Hobj].
  destruct (entry_value e) as [| | | | | |l0] eqn:Hv; try done.
  rewrite !install_all_cons, !(install_entry_object _ _ l0) by done.
  destruct (decide (entry_key e = k)) as [->|Hne].
  - by rewrite install_install.
  - rewrite <- (install_comm k (entry_key e)) by done.
    apply IH; [done|apply has_key_install; by right|].
    simpl in Hin. apply elem_of_cons in Hin as [?|?]; [congruence|done].
Qed.

Lemma install_all_twice es : ∀ w,
  Forall (λ e, is_object (entry_value e) = true) es →
  install_all es (install_all es w) = install_all es w.
Proof.
  induction es as [|e es IH]; intros w Hobj; [done|].
  apply Forall_cons in Hobj as [He Hobj].
  destruct (entry_value e) as [| | | | | |l] eqn:Hv; try done.
  rewrite !install_all_cons, !(install_entry_object _ _ l) by done.
  assert (Hk : has_key (install (entry_key e) l w) (entry_key e))
    by (apply has_key_install; by left).
  destruct (decide (entry_key e ∈ map entry_key es)) as [Hin|Hnin].
  - rewrite install_all_absorbs; [by apply IH|done|by apply has_key_install_all|done].
  - rewrite install_all_commute by done. rewrite install_install. by apply IH.
Qed.

(** X3 -- loading the same entry list a second time changes nothing: the
    second [load] resolves or rejects as the first did and leaves the
    instance, key order included, exactly as the first left it. *)
Theorem load_twice_is_load_once (es : list CacheEntry) (w : World) :
  load es (load es w).2 = load es w.
Proof.
  rewrite !load_eq. cbn [snd]. f_equal.
  apply install_all_twice, loadable_prefix_objects.
Qed.

(** ** Iteration order *)

Lemma Map_keys_set {V} k (v : V) (m : JsMap V) :
  Map_keys (Map_set k v m) =
  if decide (k ∈ Map_keys m) then Map_keys m else Map_keys m ++ [k].
Proof.
  destruct (decide (k ∈ Map_keys m)).
  - by apply Map_keys_set_present.
  - by apply Map_keys_set_absent.
Qed.

Lemma install_all_keys es :
  Forall (λ e, is_object (entry_value e) = true) es →
  ∀ w, Map_keys (weakCache (this (install_all es w))) =
       add_new (Map_keys (weakCache (this w))) (map entry_key es).
Proof.
  induction 1 as [|e es He _ IH]; intros w; [done|].
  rewrite install_all_cons, IH. unfold add_new. simpl. f_equal.
  destruct (entry_value e) as [| | | | | |l] eqn:Hv; try done.
  rewrite (install_entry_object _ _ l) by done. simpl. apply Map_keys_set.
Qed.

(** X4 -- iteration follows insertion order.  After a [load] of entries
    whose values are all objects, [keys()] yields the keys it yielded
    before, in the same order, followed by the keys of the list that are
    new, each once, in the order of their first occurrence; on a cache from
    [buildCache()], the distinct keys of the list in the order of their
    first occurrence. *)
Theorem keys_follow_insertion_order (es : list CacheEntry) (w : World) :
  Forall (λ e, is_object (entry_value e) = true) es →
  (∀ ks0, keys w = (Ok ks0, w) →
          keys (load es w).2 = (Ok (add_new ks0 (map entry_key es)), (load es w).2)) ∧
  (this w = buildCache →
   keys (load es w).2 = (Ok (first_occurrences (map entry_key es)), (load es w).2)).
Proof.
  intros Hobj.
  assert (Hkeys : keys (load es w).2 =
    (Ok (add_new (Map_keys (weakCache (this w))) (map entry_key es)), (load es w).2)).
  { rewrite keys_eq. do 2 f_equal. rewrite load_eq. cbn [snd].
    rewrite (loadable_prefix_all es Hobj). by apply install_all_keys. }
  split.
  - intros ks0. rewrite keys_eq. intros [= <-]. exact Hkeys.
  - intros Hnew. rewrite Hkeys. by rewrite Hnew.
Qed.

Lemma keys_follow_insertion_order_witness :
  keys (load [entry "b" (VRef 2%positive); entry "a" (VRef 1%positive);
              entry "b" (VRef 3%positive)] w_three).2
  = (Ok ["b"; "a"],
     (load [entry "b" (VRef 2%positive); entry "a" (VRef 1%positive);
            entry "b" (VRef 3%positive)] w_three).2).
Proof.
  refine (proj2 (keys_follow_insertion_order
    [entry "b" (VRef 2%positive); entry "a" (VRef 1%positive);
     entry "b" (VRef 3%positive)] w_three _) eq_refl).
  repeat constructor.
Defined.

(** ** What [save] leaves behind *)

Lemma structuredClone_throws {I} x (w : WorldOf I) e w' :
  structuredClone x w = (Throw e, w') → e = not_clonable.
Proof.
  rewrite structuredClone_eq.
  destruct (JSON_stringify x w) as [[text|e0] w1]; [|by intros [= <- _]].
  destruct (JSON_parse text w1) as [[v|e0] w2]; [done|by intros [= <- _]].
Qed.

Lemma save_loop_throws ts : ∀ acc w e w',
  save_loop ts acc w = (Throw e, w') → e = not_clonable.
Proof.
  induction ts as [|t ts IH]; intros acc w e w'; [discriminate|].
  rewrite save_loop_cons.
  destruct (structuredClone (tuple_value t) w) as [[v|e0] w0] eqn:Hclone.
  - apply IH.
  - intros [= <- _]. by apply (structuredClone_throws _ _ _ _ Hclone).
Qed.

Lemma later_weak_lookup c (h h' : heap) k :
  later h h' →
  (∀ r, Map_get k (weakCache c) = Some r → is_Some (h !! target r)) →
  weak_lookup c h' k = weak_lookup c h k.
Proof.
  intros Hlater Halloc. unfold weak_lookup, deref.
  destruct (Map_get k (weakCache c)) as [r|]; [|done].
  by rewrite (later_is_live h h' (target r) Hlater (Halloc r eq_refl)).
Qed.

Lemma extends_live_obj_back (h0 h : heap) l c o :
  h0 ⊆ h → h0 !! l = Some c → live_obj h l = Some o → live_obj h0 l = Some o.
Proof.
  intros Hsub Hl0. unfold live_obj. by rewrite Hl0, (lookup_weaken _ _ _ _ Hl0 Hsub).
Qed.

(** Objects that [JSON.parse] built bring no callable [toJSON]. *)
Lemma only_parsed_no_toJSON (h0 h : heap) :
  h0 ⊆ h → only_parsed h0 h → no_toJSON h0 → no_toJSON h.
Proof.
  intros Hsub Hnew Hquiet l.
  destruct (toJSON h (VRef l)) as [[l' body]|] eqn:Hto; [exfalso|done].
  destruct (toJSON_Some _ _ _ _ Hto) as ([= <-] & o & f & ps & Hl & Hp & Hf).
  assert (Hin : VRef f ∈ obj_values o).
  { apply props_get_elem in Hp.
    destruct o as [props|elems|props b]; simpl in *.
    - apply list_elem_of_fmap. by exists ("toJSON", VRef f).
    - by apply elem_of_nil in Hp.
    - apply elem_of_app. left. apply list_elem_of_fmap. by exists ("toJSON", VRef f). }
  destruct (h0 !! f) as [cf|] eqn:Hf0.
  - pose proof (extends_live_obj_back _ _ _ _ _ Hsub Hf0 Hf) as Hf'.
    destruct (h0 !! l) as [cl|] eqn:Hl0.
    + pose proof (extends_live_obj_back _ _ _ _ _ Hsub Hl0 Hl) as Hl'.
      pose proof (Hquiet l) as Hq.
      by rewrite (toJSON_intro h0 l o f ps body Hl' Hp Hf') in Hq.
    + destruct (Hnew l o Hl0 Hl) as [_ Hch].
      by rewrite (Hch f Hin) in Hf0.
  - destruct (Hnew f _ Hf0 Hf) as [Hkind _]. by destruct (Hkind ps body).
Qed.

Lemma structuredClone_quiet {I} x (w : WorldOf I) :
  no_toJSON (w_heap w) →
  w_heap w ⊆ w_heap (structuredClone x w).2 ∧
  no_toJSON (w_heap (structuredClone x w).2).
Proof.
  intros Hquiet. rewrite structuredClone_eq, JSON_stringify_eq.
  destruct (SerializeJSONProperty (S (size (w_heap w))) [] x (w_heap w))
    as [[[text|e] h']|] eqn:Hser; [| |done];
    rewrite (SerializeJSONProperty_quiet _ _ _ _ _ _ Hquiet Hser); [|done].
  destruct text as [j|]; [|done].
  rewrite JSON_parse_text. simpl.
  pose proof (InternalizeJSON_extends j (w_heap w)) as Hext.
  split; [done|].
  apply (only_parsed_no_toJSON (w_heap w)); [done| |done].
  apply InternalizeJSON_new_cells.
Qed.

Lemma save_loop_quiet ts : ∀ acc (w : World),
  no_toJSON (w_heap w) → w_heap w ⊆ w_heap (save_loop ts acc w).2.
Proof.
  induction ts as [|t ts IH]; intros acc w Hquiet; [done|].
  rewrite save_loop_cons.
  destruct (structuredClone_quiet (tuple_value t) w Hquiet) as [Hext Hquiet'].
  destruct (structuredClone (tuple_value t) w) as [[v|e] w1]; [|done].
  etrans; [exact Hext|]. by apply IH.
Qed.


Lemma no_toJSON_check (h : heap) :
  map_Forall (λ l _, toJSON h (VRef l) = None) h → no_toJSON h.
Proof.
  intros Hall l. destruct (h !! l) as [c|] eqn:Hl.
  - by apply (Hall l c).
  - unfold toJSON, live_obj. by rewrite Hl.
Qed.

Lemma w_function_quiet : no_toJSON (w_heap w_function).
Proof.
  apply no_toJSON_check.
  apply (bool_decide_unpack _). by vm_compute.
Defined.


(** With a [toJSON] method [save] does write: the method of
    [{n: 1, toJSON() { this.n = 2; return this; }}] is called on the entity
    of the cache, which is [{n: 2, ...}] afterwards, as is the copy. *)
Lemma save_calls_toJSON :
  live_obj (w_heap w_toJSON_writes) 1%positive
    = Some (OObj [("n", VNum 1); ("toJSON", VRef 2%positive)]) ∧
  (save w_toJSON_writes).1 =
    Ok [{| tuple_key := "k"; tuple_value := VRef 3%positive; tuple_state := None |}] ∧
  live_obj (w_heap (save w_toJSON_writes).2) 1%positive
    = Some (OObj [("n", VNum 2); ("toJSON", VRef 2%positive)]) ∧
  live_obj (w_heap (save w_toJSON_writes).2) 3%positive = Some (OObj [("n", VNum 2)]).
Proof. vm_compute. done. Qed.

(** A [toJSON] that returns [undefined] leaves no text to parse: [save] of
    [{toJSON: function(){}, n: 1}] rejects; and a function that carries a
    [toJSON] is written as what the method returns: [save] resolves. *)
Lemma save_follows_toJSON :
  (save w_toJSON_undefined).1 = Throw not_clonable ∧
  (save w_function_toJSON).1 =
    Ok [{| tuple_key := "k"; tuple_value := VStr "f"; tuple_state := None |}].
Proof. vm_compute. done. Qed.

(** X6 -- the only exception [save] rejects with is the [Error] of the
    module's [structuredClone], whatever made the JSON round trip fail
    (the [TypeError] of a cyclic structure, the [SyntaxError] of parsing
    [undefined]); the same holds for [structuredClone] itself. *)
Theorem save_rejects_with_not_clonable (w : World) :
  (∀ e w', save w = (Throw e, w') → e = not_clonable) ∧
  (∀ x e w', structuredClone x w = (Throw e, w') → e = not_clonable ∧ this w' = this w).
Proof.
  split.
  - intros e w'. rewrite save_eq. apply save_loop_throws.
  - intros x e w' Hclone. split; [by apply (structuredClone_throws x w e w')|].
    pose proof (structuredClone_world x w) as [Hthis _]. by rewrite Hclone in Hthis.
Qed.

Lemma save_rejects_with_not_clonable_witness :
  ∃ e w', save w_cyclic = (Throw e, w') ∧ e = not_clonable.
Proof.
  eexists _, _. split; [vm_compute; reflexivity|].
  eapply (proj1 (save_rejects_with_not_clonable w_cyclic)).
  vm_compute. reflexivity.
Defined.

Lemma structuredClone_function {I} l ps body (w : WorldOf I) :
  live_obj (w_heap w) l = Some (OFunction ps body) →
  toJSON (w_heap w) (VRef l) = None →
  (structuredClone (VRef l) w).1 = Throw not_clonable.
Proof.
  intros Hl Hto. rewrite structuredClone_eq, JSON_stringify_eq.
  assert (SerializeJSONProperty (S (size (w_heap w))) [] (VRef l) (w_heap w)
          = Some (Ok None, w_heap w)) as ->; [|done].
  simpl. unfold serialize_value. by rewrite Hto, Hl.
Qed.

Lemma save_loop_function ts : ∀ acc (w : World),
  no_toJSON (w_heap w) →
  (∃ t l ps body, t ∈ ts ∧ tuple_value t = VRef l ∧
                  live_obj (w_heap w) l = Some (OFunction ps body)) →
  (save_loop ts acc w).1 = Throw not_clonable.
Proof.
  induction ts as [|t ts IH]; intros acc w Hquiet (t0 & l & ps & body & Hin & Hv & Hl).
  { by apply elem_of_nil in Hin. }
  rewrite save_loop_cons.
  destruct (structuredClone_quiet (tuple_value t) w Hquiet) as [Hext Hquiet'].
  destruct (structuredClone (tuple_value t) w) as [[v|e] w1] eqn:Hclone.
  - apply elem_of_cons in Hin as [->|Hin].
    + pose proof (structuredClone_function l ps body w Hl (Hquiet l)) as Hthrow.
      rewrite Hv, Hthrow in Hclone || (rewrite Hv in Hclone; rewrite Hclone in Hthrow).
      all: simpl in *; discriminate.
    + apply IH; [done|]. exists t0, l, ps, body. split_and!; [done|done|].
      by apply (extends_live_obj (w_heap w)).
  - simpl. f_equal. by apply (structuredClone_throws _ _ _ _ Hclone).
Qed.

(** X7 -- the documented failure of [save]: in a cache where no object has
    a [toJSON] method, when [get] returns a function for some key that
    iteration yields, [save] rejects with the not-clonable [Error],
    whatever else the cache holds. *)
Theorem save_rejects_function_entry (w : World) (k : string) (l : loc)
    (ps : list (string * jsval)) (body : code) :
  no_toJSON (w_heap w) →
  k ∈ Map_keys (weakCache (this w)) →
  get k w = (Ok (VRef l), w) →
  live_obj (w_heap w) l = Some (OFunction ps body) →
  (save w).1 = Throw not_clonable.
Proof.
  intros Hquiet Hk Hget Hl. rewrite get_eq in Hget. injection Hget as Hlook.
  rewrite save_eq. apply save_loop_function; [done|].
  apply list_elem_of_fmap in Hk as ([k0 r0] & -> & Hin).
  exists {| tuple_key := k0; tuple_value := weak_lookup (this w) (w_heap w) k0;
            tuple_state := None |}, l, ps, body.
  split_and!; [|done|done].
  unfold tuples_of. apply list_elem_of_fmap. by exists (k0, r0).
Qed.

Lemma w_function_value_quiet : no_toJSON (w_heap w_function_value).
Proof.
  apply no_toJSON_check.
  apply (bool_decide_unpack _). by vm_compute.
Defined.

Lemma save_rejects_function_entry_witness :
  (save w_function_value).1 = Throw not_clonable.
Proof.
  apply (save_rejects_function_entry w_function_value "k" 1%positive []
           {| assigns := []; completes := Returns VUndefined |}).
  - exact w_function_value_quiet.
  - apply list_elem_of_singleton. reflexivity.
  - reflexivity.
  - reflexivity.
Defined.

(** ** The values [save] returns are made of new objects *)

Lemma InternalizeJSON_made_new : ∀ j (h h0 h' : heap),
  dom h0 ⊆ dom h →
  (∀ l c, h !! l = None → (InternalizeJSON j h).2 !! l = Some c → h' !! l = Some c) →
  made_new h0 h' (InternalizeJSON j h).1.
Proof.
  induction j as [ |b|n|s|items IH|members IH] using json_nested_ind;
    intros h h0 h' Hh0 Hh'; try constructor.
  - rewrite InternalizeJSON_arr in Hh' |- *.
    assert (Haux : ∀ hs, dom h0 ⊆ dom hs →
      (∀ l c, hs !! l = None →
              (internalize_items InternalizeJSON items hs).2 !! l = Some c →
              h' !! l = Some c) →
      Forall (made_new h0 h') (internalize_items InternalizeJSON items hs).1).
    { clear h Hh0 Hh'. induction IH as [|j items Hj _ IHitems]; intros hs Hhs Hend.
      { constructor. }
      simpl in Hend |- *.
      pose proof (InternalizeJSON_extends j hs) as Hext.
      specialize (Hj hs h0 h' Hhs).
      destruct (InternalizeJSON j hs) as [v ha]. cbn [fst snd] in *.
      pose proof (internalize_items_extends items ha) as Hext'.
      specialize (IHitems ha).
      destruct (internalize_items InternalizeJSON items ha) as [vs hb].
      cbn [fst snd] in *. constructor.
      - apply Hj. intros l c Hl Hc. apply Hend; [done|].
        by apply (lookup_weaken _ _ _ _ Hc Hext').
      - apply IHitems.
        + etrans; [exact Hhs|]. by apply subseteq_dom.
        + intros l c Hl Hc. apply Hend; [|done].
          by apply (lookup_weaken_None hs ha). }
    specialize (Haux h Hh0).
    pose proof (internalize_items_extends items h) as Hext.
    destruct (internalize_items InternalizeJSON items h) as [vs h1].
    cbn [fst snd] in *.
    pose proof (alloc_fresh (OArr vs) h1) as Hfresh.
    pose proof (alloc_lookup (OArr vs) h1) as Hlook.
    pose proof (alloc_extends (OArr vs) h1) as Hext1.
    destruct (alloc (OArr vs) h1) as [l h2]. cbn [fst snd] in *.
    apply (made_new_ref _ _ l (OArr vs)).
    + apply not_elem_of_dom. intros Hin. apply Hh0 in Hin.
      apply (subseteq_dom _ _ Hext) in Hin. by apply not_elem_of_dom in Hfresh.
    + unfold live_obj. rewrite (Hh' l (Live (OArr vs))); [done| |].
      * by apply (lookup_weaken_None h h1).
      * by rewrite Hlook, decide_True.
    + apply Haux. intros l' c Hl' Hc. apply Hh'; [done|].
      by apply (lookup_weaken _ _ _ _ Hc Hext1).
  - rewrite InternalizeJSON_obj in Hh' |- *.
    assert (Haux : ∀ hs, dom h0 ⊆ dom hs →
      (∀ l c, hs !! l = None →
              (internalize_members InternalizeJSON members hs).2 !! l = Some c →
              h' !! l = Some c) →
      Forall (made_new h0 h') (internalize_members InternalizeJSON members hs).1.*2).
    { clear h Hh0 Hh'. induction IH as [|[k j] members Hj _ IHmembers];
        intros hs Hhs Hend.
      { constructor. }
      simpl in Hend, Hj |- *.
      pose proof (InternalizeJSON_extends j hs) as Hext.
      specialize (Hj hs h0 h' Hhs).
      destruct (InternalizeJSON j hs) as [v ha]. cbn [fst snd] in *.
      pose proof (internalize_members_extends members ha) as Hext'.
      specialize (IHmembers ha).
      destruct (internalize_members InternalizeJSON members ha) as [ps hb].
      cbn [fst snd] in *. constructor.
      - apply Hj. intros l c Hl Hc. apply Hend; [done|].
        by apply (lookup_weaken _ _ _ _ Hc Hext').
      - apply IHmembers.
        + etrans; [exact Hhs|]. by apply subseteq_dom.
        + intros l c Hl Hc. apply Hend; [|done].
          by apply (lookup_weaken_None hs ha). }
    specialize (Haux h Hh0).
    pose proof (internalize_members_extends members h) as Hext.
    destruct (internalize_members InternalizeJSON members h) as [ps h1].
    cbn [fst snd] in *.
    pose proof (alloc_fresh (OObj ps) h1) as Hfresh.
    pose proof (alloc_lookup (OObj ps) h1) as Hlook.
    pose proof (alloc_extends (OObj ps) h1) as Hext1.
    destruct (alloc (OObj ps) h1) as [l h2]. cbn [fst snd] in *.
    apply (made_new_ref _ _ l (OObj ps)).
    + apply not_elem_of_dom. intros Hin. apply Hh0 in Hin.
      apply (subseteq_dom _ _ Hext) in Hin. by apply not_elem_of_dom in Hfresh.
    + unfold live_obj. rewrite (Hh' l (Live (OObj ps))); [done| |].
      * by apply (lookup_weaken_None h h1).
      * by rewrite Hlook, decide_True.
    + apply Haux. intros l' c Hl' Hc. apply Hh'; [done|].
      by apply (lookup_weaken _ _ _ _ Hc Hext1).
Qed.

Lemma structuredClone_made_new {I} x (w : WorldOf I) v w' :
  structuredClone x w = (Ok v, w') →
  ∀ h0 h' : heap,
    dom h0 ⊆ dom (w_heap w) →
    (∀ l c, w_heap w !! l = None → w_heap w' !! l = Some c → h' !! l = Some c) →
    made_new h0 h' v.
Proof.
  rewrite structuredClone_eq, JSON_stringify_eq.
  destruct (SerializeJSONProperty (S (size (w_heap w))) [] x (w_heap w))
    as [[[[j|]|e] hs]|] eqn:Hser; try done.
  rewrite JSON_parse_text. cbn [w_heap this]. intros [= <- <-] h0 h' Hh0 Hh'.
  pose proof (SerializeJSONProperty_dom _ _ _ _ _ _ Hser) as Hdom.
  apply (InternalizeJSON_made_new j hs); [by rewrite Hdom|].
  intros l c Hl Hc. apply Hh'; [|done].
  apply not_elem_of_dom. rewrite <- Hdom. by apply not_elem_of_dom.
Qed.

(** The objects [JSON.parse] built have no callable [toJSON], so a later
    [structuredClone] leaves them as they are. *)
Lemma only_parsed_toJSON (h0 h : heap) l :
  only_parsed h0 h → h0 !! l = None → toJSON h (VRef l) = None.
Proof.
  intros Hnew Hl0.
  destruct (toJSON h (VRef l)) as [[l' body]|] eqn:Hto; [exfalso|done].
  destruct (toJSON_Some _ _ _ _ Hto) as ([= <-] & o & f & ps & Hl & Hp & Hf).
  destruct (Hnew l o Hl0 Hl) as [_ Hch].
  assert (Hin : VRef f ∈ obj_values o).
  { apply props_get_elem in Hp.
    destruct o as [props|elems|props b]; simpl in *.
    - apply list_elem_of_fmap. by exists ("toJSON", VRef f).
    - by apply elem_of_nil in Hp.
    - apply elem_of_app. left. apply list_elem_of_fmap. by exists ("toJSON", VRef f). }
  destruct (Hnew f _ (Hch f Hin) Hf) as [Hkind _]. by destruct (Hkind ps body).
Qed.

Lemma structuredClone_new_cells {I} x (w : WorldOf I) (h0 : heap) :
  dom h0 ⊆ dom (w_heap w) →
  only_parsed h0 (w_heap w) →
  dom h0 ⊆ dom (w_heap (structuredClone x w).2) ∧
  only_parsed h0 (w_heap (structuredClone x w).2) ∧
  (∀ l c, h0 !! l = None → w_heap w !! l = Some c →
          w_heap (structuredClone x w).2 !! l = Some c).
Proof.
  intros Hh0 Hnew. rewrite structuredClone_eq, JSON_stringify_eq.
  assert (Hstr : ∀ r hs,
    SerializeJSONProperty (S (size (w_heap w))) [] x (w_heap w) = Some (r, hs) →
    dom h0 ⊆ dom hs ∧ only_parsed h0 hs ∧
    (∀ l c, h0 !! l = None → w_heap w !! l = Some c → hs !! l = Some c)).
  { intros r hs Hser.
    pose proof (SerializeJSONProperty_dom _ _ _ _ _ _ Hser) as Hdom.
    pose proof (SerializeJSONProperty_touches _ _ _ _ _ _ Hser) as Hsame.
    assert (Hkeep : ∀ l, h0 !! l = None → hs !! l = w_heap w !! l).
    { intros l Hl. apply Hsame. by apply (only_parsed_toJSON h0). }
    split_and!.
    - by rewrite Hdom.
    - intros l o Hl Ho. apply (Hnew l o Hl). unfold live_obj in *.
      by rewrite <- (Hkeep l Hl).
    - intros l c Hl Hc. by rewrite (Hkeep l Hl). }
  destruct (SerializeJSONProperty (S (size (w_heap w))) [] x (w_heap w))
    as [[[text|e] hs]|] eqn:Hser; [| |by split_and!];
    destruct (Hstr _ _ eq_refl) as (Hd & Hp & Hk); [|by split_and!].
  destruct text as [j|]; [|by split_and!].
  rewrite JSON_parse_text. cbn [w_heap this snd].
  pose proof (InternalizeJSON_extends j hs) as Hext.
  destruct (InternalizeJSON_new_cells j hs) as [_ Hcells].
  split_and!.
  - etrans; [exact Hd|]. by apply subseteq_dom.
  - intros l o Hl Ho. destruct (hs !! l) as [c|] eqn:Hls.
    + apply (Hp l o Hl).
      by apply (extends_live_obj_back hs (InternalizeJSON j hs).2 l c).
    + destruct (Hcells l o Hls Ho) as [Hkind Hch]. split; [done|].
      intros f Hf. apply not_elem_of_dom. intros Hin. apply Hd in Hin.
      apply elem_of_dom in Hin as [cf Hcf]. by rewrite (Hch f Hf) in Hcf.
  - intros l c Hl Hc. apply (lookup_weaken hs); [|done]. by apply Hk.
Qed.

Lemma save_loop_made_new (h0 : heap) ts : ∀ acc (w : World) out w',
  save_loop ts acc w = (Ok out, w') →
  dom h0 ⊆ dom (w_heap w) →
  only_parsed h0 (w_heap w) →
  Forall (λ t, ∀ h' : heap,
            (∀ l c, h0 !! l = None → w_heap w !! l = Some c → h' !! l = Some c) →
            made_new h0 h' (tuple_value t)) acc →
  Forall (λ t, made_new h0 (w_heap w') (tuple_value t)) out.
Proof.
  induction ts as [|t ts IH]; intros acc w out w' Hrun Hh0 Hnew Hacc.
  - cbn in Hrun. injection Hrun as <- <-.
    eapply Forall_impl; [exact Hacc|]. intros t Ht. by apply Ht.
  - rewrite save_loop_cons in Hrun.
    destruct (structuredClone_new_cells (tuple_value t) w h0 Hh0 Hnew)
      as (Hh0' & Hnew' & Hkeep).
    destruct (structuredClone (tuple_value t) w) as [[v|e] w1] eqn:Hclone;
      [|discriminate]. cbn [snd] in *.
    apply (IH _ _ _ _ Hrun Hh0' Hnew').
    apply Forall_app. split.
    + eapply Forall_impl; [exact Hacc|]. intros t0 Ht0 h' Hh'.
      apply Ht0. intros l c Hl Hc. apply Hh'; [done|]. by apply Hkeep.
    + apply Forall_singleton. intros h' Hh'. simpl.
      apply (structuredClone_made_new _ _ _ _ Hclone); [done|].
      intros l c Hl Hc. apply Hh'; [|done].
      apply not_elem_of_dom. intros Hin. apply Hh0 in Hin.
      by apply not_elem_of_dom in Hl.
Qed.

Lemma only_parsed_refl (h : heap) : only_parsed h h.
Proof. intros l o Hl Ho. unfold live_obj in Ho. by rewrite Hl in Ho. Qed.

Lemma children_obj_values o l : l ∈ children o → VRef l ∈ obj_values o.
Proof.
  assert (Hprops : ∀ props : list (string * jsval),
            l ∈ props ≫= (λ p, val_refs p.2) → VRef l ∈ props.*2).
  { intros props ([k v] & Hl & Hin)%list_elem_of_bind. simpl in Hl.
    destruct v; try by apply elem_of_nil in Hl.
    apply list_elem_of_singleton in Hl as ->.
    apply list_elem_of_fmap. by exists (k, VRef l0). }
  assert (Hvals : ∀ vs : list jsval, l ∈ vs ≫= val_refs → VRef l ∈ vs).
  { intros vs (v & Hl & Hin)%list_elem_of_bind.
    destruct v; try by apply elem_of_nil in Hl.
    by apply list_elem_of_singleton in Hl as ->. }
  destruct o as [props|elems|props body]; simpl.
  - apply Hprops.
  - apply Hvals.
  - intros [Hl|Hl]%elem_of_app; apply elem_of_app; [left|right]; auto.
Qed.

Lemma made_new_reachable (h0 h : heap) v l :
  made_new h0 h v → reachable h (val_refs v) l → made_new h0 h (VRef l).
Proof.
  intros Hv. induction 1 as [l Hroot|l o l' _ IH Hl Hchild].
  - destruct v; try by apply elem_of_nil in Hroot.
    by apply list_elem_of_singleton in Hroot as ->.
  - inversion IH as [ | | | | | |l0 o0 _ Hl0 Hvals]; subst.
    assert (o0 = o) as -> by congruence.
    apply (proj1 (Forall_forall _ _) Hvals). by apply children_obj_values.
Qed.

(** X8 -- the copies [save] returns share nothing with the cache: when
    [save] resolves, no object that existed before the call can be reached
    from the value of any tuple it returns. *)
Theorem save_returns_new_objects (w : World) (ts : list CacheTuple) (w' : World) :
  save w = (Ok ts, w') →
  Forall (λ t, made_new (w_heap w) (w_heap w') (tuple_value t) ∧
               ∀ l, reachable (w_heap w') (val_refs (tuple_value t)) l →
                    w_heap w !! l = None) ts.
Proof.
  intros Hsave. rewrite save_eq in Hsave.
  pose proof (save_loop_made_new (w_heap w) _ _ _ _ _ Hsave) as Hnew.
  eapply Forall_impl; [apply Hnew; [done|apply only_parsed_refl|constructor]|].
  intros t Ht. split; [done|]. intros l Hl.
  pose proof (made_new_reachable _ _ _ _ Ht Hl) as Href.
  by inversion Href.
Qed.

Lemma save_returns_new_objects_witness :
  ∃ ts w', save w_frame = (Ok ts, w') ∧
           Forall (λ t, made_new (w_heap w_frame) (w_heap w') (tuple_value t)) ts.
Proof.
  eexists _, _. split; [vm_compute; reflexivity|].
  eapply Forall_impl.
  - apply (save_returns_new_objects w_frame). vm_compute. reflexivity.
  - intros t [Ht _]. exact Ht.
Defined.

(** ** The two tiers in every reachable world *)

Lemma Map_set_fmap {A B} (f : A → B) k (v : A) (m : JsMap A) :
  Map_set k (f v) (map (λ kv : string * A, (kv.1, f kv.2)) m) =
  map (λ kv : string * A, (kv.1, f kv.2)) (Map_set k v m).
Proof.
  induction m as [|[k0 v0] m IH]; simpl; [done|].
  destruct (decide (k0 = k)); simpl; [done|]. by rewrite IH.
Qed.

Lemma install_mirrors k l w :
  lru_mirrors (this w) → lru_mirrors (this (install k l w)).
Proof.
  unfold lru_mirrors. simpl. intros ->.
  apply (Map_set_fmap (λ r, VRef (target r)) k {| target := l |}).
Qed.

Lemma install_all_mirrors es : ∀ w,
  lru_mirrors (this w) → lru_mirrors (this (install_all es w)).
Proof.
  induction es as [|e es IH]; intros w Hw; [done|].
  rewrite install_all_cons. apply IH. unfold install_entry.
  destruct (entry_value e); try done. by apply install_mirrors.
Qed.

Lemma step_this_or_load a b :
  step a b → this b = this a ∨ ∃ es, this b = this (install_all (loadable_prefix es) a).
Proof.
  intros Hstep. destruct Hstep as
    [es w r w' Hlive Hload|k w r w' Hget|w r w' Hsave|w h' Hlive Hdead|w D Hgc].
  - right. exists es. rewrite load_eq in Hload. by injection Hload as _ <-.
  - left. rewrite get_eq in Hget. by injection Hget as _ <-.
  - left. pose proof (save_world w) as [Hthis _]. by rewrite Hsave in Hthis.
  - by left.
  - by left.
Qed.

Lemma steps_mirrors a b :
  rtc step a b → lru_mirrors (this a) → lru_mirrors (this b).
Proof.
  induction 1 as [a|a b c Hab _ IH]; [done|]. intros Ha. apply IH.
  destruct (step_this_or_load a b Hab) as [->|[es ->]]; [done|].
  by apply install_all_mirrors.
Qed.

Lemma mirrors_keys c : lru_mirrors c → Map_keys (lru c) = Map_keys (weakCache c).
Proof.
  unfold lru_mirrors, Map_keys. intros ->. rewrite <- list_fmap_compose.
  by apply list_fmap_ext.
Qed.

(** X9 -- in every world a program can reach, [#lru] is the strong twin
    of [#weakCache]: entry by entry, in the same order, it holds under each
    key the very object the weak reference of that key points to; so both
    maps have the same keys, each once. *)
Theorem lru_is_the_strong_twin (w : World) :
  reachable_world w →
  lru (this w) =
    map (λ kr : string * WeakRef, (kr.1, VRef (target kr.2))) (weakCache (this w)) ∧
  Map_keys (lru (this w)) = Map_keys (weakCache (this w)) ∧
  Map_size (lru (this w)) = Map_size (weakCache (this w)) ∧
  NoDup (Map_keys (weakCache (this w))).
Proof.
  intros Hreach. pose proof Hreach as [h Hsteps].
  assert (Hm : lru_mirrors (this w)) by by apply (steps_mirrors _ _ Hsteps).
  split_and!; [exact Hm|by apply mirrors_keys| |].
  - unfold Map_size. rewrite Hm. by rewrite length_map.
  - by destruct (reachable_world_inv w Hreach).
Qed.

Lemma lru_is_the_strong_twin_witness :
  reachable_world w_frame ∧
  Map_keys (lru (this w_frame)) = Map_keys (weakCache (this w_frame)).
Proof.
  split; [exact w_frame_reachable|].
  exact (proj1 (proj2 (lru_is_the_strong_twin w_frame w_frame_reachable))).
Defined.

Lemma add_new_prefix ks : ∀ acc, acc `prefix_of` add_new acc ks.
Proof.
  induction ks as [|k ks IH]; intros acc; [done|].
  unfold add_new. simpl. destruct (decide (k ∈ acc)); [apply IH|].
  etrans; [|apply IH]. by apply prefix_app_r.
Qed.

Lemma steps_keys_prefix a b :
  rtc step a b →
  Map_keys (weakCache (this a)) `prefix_of` Map_keys (weakCache (this b)).
Proof.
  induction 1 as [a|a b c Hab _ IH]; [done|]. etrans; [|exact IH].
  destruct (step_this_or_load a b Hab) as [->|[es ->]]; [done|].
  rewrite install_all_keys by apply loadable_prefix_objects.
  apply add_new_prefix.
Qed.

(** X10 -- nothing is ever removed.  Whatever a program does after a world
    [w] ([load], [get], [save], writes to objects, garbage collection), the
    keys of [w] remain, in their order, the first keys iteration yields; and
    from a reachable [w] on, a key whose weak reference resolves keeps
    resolving: [get] never goes back to [undefined] for it. *)
Theorem keys_are_never_removed (w w' : World) :
  rtc step w w' →
  Map_keys (weakCache (this w)) `prefix_of` Map_keys (weakCache (this w')) ∧
  (reachable_world w → ∀ k, resolves w k → resolves w' k).
Proof.
  intros Hsteps. split; [by apply steps_keys_prefix|].
  intros [h Hw] k (r & Hr & _).
  apply reachable_keys_resolve; [exists h; by etrans|].
  eapply elem_of_prefix; [|by apply steps_keys_prefix].
  apply Map_get_is_Some. by exists r.
Qed.

Lemma keys_are_never_removed_witness :
  rtc step (fresh_cache (w_heap w_frame)) w_frame ∧
  Map_keys (weakCache (this (fresh_cache (w_heap w_frame))))
    `prefix_of` Map_keys (weakCache (this w_frame)).
Proof.
  assert (Hsteps : rtc step (fresh_cache (w_heap w_frame)) w_frame).
  { apply rtc_once.
    apply (step_load [entry "u:1" (VRef 1%positive)] _ (Ok tt)).
    - intros e l ->%list_elem_of_singleton [= <-]. reflexivity.
    - reflexivity. }
  split; [exact Hsteps|].
  exact (proj1 (keys_are_never_removed _ _ Hsteps)).
Defined.

(** ** Copies of entities that JSON can express *)

(** X11 -- for a cache whose entities are all expressible in JSON (finite
    trees of plain objects, arrays, [null], booleans, numbers and strings),
    [save] resolves with one tuple per key, in iteration order; the value of
    each tuple is structurally equal to what [get] returns for its key and
    is made of new objects only. *)
Theorem save_returns_equal_copies (w : World) :
  json_expressible w →
  ∃ ts w',
    save w = (Ok ts, w') ∧
    keys w = (Ok (map tuple_key ts), w) ∧
    Forall (λ t, ∃ v j,
              get (tuple_key t) w = (Ok v, w) ∧
              denotes (w_heap w) v j ∧
              denotes (w_heap w') (tuple_value t) j ∧
              made_new (w_heap w) (w_heap w') (tuple_value t)) ts.
Proof.
  intros Hexp.
  destruct (save_copies_expressible w Hexp) as (ts & w' & Hsave & _ & _ & Hkeys & Hts).
  exists ts, w'. split_and!; [done|by rewrite keys_eq, Hkeys|].
  assert (Hnew : Forall (λ t, made_new (w_heap w) (w_heap w') (tuple_value t)) ts).
  { rewrite save_eq in Hsave.
    apply (save_loop_made_new (w_heap w) _ _ _ _ _ Hsave);
      [done|apply only_parsed_refl|constructor]. }
  apply Forall_forall. intros t Ht.
  pose proof (proj1 (Forall_forall _ _) Hts t Ht) as (_ & Hd & _).
  pose proof (proj1 (Forall_forall _ _) Hnew t Ht) as Hn.
  destruct (Hexp (tuple_key t)) as [j Hj].
  { rewrite <- Hkeys. apply list_elem_of_fmap. by exists t. }
  exists (weak_lookup (this w) (w_heap w) (tuple_key t)), j.
  split_and!; [apply get_eq|done|by apply Hd|done].
Qed.

Lemma w_frame_expressible : json_expressible w_frame.
Proof.
  intros k Hk. apply list_elem_of_singleton in Hk as ->.
  exists (JObj [("name", JStr "a")]).
  apply (denotes_obj _ _ [("name", VStr "a")]); [reflexivity|].
  repeat constructor.
Defined.

Lemma save_returns_equal_copies_witness :
  json_expressible w_frame ∧
  ∃ ts w', save w_frame = (Ok ts, w') ∧ keys w_frame = (Ok (map tuple_key ts), w_frame).
Proof.
  split; [exact w_frame_expressible|].
  destruct (save_returns_equal_copies w_frame w_frame_expressible)
    as (ts & w' & Hsave & Hkeys & _).
  by exists ts, w'.
Defined.

Lemma save_clear_load_unfold w ts w1 :
  save w = (Ok ts, w1) →
  save_clear_load w = load (as_entries ts) (fresh_cache (w_heap w1)).
Proof.
  intros Hsave. unfold save_clear_load, mbind, M_bind, bind.
  by rewrite Hsave, clear_is_buildCache.
Qed.

(** X12 -- copying a cache through [save] and [load].  For a cache whose
    entities are all expressible in JSON and whose keys are distinct,
    [save] resolves, and [load] of the saved tuples into a cache from
    [buildCache()] resolves too; the new cache yields the same keys in the
    same order, and under every key an entity structurally equal to the one
    of the old cache. *)
Theorem save_then_load_copies_the_cache (w : World) :
  json_expressible w →
  NoDup (Map_keys (weakCache (this w))) →
  ∃ ts w1 w2,
    save w = (Ok ts, w1) ∧
    load (as_entries ts) (fresh_cache (w_heap w1)) = (Ok tt, w2) ∧
    (keys w2).1 = (keys w).1 ∧
    ∀ k v j, k ∈ Map_keys (weakCache (this w)) →
             get k w = (Ok v, w) →
             denotes (w_heap w) v j →
             ∃ v', get k w2 = (Ok v', w2) ∧ denotes (w_heap w2) v' j.
Proof.
  intros Hexp Hnd.
  destruct (save_copies_expressible w Hexp) as (ts & w1 & Hsave & _).
  destruct (save_clear_load_expressible w Hexp Hnd) as (w2 & Hrun & Hkeys & Hvals).
  rewrite (save_clear_load_unfold w ts w1 Hsave) in Hrun.
  exists ts, w1, w2. split_and!; [done|done| |].
  - rewrite !keys_eq. cbn [fst]. by rewrite Hkeys.
  - intros k v j Hk Hget Hj. rewrite get_eq in Hget. injection Hget as <-.
    exists (weak_lookup (this w2) (w_heap w2) k). split; [apply get_eq|].
    by apply Hvals.
Qed.

Lemma save_then_load_copies_the_cache_witness :
  json_expressible w_frame ∧
  NoDup (Map_keys (weakCache (this w_frame))) ∧
  ∃ ts w1 w2,
    save w_frame = (Ok ts, w1) ∧
    load (as_entries ts) (fresh_cache (w_heap w1)) = (Ok tt, w2) ∧
    (keys w2).1 = (keys w_frame).1.
Proof.
  assert (Hnd : NoDup (Map_keys (weakCache (this w_frame)))).
  { apply NoDup_singleton. }
  split; [exact w_frame_expressible|]. split; [exact Hnd|].
  destruct (save_then_load_copies_the_cache w_frame w_frame_expressible Hnd)
    as (ts & w1 & w2 & Hsave & Hload & Hkeys & _).
  by exists ts, w1, w2.
Defined.

(** * More about the settled-tracking middleware *)

Lemma calls_of_elem f c cs : c ∈ calls_of f cs ↔ c ∈ cs ∧ call_fetch c = f.
Proof. unfold calls_of. rewrite list_elem_of_filter. tauto. Qed.

Lemma calls_of_nil_iff f cs :
  calls_of f cs = [] ↔ ∀ c, c ∈ cs → call_fetch c ≠ f.
Proof.
  split.
  - intros Hnil c Hc Hf. assert (c ∈ calls_of f cs) as Hin by by apply calls_of_elem.
    rewrite Hnil in Hin. by apply elem_of_nil in Hin.
  - intros Hall. destruct (calls_of f cs) as [|c cs'] eqn:Heq; [done|].
    assert (c ∈ calls_of f cs) as [Hc Hf]%calls_of_elem by (rewrite Heq; by left).
    by destruct (Hall c Hc).
Qed.

Lemma calls_of_snoc f c cs :
  calls_of f (cs ++ [c]) =
  if decide (call_fetch c = f) then calls_of f cs ++ [c] else calls_of f cs.
Proof.
  unfold calls_of. rewrite filter_app. simpl.
  rewrite filter_cons. destruct (decide (call_fetch c = f)); simpl.
  - by rewrite filter_nil.
  - by rewrite filter_nil, app_nil_r.
Qed.

Lemma untracked_fetch_has_no_calls r f :
  run_inv r →
  TrackingInfoPerFetch (run_tracking r) !! f = None →
  calls_of f (in_flight r) = [].
Proof.
  intros Hinv Hnone. apply calls_of_nil_iff. intros c Hc Hf.
  destruct (inv_calls r Hinv c Hc) as (Ht & _). rewrite Hf, Hnone in Ht. done.
Qed.

Lemma renew_deferred_empty f a t :
  arrays t !! a = Some [] →
  renew_deferred f a t =
  {| TrackingInfoPerFetch := TrackingInfoPerFetch t;
     arrays := arrays t;
     RequestsCompletedPromisesByToken :=
       <[f := next_object t]> (RequestsCompletedPromisesByToken t);
     resolved := resolved t;
     next_object := Pos.succ (next_object t) |}.
Proof. intros Ha. unfold renew_deferred. by rewrite Ha. Qed.

Lemma renew_deferred_nonempty f a t l :
  arrays t !! a = Some l → l ≠ [] → renew_deferred f a t = t.
Proof.
  intros Ha Hl. unfold renew_deferred. rewrite Ha. simpl.
  destruct l; [done|]. by rewrite decide_False.
Qed.

(** What entering the middleware does to the module state, in terms of the
    calls that were waiting. *)
Lemma middleware_enter_spec request f now r :
  run_inv r →
  let t := run_tracking r in
  let c := (middleware_enter request f now t).1 in
  let t' := (middleware_enter request f now t).2 in
  call_fetch c = f ∧
  TrackingInfoPerFetch t' !! f = Some (call_infos c) ∧
  (∀ g, g ≠ f → TrackingInfoPerFetch t' !! g = TrackingInfoPerFetch t !! g) ∧
  (TrackingInfoPerFetch t !! f = Some (call_infos c) ∨
   (TrackingInfoPerFetch t !! f = None ∧ (next_object t ≤ call_infos c)%positive)) ∧
  (call_infos c < next_object t')%positive ∧
  arrays t' !! call_infos c
    = Some (map call_debugInfo (calls_of f (in_flight r)) ++ [call_debugInfo c]) ∧
  (∀ b, b ≠ call_infos c → (b < next_object t)%positive →
        arrays t' !! b = arrays t !! b) ∧
  (next_object t ≤ call_id c)%positive ∧
  (call_id c < next_object t')%positive ∧
  (next_object t ≤ next_object t')%positive ∧
  resolved t' = resolved t ∧
  (calls_of f (in_flight r) = [] →
   ∃ p, RequestsCompletedPromisesByToken t' !! f = Some p ∧
        (next_object t ≤ p)%positive ∧ (p < next_object t')%positive) ∧
  (calls_of f (in_flight r) ≠ [] →
   RequestsCompletedPromisesByToken t' !! f = RequestsCompletedPromisesByToken t !! f) ∧
  (∀ g, g ≠ f →
        RequestsCompletedPromisesByToken t' !! g = RequestsCompletedPromisesByToken t !! g) ∧
  startTime (call_debugInfo c) = now ∧
  url (call_debugInfo c) = request_url request ∧
  method (call_debugInfo c) = request_method request.
Proof.
  intros Hinv t c t'. subst c t' t.
  unfold middleware_enter, find_or_create_array.
  destruct (TrackingInfoPerFetch (run_tracking r) !! f) as [a|] eqn:Hf.
  - destruct (inv_arrays r Hinv f a Hf) as [Ha Harr].
    destruct (calls_of f (in_flight r)) as [|c0 cs0] eqn:Hcalls.
    + rewrite (renew_deferred_empty f a _ Harr).
      unfold push_debugInfo, call_id. cbn. rewrite Harr. cbn.
      rewrite !lookup_insert_eq.
      split_and!; try done; try lia; try (by left).
      * intros b Hb _. by rewrite lookup_insert_ne.
      * intros _. eexists. split; [done|]. lia.
      * intros g Hg. by rewrite lookup_insert_ne.
    + rewrite (renew_deferred_nonempty f a _ _ Harr) by done.
      unfold push_debugInfo, call_id. cbn. rewrite Harr. cbn.
      rewrite !lookup_insert_eq.
      split_and!; try done; try lia; try (by left).
      intros b Hb _. by rewrite lookup_insert_ne.
  - pose proof (untracked_fetch_has_no_calls r f Hinv Hf) as Hnil.
    rewrite (renew_deferred_empty f (next_object (run_tracking r)))
      by (cbn; by rewrite lookup_insert_eq).
    unfold push_debugInfo, call_id. cbn. rewrite !lookup_insert_eq. cbn.
    rewrite Hnil. cbn.
    split_and!; try done; try lia.
    + intros g Hg. by rewrite lookup_insert_ne.
    + right. split; [done|lia].
    + intros b Hb Hlt. rewrite lookup_insert_ne by done.
      rewrite lookup_insert_ne; [done|lia].
    + intros _. eexists. split; [done|]. lia.
    + intros g Hg. by rewrite lookup_insert_ne.
Qed.
Lemma run_start_inv : run_inv run_start.
Proof.
  constructor; simpl.
  - intros f a. by rewrite lookup_empty.
  - intros f g a. by rewrite lookup_empty.
  - by intros c ?%elem_of_nil.
  - apply NoDup_nil_2.
  - intros f p. by rewrite lookup_empty.
  - intros f g p. by rewrite lookup_empty.
  - intros p. by rewrite elem_of_empty.
Qed.

Lemma run_enter_inv request f now r :
  run_inv r →
  run_inv {| run_tracking := (middleware_enter request f now (run_tracking r)).2;
             in_flight := in_flight r ++ [(middleware_enter request f now (run_tracking r)).1] |}.
Proof.
  intros Hinv.
  destruct (middleware_enter_spec request f now r Hinv)
    as (Hcf & Htf & Htg & Hold & Hca & Harr & Harrg & Hid1 & Hid2 & Hnext & Hres &
        Hdnew & Hdold & Hdg & _).
  set (c := (middleware_enter request f now (run_tracking r)).1) in *.
  set (t' := (middleware_enter request f now (run_tracking r)).2) in *.
  constructor; cbn [run_tracking in_flight].
  - (* arrays *)
    intros g b Hg. rewrite calls_of_snoc, Hcf.
    destruct (decide (f = g)) as [<-|Hne].
    + rewrite Htf in Hg. injection Hg as <-. split; [done|].
      by rewrite Harr, map_app.
    + rewrite Htg in Hg by done.
      destruct (inv_arrays r Hinv g b Hg) as [Hb Hbarr]. split; [lia|].
      rewrite Harrg; [done| |done].
      intros ->. destruct Hold as [Hold|[_ Hge]]; [|lia].
      by destruct Hne; apply (inv_arrays_inj r Hinv f g (call_infos c)).
  - (* arrays_inj *)
    intros g1 g2 b H1 H2.
    assert (Hfresh : ∀ g, g ≠ f → TrackingInfoPerFetch t' !! g = Some b →
                          b = call_infos c → f = g).
    { intros g Hg Hgb ->. rewrite Htg in Hgb by done.
      destruct (inv_arrays r Hinv g _ Hgb) as [Hlt _].
      destruct Hold as [Hold|[_ Hge]]; [|lia].
      by apply (inv_arrays_inj r Hinv f g (call_infos c)). }
    destruct (decide (g1 = f)) as [->|Hn1], (decide (g2 = f)) as [->|Hn2]; try done.
    + rewrite Htf in H1. injection H1 as <-. by apply Hfresh.
    + rewrite Htf in H2. injection H2 as <-. symmetry. by apply Hfresh.
    + rewrite Htg in H1, H2 by done. by apply (inv_arrays_inj r Hinv g1 g2 b).
  - (* calls *)
    intros c' [Hc'| ->%list_elem_of_singleton]%elem_of_app.
    + destruct (inv_calls r Hinv c' Hc') as (Ht & Hlt & Hdef).
      destruct (decide (call_fetch c' = f)) as [Hf|Hf].
      * split_and!; [|lia|].
        -- rewrite Hf, Htf. f_equal. rewrite Hf in Ht.
           destruct Hold as [Hold|[Hnone _]]; congruence.
        -- rewrite Hf, Hdold; [by rewrite <- Hf|].
           intros Hnil. apply (proj1 (calls_of_nil_iff f _) Hnil c' Hc' Hf).
      * rewrite Htg, Hdg by done. split_and!; [done|lia|done].
    + rewrite Hcf. split_and!; [done|done|].
      destruct (calls_of f (in_flight r)) as [|c0 cs0] eqn:Hcalls.
      * destruct (Hdnew eq_refl) as (p & -> & _). by eexists.
      * rewrite Hdold by done.
        assert (c0 ∈ calls_of f (in_flight r)) as [Hc0 Hf0]%calls_of_elem
          by (rewrite Hcalls; by left).
        destruct (inv_calls r Hinv c0 Hc0) as (_ & _ & Hdef). by rewrite Hf0 in Hdef.
  - (* ids *)
    rewrite map_app. apply NoDup_app. split_and!.
    + apply (inv_ids r Hinv).
    + intros i (c' & -> & Hc')%list_elem_of_fmap ?%list_elem_of_singleton.
      destruct (inv_calls r Hinv c' Hc') as (_ & Hlt & _). lia.
    + apply NoDup_singleton.
  - (* deferred *)
    intros g p Hg. rewrite Hres, calls_of_snoc, Hcf.
    destruct (decide (f = g)) as [<-|Hne].
    + destruct (calls_of f (in_flight r)) as [|c0 cs0] eqn:Hcalls.
      * destruct (Hdnew eq_refl) as (p' & Hp' & Hge & Hlt).
        rewrite Hp' in Hg. injection Hg as <-. split; [done|]. split.
        -- intros Hin. apply (inv_resolved r Hinv) in Hin. lia.
        -- intros Heq. simpl in Heq. discriminate.
      * rewrite Hdold in Hg by done.
        destruct (inv_deferred r Hinv f p Hg) as [Hlt Hiff]. split; [lia|].
        rewrite Hcalls in Hiff. split; [|done]. intros Hin.
        by apply Hiff in Hin.
    + rewrite Hdg in Hg by done.
      destruct (inv_deferred r Hinv g p Hg) as [Hlt Hiff]. split; [lia|done].
  - (* deferred_inj *)
    intros g1 g2 p H1 H2.
    assert (Hfresh : ∀ g, g ≠ f → RequestsCompletedPromisesByToken t' !! g = Some p →
                          RequestsCompletedPromisesByToken t' !! f = Some p → f = g).
    { intros g Hg Hgp Hfp. rewrite Hdg in Hgp by done.
      destruct (inv_deferred r Hinv g p Hgp) as [Hlt _].
      destruct (calls_of f (in_flight r)) as [|c0 cs0] eqn:Hcalls.
      - destruct (Hdnew eq_refl) as (p' & Hp' & Hge & _).
        rewrite Hp' in Hfp. injection Hfp as ->. lia.
      - rewrite Hdold in Hfp by done.
        by apply (inv_deferred_inj r Hinv f g p). }
    destruct (decide (g1 = f)) as [->|Hn1], (decide (g2 = f)) as [->|Hn2]; try done.
    + by apply Hfresh.
    + symmetry. by apply Hfresh.
    + rewrite Hdg in H1, H2 by done. by apply (inv_deferred_inj r Hinv g1 g2 p).
  - (* resolved *)
    intros p. rewrite Hres. intros Hp%(inv_resolved r Hinv). lia.
Qed.
Lemma without_cons c c0 cs :
  without c (c0 :: cs) =
  if decide (call_id c0 ≠ call_id c) then c0 :: without c cs else without c cs.
Proof. unfold without, call_id. by rewrite filter_cons. Qed.

Lemma calls_of_cons f c0 cs :
  calls_of f (c0 :: cs) =
  if decide (call_fetch c0 = f) then c0 :: calls_of f cs else calls_of f cs.
Proof. unfold calls_of. by rewrite filter_cons. Qed.

Lemma without_absent c cs : call_id c ∉ map call_id cs → without c cs = cs.
Proof.
  induction cs as [|c0 cs IH]; [done|]. simpl.
  intros [Hne Hnin]%not_elem_of_cons.
  rewrite without_cons, decide_True by done. by rewrite IH.
Qed.

Lemma without_elem c c' cs : c' ∈ without c cs ↔ c' ∈ cs ∧ call_id c' ≠ call_id c.
Proof. unfold without, call_id. rewrite list_elem_of_filter. tauto. Qed.

(** The [findIndex] and [splice] of the [finally] block, on the array of
    the fetch of a waiting call. *)
Lemma exit_find cs c f :
  NoDup (map call_id cs) → c ∈ cs → call_fetch c = f →
  ∃ i, list_find (λ item, info_id item = info_id (call_debugInfo c))
                 (map call_debugInfo (calls_of f cs))
       = Some (i, call_debugInfo c) ∧
       delete i (map call_debugInfo (calls_of f cs))
       = map call_debugInfo (calls_of f (without c cs)).
Proof.
  intros Hnd Hc Hf. induction cs as [|c0 cs IH]; [by apply elem_of_nil in Hc|].
  simpl in Hnd. apply NoDup_cons in Hnd as [Hnin Hnd].
  rewrite calls_of_cons, without_cons.
  destruct (decide (call_id c0 = call_id c)) as [Hid|Hid].
  - assert (c = c0) as <-.
    { apply elem_of_cons in Hc as [->|Hc]; [done|]. destruct Hnin.
      rewrite Hid. apply list_elem_of_fmap. by exists c. }
    rewrite (decide_True (P := call_fetch c = f)) by done.
    rewrite (decide_False (P := call_id c ≠ call_id c)) by (intros H; by apply H).
    simpl.
    rewrite decide_True by done. exists 0%nat. split; [done|]. simpl.
    by rewrite without_absent.
  - assert (c ∈ cs) as Hc'.
    { apply elem_of_cons in Hc as [->|Hc]; [done|done]. }
    destruct (IH Hnd Hc') as (i & Hfind & Hdel).
    rewrite (decide_True (P := call_id c0 ≠ call_id c)) by done.
    rewrite calls_of_cons.
    destruct (decide (call_fetch c0 = f)) as [Hf0|Hf0].
    + exists (S i). simpl. rewrite decide_False by done.
      rewrite Hfind. simpl. split; [done|]. by rewrite Hdel.
    + exists i. by split.
Qed.

(** What the [finally] block of a waiting call does to the module state. *)
Lemma middleware_exit_spec c r :
  run_inv r → c ∈ in_flight r →
  let t := run_tracking r in
  let t' := (middleware_exit c t).2 in
  (middleware_exit c t).1 = Ok tt ∧
  TrackingInfoPerFetch t' = TrackingInfoPerFetch t ∧
  RequestsCompletedPromisesByToken t' = RequestsCompletedPromisesByToken t ∧
  next_object t' = next_object t ∧
  arrays t' = <[call_infos c :=
                  map call_debugInfo (calls_of (call_fetch c) (without c (in_flight r)))]>
                (arrays t) ∧
  (∀ p, p ∈ resolved t' ↔
        p ∈ resolved t ∨
        (calls_of (call_fetch c) (without c (in_flight r)) = [] ∧
         RequestsCompletedPromisesByToken t !! call_fetch c = Some p)).
Proof.
  intros Hinv Hc t t'. subst t t'.
  destruct (inv_calls r Hinv c Hc) as (Ht & _ & [p Hp]).
  destruct (inv_arrays r Hinv _ _ Ht) as [_ Harr].
  destruct (exit_find (in_flight r) c (call_fetch c) (inv_ids r Hinv) Hc eq_refl)
    as (i & Hfind & Hdel).
  unfold middleware_exit. rewrite Harr. cbn [default from_option id]. rewrite Hfind, Hdel.
  destruct (decide (List.length (map call_debugInfo
              (calls_of (call_fetch c) (without c (in_flight r)))) = 0%nat))
    as [Hlen|Hlen].
  - apply length_zero_iff_nil in Hlen. pose proof (fmap_nil_inv _ _ Hlen) as Hnil.
    cbn. rewrite Hp. cbn. split_and!; try done.
    intros q. rewrite elem_of_union, elem_of_singleton. split.
    + intros [->|Hq]; [right|by left]. by split.
    + intros [Hq|[_ Hq]]; [by right|left]. congruence.
  - cbn. split_and!; try done.
    intros q. split; [by left|]. intros [Hq|[Hnil _]]; [done|].
    rewrite Hnil in Hlen. done.
Qed.
Lemma same_call_id cs c c' :
  NoDup (map call_id cs) → c ∈ cs → c' ∈ cs → call_id c' = call_id c → c' = c.
Proof.
  induction cs as [|c0 cs IH]; [by intros _ ?%elem_of_nil|].
  simpl. intros [Hnin Hnd]%NoDup_cons Hc Hc' Hid.
  apply elem_of_cons in Hc as [->|Hc]; apply elem_of_cons in Hc' as [->|Hc'].
  - done.
  - destruct Hnin. rewrite <- Hid. apply list_elem_of_fmap. by exists c'.
  - destruct Hnin. rewrite Hid. apply list_elem_of_fmap. by exists c.
  - by apply IH.
Qed.

Lemma without_NoDup c cs :
  NoDup (map call_id cs) → NoDup (map call_id (without c cs)).
Proof.
  induction cs as [|c0 cs IH]; [done|]. simpl.
  intros [Hnin Hnd]%NoDup_cons. rewrite without_cons.
  destruct (decide (call_id c0 ≠ call_id c)); [|by apply IH].
  simpl. apply NoDup_cons. split; [|by apply IH].
  intros (c' & Hid & [Hc' _]%without_elem)%list_elem_of_fmap.
  apply Hnin. rewrite Hid. apply list_elem_of_fmap. by exists c'.
Qed.

Lemma calls_of_without_other g c cs :
  g ≠ call_fetch c → NoDup (map call_id cs) → c ∈ cs →
  calls_of g (without c cs) = calls_of g cs.
Proof.
  intros Hg Hnd Hc.
  assert (Hall : ∀ c', c' ∈ cs → call_fetch c' = g → call_id c' ≠ call_id c).
  { intros c' Hc' Hf Hid. apply Hg. rewrite <- Hf. f_equal.
    symmetry. by apply (same_call_id cs). }
  clear Hnd Hc. induction cs as [|c0 cs IH]; [done|].
  rewrite without_cons, !calls_of_cons.
  destruct (decide (call_id c0 ≠ call_id c)) as [Hid|Hid].
  - rewrite calls_of_cons. rewrite IH; [done|].
    intros c' Hc'. apply Hall. by right.
  - destruct (decide (call_fetch c0 = g)) as [Hf|Hf].
    + destruct Hid. apply Hall; [by left|done].
    + apply IH. intros c' Hc'. apply Hall. by right.
Qed.

Lemma run_exit_inv c r :
  run_inv r → c ∈ in_flight r →
  run_inv {| run_tracking := (middleware_exit c (run_tracking r)).2;
             in_flight := without c (in_flight r) |}.
Proof.
  intros Hinv Hc.
  destruct (middleware_exit_spec c r Hinv Hc) as (_ & Ht & Hd & Hn & Harr & Hres).
  destruct (inv_calls r Hinv c Hc) as (Htc & _ & [pc Hpc]).
  pose proof (inv_ids r Hinv) as Hnd.
  set (t' := (middleware_exit c (run_tracking r)).2) in *.
  constructor; cbn [run_tracking in_flight].
  - intros g b Hg. rewrite Ht in Hg. rewrite Hn, Harr.
    destruct (inv_arrays r Hinv g b Hg) as [Hb Hbarr]. split; [done|].
    destruct (decide (b = call_infos c)) as [->|Hne].
    + rewrite lookup_insert_eq.
      by rewrite (inv_arrays_inj r Hinv g (call_fetch c) (call_infos c) Hg Htc).
    + rewrite lookup_insert_ne by done. rewrite Hbarr.
      rewrite calls_of_without_other; [done| |done|done].
      intros ->. congruence.
  - intros g1 g2 b. rewrite Ht. apply (inv_arrays_inj r Hinv).
  - intros c' [Hc' _]%without_elem. rewrite Ht, Hd, Hn.
    apply (inv_calls r Hinv c' Hc').
  - by apply without_NoDup.
  - intros g p Hg. rewrite Hd in Hg. rewrite Hn, Hres.
    destruct (inv_deferred r Hinv g p Hg) as [Hlt Hiff]. split; [done|].
    destruct (decide (g = call_fetch c)) as [->|Hne].
    + split.
      * intros [Hp|[Hnil _]]; [|done]. apply Hiff in Hp.
        assert (c ∈ calls_of (call_fetch c) (in_flight r)) as Hin
          by by apply calls_of_elem.
        rewrite Hp in Hin. by apply elem_of_nil in Hin.
      * intros Hnil. right. by split.
    + rewrite (calls_of_without_other g c (in_flight r) Hne Hnd Hc).
      rewrite <- Hiff. split; [|by left].
      intros [Hp|[_ Hp]]; [done|].
      destruct Hne. by apply (inv_deferred_inj r Hinv g (call_fetch c) p).
  - intros g1 g2 p. rewrite Hd. apply (inv_deferred_inj r Hinv).
  - intros p. rewrite Hn, Hres. intros [Hp|[_ Hp]].
    + by apply (inv_resolved r Hinv).
    + by destruct (inv_deferred r Hinv _ _ Hp).
Qed.

Lemma run_step_inv r r' : run_step r r' → run_inv r → run_inv r'.
Proof.
  intros Hstep Hinv. destruct Hstep as [request f now r|c r Hc].
  - by apply run_enter_inv.
  - by apply run_exit_inv.
Qed.

Lemma reachable_run_inv r : reachable_run r → run_inv r.
Proof.
  unfold reachable_run. intros Hsteps.
  assert (Hgen : ∀ a b, rtc run_step a b → run_inv a → run_inv b).
  { induction 1 as [a|a b c0 Hab _ IH]; [done|].
    intros Ha. apply IH. by apply (run_step_inv a). }
  apply (Hgen _ _ Hsteps). apply run_start_inv.
Qed.
Lemma pending_eq r f :
  run_inv r →
  getPendingRequestState f (run_tracking r)
  = map call_debugInfo (calls_of f (in_flight r)).
Proof.
  intros Hinv. unfold getPendingRequestState.
  destruct (TrackingInfoPerFetch (run_tracking r) !! f) as [a|] eqn:Hf.
  - destruct (inv_arrays r Hinv f a Hf) as [_ ->]. done.
  - by rewrite (untracked_fetch_has_no_calls r f Hinv Hf).
Qed.

Lemma hasPendingRequests_false r f :
  run_inv r →
  hasPendingRequests f (run_tracking r) = false ↔ calls_of f (in_flight r) = [].
Proof.
  intros Hinv. unfold hasPendingRequests. rewrite (pending_eq r f Hinv).
  rewrite bool_decide_eq_false.
  destruct (calls_of f (in_flight r)); simpl; split; try done; lia.
Qed.

Lemma run_one_reachable : reachable_run run_one.
Proof.
  apply rtc_once.
  exact (run_enter sample_request 1%positive 1675198640993 run_start).
Defined.

(** X13 -- in every run of the middleware, [getPendingRequestState(fetch)]
    lists exactly the requests that entered through that fetch and have not
    settled yet, oldest first, and [hasPendingRequests(fetch)] holds exactly
    when there is one. *)
Theorem pending_requests_are_the_waiting_calls (r : Run) (f : Fetch) :
  reachable_run r →
  getPendingRequestState f (run_tracking r)
    = map call_debugInfo (calls_of f (in_flight r)) ∧
  (hasPendingRequests f (run_tracking r) = true ↔
   ∃ c, c ∈ in_flight r ∧ call_fetch c = f).
Proof.
  intros Hinv%reachable_run_inv. split; [by apply pending_eq|].
  rewrite <- not_false_iff_true, (hasPendingRequests_false r f Hinv).
  rewrite calls_of_nil_iff. split.
  - intros Hex. destruct (calls_of f (in_flight r)) as [|c cs] eqn:Hcalls.
    + destruct Hex. by apply calls_of_nil_iff.
    + exists c. apply calls_of_elem. rewrite Hcalls. by left.
  - intros (c & Hc & Hf) Hall. by apply (Hall c Hc).
Qed.

Lemma pending_requests_are_the_waiting_calls_witness :
  reachable_run run_one ∧
  getPendingRequestState 1%positive (run_tracking run_one)
  = [ {| info_id := 3%positive; startTime := 1675198640993;
         method := "GET"; url := "/some-url" |} ].
Proof.
  split; [exact run_one_reachable|].
  exact (proj1 (pending_requests_are_the_waiting_calls run_one 1%positive
                  run_one_reachable)).
Defined.

Lemma map_calls_without f c cs :
  map call_debugInfo (calls_of f (without c cs)) =
  filter (λ item, info_id item ≠ info_id (call_debugInfo c))
         (map call_debugInfo (calls_of f cs)).
Proof.
  induction cs as [|c0 cs IH]; [done|].
  rewrite without_cons, calls_of_cons. unfold call_id.
  destruct (decide (info_id (call_debugInfo c0) ≠ info_id (call_debugInfo c)))
    as [Hid|Hid], (decide (call_fetch c0 = f)) as [Hf|Hf];
    rewrite ?calls_of_cons, ?(decide_True (P := call_fetch c0 = f)),
            ?(decide_False (P := call_fetch c0 = f)) by done;
    simpl; rewrite ?filter_cons, ?(decide_True (P := _ ≠ _)),
                   ?(decide_False (P := _ ≠ _)) by done;
    by rewrite IH.
Qed.

(** X14 -- the [finally] block of a waiting call never throws one of the
    two internal errors; it takes exactly the debug info of its own request
    out of the pending list of its fetch, keeps the others in their order,
    and leaves the pending lists of all other fetches alone. *)
Theorem finally_block_removes_its_request (r : Run) (c : Call) :
  reachable_run r →
  c ∈ in_flight r →
  (middleware_exit c (run_tracking r)).1 = Ok tt ∧
  getPendingRequestState (call_fetch c) (middleware_exit c (run_tracking r)).2
    = filter (λ item, info_id item ≠ info_id (call_debugInfo c))
             (getPendingRequestState (call_fetch c) (run_tracking r)) ∧
  call_debugInfo c ∈ getPendingRequestState (call_fetch c) (run_tracking r) ∧
  (∀ g, g ≠ call_fetch c →
        getPendingRequestState g (middleware_exit c (run_tracking r)).2
        = getPendingRequestState g (run_tracking r)).
Proof.
  intros Hinv%reachable_run_inv Hc.
  pose proof (run_exit_inv c r Hinv Hc) as Hinv'.
  destruct (middleware_exit_spec c r Hinv Hc) as (Hok & _).
  assert (Hpend : ∀ g, getPendingRequestState g (middleware_exit c (run_tracking r)).2
            = map call_debugInfo (calls_of g (without c (in_flight r)))).
  { intros g. apply (pending_eq _ g Hinv'). }
  split_and!; [done| | |].
  - rewrite Hpend, (pending_eq r _ Hinv).
    apply map_calls_without.
  - rewrite (pending_eq r _ Hinv). apply list_elem_of_fmap. exists c.
    split; [done|]. by apply calls_of_elem.
  - intros g Hg.
    rewrite Hpend, (pending_eq r g Hinv).
    by rewrite (calls_of_without_other g c (in_flight r) Hg (inv_ids r Hinv) Hc).
Qed.

Lemma finally_block_removes_its_request_witness :
  (middleware_exit
     (middleware_enter sample_request 1%positive 1675198640993 no_tracking).1
     (run_tracking run_one)).1 = Ok tt.
Proof.
  refine (proj1 (finally_block_removes_its_request run_one _ run_one_reachable _)).
  apply list_elem_of_singleton. reflexivity.
Defined.

(** X15 -- the promise [requestsCompleted(fetch)] waits on is resolved
    exactly when the fetch has no pending request; and a fetch without a
    deferred (where [requestsCompleted] returns at once) has none. *)
Theorem deferred_resolved_iff_nothing_pending (r : Run) (f : Fetch) :
  reachable_run r →
  match requestsCompleted_promise f (run_tracking r) with
  | Some p => p ∈ resolved (run_tracking r) ↔
              hasPendingRequests f (run_tracking r) = false
  | None => hasPendingRequests f (run_tracking r) = false
  end.
Proof.
  intros Hinv%reachable_run_inv. unfold requestsCompleted_promise.
  destruct (RequestsCompletedPromisesByToken (run_tracking r) !! f) as [p|] eqn:Hp.
  - rewrite (hasPendingRequests_false r f Hinv).
    by destruct (inv_deferred r Hinv f p Hp).
  - apply (hasPendingRequests_false r f Hinv). apply calls_of_nil_iff.
    intros c Hc Hf. destruct (inv_calls r Hinv c Hc) as (_ & _ & [q Hq]).
    rewrite Hf, Hp in Hq. done.
Qed.

Lemma deferred_resolved_iff_nothing_pending_witness :
  reachable_run run_one ∧
  requestsCompleted_promise 1%positive (run_tracking run_one) = Some 2%positive ∧
  (2%positive ∈ resolved (run_tracking run_one) ↔
   hasPendingRequests 1%positive (run_tracking run_one) = false).
Proof.
  split; [exact run_one_reachable|]. split; [reflexivity|].
  exact (deferred_resolved_iff_nothing_pending run_one 1%positive run_one_reachable).
Defined.

(** X16 -- a request entering the middleware is appended to the pending
    list of its fetch, with the url and method of the request and the time
    of entry; from then on [hasPendingRequests] holds for the fetch and the
    promise [requestsCompleted] waits on is unresolved; the pending lists of
    the other fetches are unchanged. *)
Theorem entering_request_becomes_pending (r : Run) (request : Request) (f : Fetch)
    (now : Z) :
  reachable_run r →
  let c := (middleware_enter request f now (run_tracking r)).1 in
  let t' := (middleware_enter request f now (run_tracking r)).2 in
  getPendingRequestState f t'
    = getPendingRequestState f (run_tracking r) ++ [call_debugInfo c] ∧
  url (call_debugInfo c) = request_url request ∧
  method (call_debugInfo c) = request_method request ∧
  startTime (call_debugInfo c) = now ∧
  hasPendingRequests f t' = true ∧
  (∃ p, requestsCompleted_promise f t' = Some p ∧ p ∉ resolved t') ∧
  (∀ g, g ≠ f → getPendingRequestState g t' = getPendingRequestState g (run_tracking r)).
Proof.
  intros Hreach c t'. pose proof (reachable_run_inv r Hreach) as Hinv.
  pose proof (run_enter_inv request f now r Hinv) as Hinv'.
  destruct (middleware_enter_spec request f now r Hinv)
    as (Hcf & _ & _ & _ & _ & _ & _ & _ & _ & _ & _ & _ & _ & _ & Htime & Hurl & Hmeth).
  fold c in Hcf, Htime, Hurl, Hmeth, Hinv'. fold t' in Hinv'.
  assert (Hpend : ∀ g, getPendingRequestState g t' =
            map call_debugInfo (calls_of g (in_flight r ++ [c]))).
  { intros g. apply (pending_eq _ g Hinv'). }
  assert (Hhas : hasPendingRequests f t' = true).
  { apply not_false_iff_true. intros Hfalse.
    apply (hasPendingRequests_false _ f Hinv') in Hfalse. cbn [in_flight] in Hfalse.
    rewrite calls_of_snoc, decide_True in Hfalse by done.
    by apply app_eq_nil in Hfalse as [_ ?]. }
  split_and!; try done.
  - rewrite Hpend, calls_of_snoc, decide_True by done.
    by rewrite map_app, (pending_eq r f Hinv).
  - destruct (inv_calls _ Hinv' c) as (_ & _ & [p Hp]).
    { cbn [in_flight]. apply elem_of_app. right. by apply list_elem_of_singleton. }
    cbn [run_tracking] in Hp. rewrite Hcf in Hp. exists p. split; [done|].
    intros Hres. destruct (inv_deferred _ Hinv' f p Hp) as [_ Hiff].
    cbn [run_tracking in_flight] in Hiff. apply Hiff in Hres.
    rewrite calls_of_snoc, decide_True in Hres by done.
    by apply app_eq_nil in Hres as [_ ?].
  - intros g Hg. rewrite Hpend, calls_of_snoc, decide_False by congruence.
    by rewrite (pending_eq r g Hinv).
Qed.

Lemma entering_request_becomes_pending_witness :
  reachable_run run_start ∧
  hasPendingRequests 1%positive
    (middleware_enter sample_request 1%positive 1675198640993 no_tracking).2 = true.
Proof.
  assert (Hstart : reachable_run run_start) by apply rtc_refl.
  split; [exact Hstart|].
  exact (proj1 (proj2 (proj2 (proj2 (proj2
    (entering_request_becomes_pending run_start sample_request 1%positive
       1675198640993 Hstart)))))).
Defined.

(** * Snapshot isolation of a live transaction

    What belongs to a transaction stays as it is, whatever the others do. *)

Import Transactional.

Lemma obj_values_children o l : VRef l ∈ obj_values o → l ∈ children o.
Proof.
  assert (Hprops : ∀ props : list (string * jsval),
            VRef l ∈ props.*2 → l ∈ props ≫= (λ p, val_refs p.2)).
  { intros props ([k v] & Hv & Hin)%list_elem_of_fmap. simpl in Hv. subst v.
    apply list_elem_of_bind. exists (k, VRef l). split; [|done].
    simpl. by apply list_elem_of_singleton. }
  assert (Hvals : ∀ vs : list jsval, VRef l ∈ vs → l ∈ vs ≫= val_refs).
  { intros vs Hin. apply list_elem_of_bind. exists (VRef l). split; [|done].
    simpl. by apply list_elem_of_singleton. }
  destruct o as [props|elems|props body]; simpl.
  - apply Hprops.
  - apply Hvals.
  - intros [Hin|Hin]%elem_of_app; apply elem_of_app; [left; by apply Hprops|right; by apply Hvals].
Qed.

Section confinement.
Context `{Engine}.
Variable P : gset loc.

Lemma frame_refl h : sealed P h → frame P h h.
Proof. intros Hs. by split_and!. Qed.

Lemma frame_trans h1 h2 h3 : frame P h1 h2 → frame P h2 h3 → frame P h1 h3.
Proof.
  intros (_ & Hd12 & Hp12) (Hs & Hd23 & Hp23). split_and!; [done|set_solver|].
  intros l Hl. by rewrite Hp23, Hp12.
Qed.

Lemma outside_dom h h' v : dom h ⊆ dom h' → outside P h v → outside P h' v.
Proof. intros Hd Hv l Hl. destruct (Hv l Hl). split; [set_solver|done]. Qed.

Lemma outside_frame h h' v : frame P h h' → outside P h v → outside P h' v.
Proof. intros (_ & Hd & _). by apply outside_dom. Qed.

Lemma sealed_child h l o l' :
  sealed P h → live_obj h l = Some o → l' ∈ children o → outside P h (VRef l').
Proof. intros [_ Hs] Hl Hc l0 [= <-]. by apply (Hs l o). Qed.

Lemma sealed_value h l o v :
  sealed P h → live_obj h l = Some o → v ∈ obj_values o → outside P h v.
Proof.
  intros Hs Hl Hv l' ->. apply (sealed_child h l o l' Hs Hl); [|done].
  by apply obj_values_children.
Qed.

Lemma sealed_alloc o h :
  sealed P h → (∀ l', l' ∈ children o → l' ∈ dom h ∧ l' ∉ P) →
  frame P h (alloc o h).2 ∧ outside P (alloc o h).2 (VRef (alloc o h).1).
Proof.
  intros [HP Hs] Ho. unfold alloc. simpl.
  pose proof (is_fresh (dom h)) as Hfresh.
  generalize dependent (fresh (dom h)). intros l Hfresh.
  assert (l ∉ P) as HlP by (intros Hin; by apply Hfresh, HP).
  split; [split_and!|].
  - split; [rewrite dom_insert; set_solver|].
    intros l0 o0 l' Hl0 Hc. rewrite dom_insert.
    unfold live_obj in Hl0. destruct (decide (l0 = l)) as [->|Hne].
    + rewrite lookup_insert_eq in Hl0. injection Hl0 as <-.
      destruct (Ho l' Hc). split; [set_solver|done].
    + rewrite lookup_insert_ne in Hl0 by done.
      destruct (Hs l0 o0 l') as [? ?]; [done|done|]. split; [set_solver|done].
  - rewrite dom_insert. set_solver.
  - intros l0 Hl0. rewrite lookup_insert_ne; [done|]. intros <-. done.
  - intros l0 [= <-]. rewrite dom_insert. split; [set_solver|done].
Qed.

Lemma children_props_set name v props l' :
  l' ∈ props_set name v props ≫= (λ p, val_refs p.2) →
  l' ∈ props ≫= (λ p, val_refs p.2) ∨ v = VRef l'.
Proof.
  induction props as [|[n v0] props IH]; simpl.
  - rewrite app_nil_r. destruct v; simpl; try (by intros ?%elem_of_nil).
    intros ->%list_elem_of_singleton. by right.
  - destruct (decide (n = name)) as [->|Hne]; simpl.
    + intros [Hin|Hin]%elem_of_app.
      * destruct v; simpl in Hin; try (by apply elem_of_nil in Hin).
        apply list_elem_of_singleton in Hin as ->. by right.
      * left. apply elem_of_app. by right.
    + intros [Hin|Hin]%elem_of_app.
      * left. apply elem_of_app. by left.
      * destruct (IH Hin) as [?|?]; [left; apply elem_of_app; by right|by right].
Qed.

Lemma sealed_assign l name v h :
  sealed P h → l ∉ P → outside P h v → frame P h (assign l name v h).
Proof.
  intros Hs HlP Hv. pose proof Hs as [HP Hch].
  split_and!.
  - split; [by rewrite assign_dom|].
    intros l0 o0 l' Hl0 Hc. rewrite assign_dom.
    destruct (decide (l = l0)) as [<-|Hne].
    + rewrite assign_live_obj in Hl0.
      destruct (live_obj h l) as [[props|elems|props body]|] eqn:Hl; try done.
      * injection Hl0 as <-. simpl in Hc.
        apply children_props_set in Hc as [Hc| ->]; [|by apply Hv].
        by apply (Hch l (OObj props)).
      * injection Hl0 as <-. by apply (Hch l (OArr elems)).
      * injection Hl0 as <-. simpl in Hc.
        apply elem_of_app in Hc as [Hc|Hc].
        -- apply children_props_set in Hc as [Hc| ->]; [|by apply Hv].
           apply (Hch l (OFunction props body)); [done|]. simpl.
           apply elem_of_app. by left.
        -- apply (Hch l (OFunction props body)); [done|]. simpl.
           apply elem_of_app. by right.
    + rewrite assign_live_obj_ne in Hl0 by done. by apply (Hch l0 o0).
  - by rewrite assign_dom.
  - intros l0 Hl0. apply assign_lookup_ne. intros ->. done.
Qed.

Lemma sealed_assigns l (assigns : list (string * jsval)) : ∀ h,
  sealed P h → l ∉ P → Forall (λ a, outside P h a.2) assigns →
  frame P h (foldl (λ h' a, assign l a.1 a.2 h') h assigns).
Proof.
  induction assigns as [|[name v] assigns IH]; intros h Hs HlP Hvs; simpl.
  - by apply frame_refl.
  - apply Forall_cons in Hvs as [Hv Hvs]. simpl in Hv.
    pose proof (sealed_assign l name v h Hs HlP Hv) as Hf.
    eapply frame_trans; [exact Hf|].
    apply IH; [by destruct Hf|done|].
    eapply Forall_impl; [exact Hvs|]. intros a Ha. by apply (outside_frame h).
Qed.

Lemma sealed_Invoke body l h :
  sealed P h → l ∉ P → (∀ v, v ∈ code_values body → outside P h v) →
  frame P h (Invoke body l h).2.
Proof.
  intros Hs HlP Hvs. unfold Invoke. simpl. apply sealed_assigns; try done.
  apply Forall_forall. intros a Ha. apply Hvs. unfold code_values.
  apply elem_of_app. left. apply list_elem_of_fmap. by exists a.
Qed.

Lemma sealed_reclaim D h : sealed P h → D ## P → frame P h (reclaim D h).
Proof.
  intros [HP Hs] HD.
  assert (Hdom : dom (reclaim D h) = dom h).
  { apply set_eq. intros l. rewrite !elem_of_dom, lookup_reclaim.
    by rewrite fmap_is_Some. }
  split_and!.
  - split; [by rewrite Hdom|]. intros l o l' Hl Hc. rewrite Hdom.
    apply (Hs l o); [|done]. unfold live_obj in *. rewrite lookup_reclaim in Hl.
    destruct (h !! l) as [[o0|]|]; simpl in *; try done;
      by destruct (decide (l ∈ D)).
  - by rewrite Hdom.
  - intros l Hl. rewrite lookup_reclaim.
    destruct (h !! l) as [c|]; simpl; [|done].
    rewrite decide_False; [done|]. set_solver.
Qed.

Lemma SerializeJSONProperty_frame fuel stack value (h : heap) r h' :
  sealed P h → outside P h value →
  SerializeJSONProperty fuel stack value h = Some (r, h') → frame P h h'.
Proof.
  intros Hs Hv.
  apply (SerializeJSONProperty_inv (λ l, l ∉ P) (frame P h)).
  - intros hx l o v l' [Hsx _] _ Hl Hin ->.
    by apply (sealed_value hx l o (VRef l') Hsx Hl Hin l').
  - intros hx l body Hfx HlP Hto.
    destruct (toJSON_Some _ _ _ _ Hto) as (_ & o & f & ps & Hl & Hp & Hf).
    pose proof Hfx as [Hsx _].
    assert (Hbody : ∀ v, v ∈ code_values body → outside P hx v).
    { intros v Hin. apply (sealed_value hx f (OFunction ps body)); [done|done|].
      simpl. apply elem_of_app. by right. }
    split.
    + eapply frame_trans; [exact Hfx|]. by apply sealed_Invoke.
    + intros l' Hres. apply Invoke_result in Hres as [[= <-]|Hin]; [done|].
      by apply (Hbody (VRef l') Hin l').
  - by apply frame_refl.
  - intros l' ->. by apply (Hv l').
Qed.

Lemma JSON_stringify_frame {I} x (w : WorldOf I) :
  sealed P (w_heap w) → outside P (w_heap w) x →
  this (JSON_stringify x w).2 = this w ∧
  frame P (w_heap w) (w_heap (JSON_stringify x w).2).
Proof.
  intros Hs Hx. rewrite JSON_stringify_eq.
  destruct (SerializeJSONProperty (S (size (w_heap w))) [] x (w_heap w))
    as [[[text|e] h']|] eqn:Hser; simpl;
    try (split; [done|by apply (SerializeJSONProperty_frame _ _ _ _ _ _ Hs Hx Hser)]).
  split; [done|by apply frame_refl].
Qed.

Lemma InternalizeJSON_frame : ∀ j (h : heap),
  sealed P h →
  frame P h (InternalizeJSON j h).2 ∧
  outside P (InternalizeJSON j h).2 (InternalizeJSON j h).1.
Proof.
  induction j as [ |b|n|s|items IH|members IH] using json_nested_ind;
    intros h Hs; try (split; [by apply frame_refl|by intros l [=]]).
  - rewrite InternalizeJSON_arr.
    assert (Hitems : ∀ h0, sealed P h0 →
              frame P h0 (internalize_items InternalizeJSON items h0).2 ∧
              Forall (outside P (internalize_items InternalizeJSON items h0).2)
                     (internalize_items InternalizeJSON items h0).1).
    { clear h Hs. induction IH as [|j items Hj _ IHitems]; intros h0 Hs0; simpl.
      - split; [by apply frame_refl|done].
      - destruct (Hj h0 Hs0) as [Hf1 Hv1].
        destruct (InternalizeJSON j h0) as [v h1]. simpl in *.
        destruct (IHitems h1) as [Hf2 Hv2]; [by destruct Hf1|].
        destruct (internalize_items InternalizeJSON items h1) as [vs h2]. simpl in *.
        split; [by eapply frame_trans|].
        constructor; [by apply (outside_frame h1)|done]. }
    destruct (Hitems h Hs) as [Hf Hvs].
    destruct (internalize_items InternalizeJSON items h) as [vs h1]. simpl in *.
    destruct (sealed_alloc (OArr vs) h1) as [Hf2 Hout]; [by destruct Hf| |].
    { intros l' (v & Hl' & Hin)%list_elem_of_bind.
      rewrite Forall_forall in Hvs. apply (Hvs v Hin).
      destruct v; try (by apply elem_of_nil in Hl').
      by apply list_elem_of_singleton in Hl' as ->. }
    unfold alloc in *. simpl in *.
    split; [exact (frame_trans _ _ _ Hf Hf2)|done].
  - rewrite InternalizeJSON_obj.
    assert (Hmembers : ∀ h0, sealed P h0 →
              frame P h0 (internalize_members InternalizeJSON members h0).2 ∧
              Forall (λ p, outside P (internalize_members InternalizeJSON members h0).2 p.2)
                     (internalize_members InternalizeJSON members h0).1).
    { clear h Hs. induction IH as [|[k j] members Hj _ IHmembers]; intros h0 Hs0; simpl.
      - split; [by apply frame_refl|done].
      - simpl in Hj. destruct (Hj h0 Hs0) as [Hf1 Hv1].
        destruct (InternalizeJSON j h0) as [v h1]. simpl in *.
        destruct (IHmembers h1) as [Hf2 Hv2]; [by destruct Hf1|].
        destruct (internalize_members InternalizeJSON members h1) as [ps h2]. simpl in *.
        split; [by eapply frame_trans|].
        constructor; [by apply (outside_frame h1)|done]. }
    destruct (Hmembers h Hs) as [Hf Hps].
    destruct (internalize_members InternalizeJSON members h) as [ps h1]. simpl in *.
    destruct (sealed_alloc (OObj ps) h1) as [Hf2 Hout]; [by destruct Hf| |].
    { intros l' ([k v] & Hl' & Hin)%list_elem_of_bind.
      rewrite Forall_forall in Hps. apply (Hps (k, v) Hin). simpl in *.
      destruct v; try (by apply elem_of_nil in Hl').
      by apply list_elem_of_singleton in Hl' as ->. }
    unfold alloc in *. simpl in *.
    split; [exact (frame_trans _ _ _ Hf Hf2)|done].
Qed.

Lemma structuredClone_frame {I} x (w : WorldOf I) :
  sealed P (w_heap w) → outside P (w_heap w) x →
  this (structuredClone x w).2 = this w ∧
  frame P (w_heap w) (w_heap (structuredClone x w).2) ∧
  ∀ v, (structuredClone x w).1 = Ok v → outside P (w_heap (structuredClone x w).2) v.
Proof.
  intros Hs Hx. rewrite structuredClone_eq.
  destruct (JSON_stringify_frame x w Hs Hx) as [Hthis Hf].
  destruct (JSON_stringify x w) as [[text|e] w1]; simpl in *; [|by split_and!].
  destruct text as [j|]; [|by split_and!].
  rewrite JSON_parse_text.
  destruct (InternalizeJSON_frame j (w_heap w1)) as [Hf2 Hv]; [by destruct Hf|].
  simpl. split_and!; [done|by eapply frame_trans|]. by intros v [= <-].
Qed.

Lemma imap_refs {A} (f : nat → A → string) (g : A → jsval) (xs : list A) l' :
  l' ∈ imap (λ i x, (f i x, g x)) xs ≫= (λ p : string * jsval, val_refs p.2) →
  ∃ x, x ∈ xs ∧ g x = VRef l'.
Proof.
  revert f. induction xs as [|x xs IH]; intros f; simpl.
  - by intros ?%elem_of_nil.
  - intros [Hin|Hin]%elem_of_app.
    + exists x. split; [by left|]. destruct (g x); simpl in Hin;
        try (by apply elem_of_nil in Hin).
      by apply list_elem_of_singleton in Hin as ->.
    + destruct (IH _ Hin) as (y & Hy & Hg). exists y. split; [by right|done].
Qed.

Lemma CopyDataProperties_outside (h : heap) source l' :
  sealed P h →
  l' ∈ children (OObj (CopyDataProperties h source)) → l' ∈ dom h ∧ l' ∉ P.
Proof.
  intros Hs. unfold CopyDataProperties.
  destruct source as [| | | | |s|l]; simpl; try (by intros ?%elem_of_nil).
  - intros (c & _ & [=])%imap_refs.
  - destruct (live_obj h l) as [[props|elems|props body]|] eqn:Hl; simpl;
      try (by intros ?%elem_of_nil).
    + intros Hin. by apply (sealed_child h l (OObj props) l' Hs Hl Hin l').
    + intros (v & Hin & ->)%imap_refs.
      by apply (sealed_value h l (OArr elems) (VRef l') Hs Hl Hin l').
    + intros Hin. apply (sealed_child h l (OFunction props body) l' Hs Hl); [|done].
      simpl. apply elem_of_app. by left.
Qed.

Lemma spread_eq {I} source (w : WorldOf I) :
  spread source w =
  (Ok (VRef (alloc (OObj (CopyDataProperties (w_heap w) source)) (w_heap w)).1),
   {| w_heap := (alloc (OObj (CopyDataProperties (w_heap w) source)) (w_heap w)).2;
      this := this w |}).
Proof.
  unfold spread, mbind, M_bind, bind, get_heap. simpl.
  by destruct (alloc (OObj (CopyDataProperties (w_heap w) source)) (w_heap w)).
Qed.

Lemma isObject_alloc props (h : heap) :
  isObject (alloc (OObj props) h).2 (VRef (alloc (OObj props) h).1) = true.
Proof. unfold isObject. by rewrite alloc_live. Qed.

Lemma spread_frame {I} source (w : WorldOf I) :
  sealed P (w_heap w) →
  this (spread source w).2 = this w ∧
  frame P (w_heap w) (w_heap (spread source w).2) ∧
  ∃ l, (spread source w).1 = Ok (VRef l) ∧
       outside P (w_heap (spread source w).2) (VRef l) ∧
       isObject (w_heap (spread source w).2) (VRef l) = true.
Proof.
  intros Hs. rewrite spread_eq. simpl.
  destruct (sealed_alloc (OObj (CopyDataProperties (w_heap w) source)) (w_heap w))
    as [Hf Hout]; [done|intros l'; by apply CopyDataProperties_outside|].
  split_and!; [done|done|]. eexists. split_and!; [done|done|apply isObject_alloc].
Qed.

Lemma Get_outside (h : heap) o name : sealed P h → outside P h (Get h o name).
Proof.
  intros Hs. unfold Get. destruct o as [| | | | | |l]; try (by intros l' [=]).
  destruct (live_obj h l) as [ob|] eqn:Hl; [|by intros l' [=]].
  destruct (props_get name (own_props ob)) as [v|] eqn:Hget; [|by intros l' [=]].
  simpl. apply (sealed_value h l ob v Hs Hl).
  assert (v ∈ (own_props ob).*2) as Hin.
  { clear Hl. induction (own_props ob) as [|[n v0] ps IH]; simpl in *; [done|].
    destruct (decide (n = name)); [injection Hget as ->; by left|right; by apply IH]. }
  destruct ob as [props|elems|props body]; simpl in *;
    [done|by apply elem_of_nil in Hin|apply elem_of_app; by left].
Qed.

Lemma Set_frame {I} o name v (w : WorldOf I) :
  sealed P (w_heap w) → outside P (w_heap w) o → outside P (w_heap w) v →
  this (Set_ o name v w).2 = this w ∧
  frame P (w_heap w) (w_heap (Set_ o name v w).2).
Proof.
  intros Hs Ho Hv. destruct o as [| | | | | |l]; simpl;
    try (split; [done|by apply frame_refl]).
  split; [done|]. apply sealed_assign; [done| |done]. by apply (Ho l).
Qed.

(** *** Rules for computations that keep to themselves *)

Lemma bind_eq {I A B} (m : MOf I A) (f : A → MOf I B) (w : WorldOf I) :
  (m ≫= f) w =
  match m w with
  | (Ok a, w1) => f a w1
  | (Throw e, w1) => (Throw e, w1)
  end.
Proof. unfold mbind, M_bind, bind. by destruct (m w) as [[a|e] w1]. Qed.

Lemma confines_bind {I A B} (m : MOf I A) (f : A → MOf I B) (w : WorldOf I)
    (Q : A → heap → Prop) (R : B → heap → Prop) :
  confines P m w Q →
  (∀ a w1, m w = (Ok a, w1) → Q a (w_heap w1) → frame P (w_heap w) (w_heap w1) →
           confines P (f a) w1 R) →
  confines P (m ≫= f) w R.
Proof.
  intros (Hthis & Hf & HQ) Hrest. unfold confines. rewrite bind_eq.
  destruct (m w) as [[a|e] w1] eqn:Hm; simpl in *; [|by split_and!].
  destruct (Hrest a w1 eq_refl) as (Hthis2 & Hf2 & HR); [by apply HQ|done|].
  split_and!; [congruence|by eapply frame_trans|done].
Qed.

Lemma confines_ret {I A} (a : A) (w : WorldOf I) (Q : A → heap → Prop) :
  sealed P (w_heap w) → Q a (w_heap w) → confines P (ret a) w Q.
Proof. intros Hs HQ. split_and!; [done|by apply frame_refl|]. by intros a' [= <-]. Qed.

Lemma confines_mret {I A} (a : A) (w : WorldOf I) (Q : A → heap → Prop) :
  sealed P (w_heap w) → Q a (w_heap w) → confines P (mret a) w Q.
Proof. apply confines_ret. Qed.

Lemma confines_throw {I A} e (w : WorldOf I) (Q : A → heap → Prop) :
  sealed P (w_heap w) → confines P (throw e) w Q.
Proof. intros Hs. split_and!; [done|by apply frame_refl|]. by intros a' [=]. Qed.

Lemma confines_get_heap {I} (w : WorldOf I) :
  sealed P (w_heap w) → confines P get_heap w (λ h _, h = w_heap w).
Proof. intros Hs. split_and!; [done|by apply frame_refl|]. by intros a' [= <-]. Qed.

Lemma confines_weaken {I A} (m : MOf I A) (w : WorldOf I) (Q Q' : A → heap → Prop) :
  confines P m w Q → (∀ a h, Q a h → Q' a h) → confines P m w Q'.
Proof. intros (? & ? & HQ) Himp. split_and!; [done|done|]. intros a Ha. by apply Himp, HQ. Qed.

Lemma confines_spread {I} source (w : WorldOf I) :
  sealed P (w_heap w) →
  confines P (spread source) w (λ v h, outside P h v ∧ isObject h v = true).
Proof.
  intros Hs. destruct (spread_frame source w Hs) as (Hthis & Hf & l & Hr & Hout & Hobj).
  split_and!; [done|done|]. intros a Ha. rewrite Hr in Ha. by injection Ha as <-.
Qed.

Lemma confines_Set_ {I} o name v (w : WorldOf I) :
  sealed P (w_heap w) → outside P (w_heap w) o → outside P (w_heap w) v →
  confines P (Set_ o name v) w (λ _ _, True).
Proof.
  intros Hs Ho Hv. destruct (Set_frame o name v w Hs Ho Hv) as [Hthis Hf].
  by split_and!.
Qed.

Lemma confines_structuredClone {I} x (w : WorldOf I) :
  sealed P (w_heap w) → outside P (w_heap w) x →
  confines P (structuredClone x) w (λ v h, outside P h v).
Proof. intros Hs Hx. by apply structuredClone_frame. Qed.

(** *** [deepMerge] *)

Lemma confines_merge_sourceKey {I} (resolveConflict : jsval → jsval → MOf I jsval)
    target source sourceKey (w : WorldOf I) :
  merges P resolveConflict →
  sealed P (w_heap w) → outside P (w_heap w) target →
  confines P (merge_sourceKey resolveConflict target source sourceKey) w (λ _ _, True).
Proof.
  intros Hrc Hs Ht. unfold merge_sourceKey.
  eapply confines_bind; [by apply confines_get_heap|].
  intros h w1 [= <- <-] _ _. simpl.
  destruct (hasOwnProperty (w_heap w) target sourceKey).
  - destruct (negb (IsLooselyEqual _ _ _)); [|by apply confines_mret].
    eapply confines_bind.
    { apply Hrc; [done|]. intros _. by apply Get_outside. }
    intros result w1 Hrun Hres Hf1. simpl in Hres. pose proof Hf1 as [Hs1 _].
    eapply confines_bind; [by apply confines_get_heap|].
    intros h' w2 [= <- <-] _ _.
    destruct (negb (IsLooselyEqual _ _ _)); [|by apply confines_mret].
    apply confines_Set_; [done| |done]. by apply (outside_frame (w_heap w)).
  - apply confines_Set_; [done|done|by apply Get_outside].
Qed.

Lemma confines_forEach {I} (callback : string → MOf I unit) keys :
  ∀ (w : WorldOf I) (F : heap → Prop),
  (∀ h h', F h → frame P h h' → F h') →
  (∀ key (w1 : WorldOf I), sealed P (w_heap w1) → F (w_heap w1) →
       confines P (callback key) w1 (λ _ _, True)) →
  sealed P (w_heap w) → F (w_heap w) →
  confines P (forEach callback keys) w (λ _ _, True).
Proof.
  induction keys as [|key keys IH]; intros w F Hstable Hcb Hs HF; simpl.
  - by apply confines_mret.
  - eapply confines_bind; [exact (Hcb key w Hs HF)|].
    intros [] w1 Hrun _ Hf1. apply (IH w1 F); try done; [by destruct Hf1|].
    by apply (Hstable (w_heap w)).
Qed.

Lemma isObject_frame (h h' : heap) v :
  frame P h h' → isObject h v = false → isObject h' v = true → outside P h' v.
Proof.
  intros (_ & _ & Hsame) Hno Hyes l ->. unfold isObject, live_obj in *. split.
  - apply elem_of_dom. by destruct (h' !! l).
  - intros Hin. rewrite (Hsame l Hin) in Hyes. congruence.
Qed.

Lemma deepMerge_merges {I} depth : merges P (deepMerge (I:=I) depth).
Proof.
  induction depth as [|depth IH]; intros t s w Hs Hsrc; simpl.
  - by apply confines_throw.
  - eapply confines_bind; [by apply confines_get_heap|].
    intros h w0 [= <- <-] _ _.
    eapply (confines_bind _ _ _ (λ v h, outside P h v)).
    { destruct (isObject (w_heap w) s) eqn:Hobj.
      - eapply confines_weaken; [by apply confines_spread|]. by intros a h [? _].
      - apply confines_mret; [done|by apply Hsrc]. }
    intros source w1 Hrun1 Hsource Hf1. pose proof Hf1 as [Hs1 _].
    eapply (confines_bind _ _ _
              (λ v h, isObject h v = true → outside P h v)).
    { destruct (isObject (w_heap w) t) eqn:Hobj.
      - eapply confines_weaken; [by apply confines_spread|]. by intros a h [? _].
      - apply confines_mret; [done|]. by apply (isObject_frame (w_heap w)). }
    intros target w2 Hrun2 Htarget Hf2. pose proof Hf2 as [Hs2 _].
    eapply confines_bind; [by apply confines_get_heap|].
    intros h' w3 [= <- <-] _ _.
    assert (outside P (w_heap w2) source) as Hsource2
      by by apply (outside_frame (w_heap w1)).
    destruct (isObject (w_heap w2) source && isObject (w_heap w2) target) eqn:Hboth.
    + apply andb_prop in Hboth as [_ Hobjt].
      eapply confines_bind.
      { apply (confines_forEach _ _ w2 (λ h, outside P h target)).
        - intros h1 h2 Hout Hf. by apply (outside_frame h1).
        - intros key w' Hs' Ht'. by apply confines_merge_sourceKey.
        - done.
        - by apply Htarget. }
      intros [] w3 Hrun3 _ Hf3. apply confines_mret; [by destruct Hf3|].
      apply (outside_frame (w_heap w2)); [done|by apply Htarget].
    + by apply confines_mret.
Qed.

Lemma confines_defaultMergeStrategy {I} id incoming current (w : WorldOf I) :
  sealed P (w_heap w) →
  (isObject (w_heap w) (entity incoming) = false → outside P (w_heap w) (entity incoming)) →
  confines P (defaultMergeStrategy id incoming current) w (λ v h, outside P h v).
Proof.
  intros Hs Hin. unfold defaultMergeStrategy.
  eapply confines_bind; [by apply confines_get_heap|].
  intros h w0 [= <- <-] _ _. by apply deepMerge_merges.
Qed.

End confinement.
Lemma Forall_Map_set {V} (F : string * V → Prop) k v (m : JsMap V) :
  Forall F m → (∀ k', F (k', v)) → Forall F (Map_set k v m).
Proof.
  intros Hm Hv. induction m as [|[k0 v0] m IH]; simpl.
  - by constructor.
  - apply Forall_cons in Hm as [H0 Hm].
    destruct (decide (k0 = k)); constructor; try done. by apply IH.
Qed.

Lemma Forall_Map_delete {V} (F : string * V → Prop) k (m : JsMap V) :
  Forall F m → Forall F (Map_delete k m).
Proof.
  intros Hm. induction m as [|[k0 v0] m IH]; simpl; [done|].
  apply Forall_cons in Hm as [H0 Hm].
  destruct (decide (k0 = k)); [done|]. constructor; [done|by apply IH].
Qed.

Lemma Map_get_elem {V} k (v : V) (m : JsMap V) : Map_get k m = Some v → (k, v) ∈ m.
Proof.
  induction m as [|[k0 v0] m IH]; simpl; [done|].
  destruct (decide (k0 = k)) as [->|]; [intros [= ->]; by left|].
  intros Hget. right. by apply IH.
Qed.

Section methods.
Context `{Engine}.
Variable P : gset loc.
Variable options : option CacheOptions.

Lemma cache_outside_dom c (h h' : heap) :
  dom h ⊆ dom h' → cache_outside P c h → cache_outside P c h'.
Proof.
  intros Hd Hc. eapply Forall_impl; [exact Hc|]. intros kr [? ?]. split; [set_solver|done].
Qed.

Lemma good_confines {A} (m : M A) (w : World) (Q : A → heap → Prop) :
  good P options w → confines P m w Q → preserves P options m w Q.
Proof.
  intros (Hs & Hc & Ho) (Hthis & Hf & HQ). split_and!; [|done|done].
  split_and!; [by destruct Hf| |by rewrite Hthis].
  rewrite Hthis. apply (cache_outside_dom _ (w_heap w)); [by destruct Hf as (_ & ? & _)|done].
Qed.

Lemma preserves_bind {A B} (m : M A) (f : A → M B) (w : World)
    (Q : A → heap → Prop) (R : B → heap → Prop) :
  preserves P options m w Q →
  (∀ a w1, m w = (Ok a, w1) → Q a (w_heap w1) → good P options w1 →
           frame P (w_heap w) (w_heap w1) → preserves P options (f a) w1 R) →
  preserves P options (m ≫= f) w R.
Proof.
  intros (Hg & Hf & HQ) Hrest. unfold preserves. rewrite bind_eq.
  destruct (m w) as [[a|e] w1] eqn:Hm; simpl in *; [|by split_and!].
  destruct (Hrest a w1 eq_refl) as (Hg2 & Hf2 & HR); [by apply HQ|done|done|].
  split_and!; [done|by eapply frame_trans|done].
Qed.

Lemma preserves_mret {A} (a : A) (w : World) (Q : A → heap → Prop) :
  good P options w → Q a (w_heap w) → preserves P options (mret a) w Q.
Proof.
  intros Hg HQ. split_and!; [done|apply frame_refl; by destruct Hg|].
  by intros a' [= <-].
Qed.

Lemma preserves_throw {A} e (w : World) (Q : A → heap → Prop) :
  good P options w → preserves P options (throw e) w Q.
Proof.
  intros Hg. split_and!; [done|apply frame_refl; by destruct Hg|]. by intros a' [=].
Qed.

Lemma preserves_weaken {A} (m : M A) (w : World) (Q Q' : A → heap → Prop) :
  preserves P options m w Q → (∀ a h, Q a h → Q' a h) → preserves P options m w Q'.
Proof. intros (? & ? & HQ) Himp. split_and!; [done|done|]. intros a Ha. by apply Himp, HQ. Qed.

Lemma preserves_get_this (w : World) :
  good P options w → preserves P options get_this w (λ c _, c = this w).
Proof.
  intros Hg. split_and!; [done|apply frame_refl; by destruct Hg|]. by intros a' [= <-].
Qed.

Lemma preserves_get_heap (w : World) :
  good P options w → preserves P options get_heap w (λ h _, h = w_heap w).
Proof.
  intros Hg. split_and!; [done|apply frame_refl; by destruct Hg|]. by intros a' [= <-].
Qed.

Lemma preserves_put_this c (w : World) :
  good P options w → cache_outside P c (w_heap w) → CacheImpl.cacheOptions c = options →
  preserves P options (put_this c) w (λ _ _, True).
Proof.
  intros (Hs & _ & _) Hc Ho. split_and!; [by split_and!|by apply frame_refl|done].
Qed.

Lemma weak_lookup_outside (w : World) key :
  good P options w →
  outside P (w_heap w) (CacheImpl.weak_lookup (this w) (w_heap w) key).
Proof.
  intros (_ & Hc & _). unfold CacheImpl.weak_lookup.
  destruct (Map_get key (CacheImpl.weakCache (this w))) as [r|] eqn:Hget; [|by intros l [=]].
  unfold deref. destruct (is_live (w_heap w) (target r)); [|by intros l [=]].
  intros l [= <-]. apply Map_get_elem in Hget.
  unfold cache_outside in Hc. rewrite Forall_forall in Hc. by apply (Hc _ Hget).
Qed.

Lemma preserves_get key (w : World) :
  good P options w →
  preserves P options (CacheImpl.get key) w (λ v h, outside P h v).
Proof.
  intros Hg. split_and!; [done|apply frame_refl; by destruct Hg|].
  intros a [= <-]. by apply weak_lookup_outside.
Qed.

Lemma preserves_getCacheOptions (w : World) :
  good P options w →
  preserves P options CacheImpl.getCacheOptions w (λ o _, o = options).
Proof.
  intros Hg. split_and!; [done|apply frame_refl; by destruct Hg|].
  intros a [= <-]. by destruct Hg as (_ & _ & ?).
Qed.

Lemma preserves_asyncIterator_next key (w : World) :
  good P options w →
  preserves P options (CacheImpl.asyncIterator_next key) w
    (λ entry h, outside P h (entry_value entry)).
Proof.
  intros Hg. unfold CacheImpl.asyncIterator_next.
  eapply preserves_bind; [by apply preserves_get_this|].
  intros c w1 [= <- <-] _ _ _.
  eapply preserves_bind; [by apply preserves_get_heap|].
  intros h w1 [= <- <-] _ _ _.
  destruct (negb (truthy _)); [by apply preserves_throw|].
  apply preserves_mret; [done|]. simpl. by apply weak_lookup_outside.
Qed.

Lemma preserves_for_await_keys {A} (body : CacheEntry → A → M A) keys :
  (∀ entry acc w, good P options w → outside P (w_heap w) (entry_value entry) →
                  preserves P options (body entry acc) w (λ _ _, True)) →
  ∀ acc w, good P options w →
    preserves P options (CacheImpl.for_await_keys keys body acc) w (λ _ _, True).
Proof.
  intros Hbody. induction keys as [|key keys IH]; intros acc w Hg; simpl.
  - by apply preserves_mret.
  - eapply preserves_bind; [by apply preserves_asyncIterator_next|].
    intros entry w1 _ Hentry Hg1 _. simpl in Hentry.
    eapply preserves_bind; [by apply Hbody|].
    intros acc' w2 _ _ Hg2 _. by apply IH.
Qed.

Lemma preserves_for_await_entries {A} (body : CacheEntry → A → M A) acc w :
  (∀ entry acc w, good P options w → outside P (w_heap w) (entry_value entry) →
                  preserves P options (body entry acc) w (λ _ _, True)) →
  good P options w →
  preserves P options (CacheImpl.for_await_entries body acc) w (λ _ _, True).
Proof.
  intros Hbody Hg. unfold CacheImpl.for_await_entries.
  eapply preserves_bind; [by apply preserves_get_this|].
  intros c w1 [= <- <-] _ _ _. by apply preserves_for_await_keys.
Qed.

Lemma preserves_clear w :
  good P options w → preserves P options CacheImpl.clear w (λ _ _, True).
Proof.
  intros Hg. apply preserves_for_await_entries; [|done].
  intros entry [] w1 Hg1 _.
  eapply preserves_bind; [by apply preserves_get_this|].
  intros c w2 [= <- <-] _ _ _.
  apply preserves_put_this; [done| |by destruct Hg1 as (_ & _ & ?)].
  destruct Hg1 as (_ & Hc & _). by apply Forall_Map_delete.
Qed.

Lemma preserves_save w :
  good P options w → preserves P options CacheImpl.save w (λ _ _, True).
Proof.
  intros Hg. apply preserves_for_await_entries; [|done].
  intros entry acc w1 Hg1 Hentry.
  eapply preserves_bind.
  { apply good_confines; [done|]. apply confines_structuredClone; [by destruct Hg1|done]. }
  intros clone w2 _ _ Hg2 _. by apply preserves_mret.
Qed.

Lemma confines_new_WeakRef {I} v (w : WorldOf I) :
  sealed P (w_heap w) → outside P (w_heap w) v →
  confines P (new_WeakRef v) w (λ r h, target r ∈ dom h ∧ target r ∉ P).
Proof.
  intros Hs Hv. destruct v as [| | | | | |l]; simpl; try (by apply confines_throw).
  apply confines_ret; [done|]. by apply (Hv l).
Qed.

Lemma entries_outside_frame (h h' : heap) (entries : list CacheEntry) :
  frame P h h' →
  Forall (λ e, outside P h (entry_value e)) entries →
  Forall (λ e, outside P h' (entry_value e)) entries.
Proof.
  intros Hf Hes. eapply Forall_impl; [exact Hes|]. intros e. by apply outside_frame.
Qed.

Lemma preserves_load_loop entries : ∀ revisionCounter w,
  good P options w →
  Forall (λ e, outside P (w_heap w) (entry_value e)) entries →
  preserves P options (CacheImpl.load_loop entries revisionCounter) w (λ _ _, True).
Proof.
  induction entries as [|entry entries IH]; intros revisionCounter w Hg Hes; simpl.
  - by apply preserves_mret.
  - apply Forall_cons in Hes as [He Hes].
    eapply preserves_bind.
    { apply good_confines; [done|]. apply confines_structuredClone; [by destruct Hg|done]. }
    intros clone w1 _ Hclone Hg1 Hf1. simpl in Hclone.
    eapply preserves_bind.
    { apply good_confines; [done|]. apply confines_new_WeakRef; [by destruct Hg1|done]. }
    intros r w2 _ Hr Hg2 Hf2. simpl in Hr.
    eapply preserves_bind; [by apply preserves_get_this|].
    intros c w3 [= <- <-] _ _ _.
    eapply preserves_bind.
    { apply preserves_put_this; [done| |by destruct Hg2 as (_ & _ & ?)].
      destruct Hg2 as (_ & Hc & _). by apply Forall_Map_set. }
    intros [] w3 [= <-] _ Hg3 Hf3. apply IH; [done|].
    simpl. apply (entries_outside_frame (w_heap w)); [|done].
    by eapply frame_trans.
Qed.

Lemma preserves_load entries w :
  good P options w →
  Forall (λ e, outside P (w_heap w) (entry_value e)) entries →
  preserves P options (CacheImpl.load entries) w (λ _ _, True).
Proof. apply preserves_load_loop. Qed.

Lemma preserves_install_entries entries : ∀ w,
  good P options w →
  Forall (λ e, outside P (w_heap w) (entry_value e)) entries →
  preserves P options (CacheImpl.install_entries entries) w (λ _ _, True).
Proof.
  induction entries as [|entry entries IH]; intros w Hg Hes; simpl.
  - by apply preserves_mret.
  - apply Forall_cons in Hes as [He Hes].
    eapply preserves_bind.
    { apply good_confines; [done|]. apply confines_new_WeakRef; [by destruct Hg|done]. }
    intros r w2 _ Hr Hg2 Hf2. simpl in Hr.
    eapply preserves_bind; [by apply preserves_get_this|].
    intros c w3 [= <- <-] _ _ _.
    eapply preserves_bind.
    { apply preserves_put_this; [done| |by destruct Hg2 as (_ & _ & ?)].
      destruct Hg2 as (_ & Hc & _). by apply Forall_Map_set. }
    intros [] w3 [= <-] _ Hg3 Hf3. apply IH; [done|].
    simpl. by apply (entries_outside_frame (w_heap w)).
Qed.

Lemma preserves_commitTransaction entries revisions w :
  good P options w →
  Forall (λ e, outside P (w_heap w) (entry_value e)) entries →
  preserves P options (CacheImpl.commitTransaction entries revisions) w (λ _ _, True).
Proof.
  intros Hg Hes. unfold CacheImpl.commitTransaction.
  eapply preserves_bind.
  { apply preserves_install_entries; [done|].
    by rewrite (Array_sort_permutation _ CacheImpl.by_lastAccessed entries). }
  intros [] w1 _ _ Hg1 _.
  eapply preserves_bind; [by apply preserves_get_this|].
  intros c w2 [= <- <-] _ _ _.
  apply preserves_put_this; [done|by destruct Hg1 as (_ & ? & _)|by destruct Hg1 as (_ & _ & ?)].
Qed.

Lemma preserves_beginLiveTransaction w :
  good P options w →
  preserves P options LiveCacheTransactionImpl.beginLiveTransaction w (λ _ _, True).
Proof.
  intros Hg. unfold LiveCacheTransactionImpl.beginLiveTransaction.
  eapply preserves_bind.
  { apply preserves_for_await_entries; [|done].
    intros entry acc w1 Hg1 _. unfold LiveCacheTransactionImpl.copy_entry.
    eapply preserves_bind.
    { apply good_confines; [done|]. apply confines_spread. by destruct Hg1. }
    intros copy w2 _ _ Hg2 _.
    eapply preserves_bind; [by apply preserves_get_this|].
    intros c w3 [= <- <-] _ _ _. by apply preserves_mret. }
  intros maps w1 _ _ Hg1 _.
  eapply preserves_bind; [by apply preserves_getCacheOptions|].
  intros o w2 [= <- <-] _ _ _. by apply preserves_mret.
Qed.

Lemma run_user_eq {I A} (f : heap → result A * heap) (w : WorldOf I) :
  run_user f w = ((f (w_heap w)).1, {| w_heap := (f (w_heap w)).2; this := this w |}).
Proof. unfold run_user. by destruct (f (w_heap w)). Qed.

Hypothesis hooks_confined : confined_hooks options.

Lemma confines_mergeStrategy {I} id incoming current (w : WorldOf I) :
  sealed P (w_heap w) →
  outside P (w_heap w) (entity incoming) → outside P (w_heap w) current →
  confines P (mergeStrategy_of options id incoming current) w (λ v h, outside P h v).
Proof.
  intros Hs Hin Hcur. unfold mergeStrategy_of.
  destruct (hooks_of options) as [hs|] eqn:Hhs;
    [|by apply confines_defaultMergeStrategy].
  destruct (entitymergeStrategy hs) as [f|] eqn:Hf;
    [|by apply confines_defaultMergeStrategy].
  destruct (hooks_confined hs Hhs) as [Hstrategy _].
  destruct (Hstrategy f Hf P (w_heap w) id incoming current Hs Hin Hcur) as [Hframe Hout].
  unfold confines. rewrite run_user_eq. simpl. by split_and!.
Qed.

Lemma confines_customRetentionPolicy {I} (w : WorldOf I) :
  sealed P (w_heap w) →
  confines P (customRetentionPolicy_of options) w (λ _ _, True).
Proof.
  intros Hs. unfold customRetentionPolicy_of.
  destruct (hooks_of options) as [hs|] eqn:Hhs; [|by apply confines_ret].
  destruct (commit hs) as [g|] eqn:Hg; [|by apply confines_ret].
  destruct (hooks_confined hs Hhs) as [_ Hpolicy].
  unfold confines. rewrite run_user_eq. simpl. split_and!; [done| |done].
  by apply (Hpolicy g Hg).
Qed.

Lemma preserves_next_revision T cacheKey w :
  good P options w →
  preserves P options (LiveCacheTransactionImpl.next_revision T cacheKey) w (λ _ _, True).
Proof.
  intros Hg. unfold LiveCacheTransactionImpl.next_revision.
  destruct (Map_get cacheKey _) as [revs|]; [|by apply preserves_mret].
  destruct (last revs); [by apply preserves_mret|by apply preserves_throw].
Qed.

Lemma preserves_writeToCache_loop localEntries : ∀ staged T w,
  good P options w →
  Forall (λ e, outside P (w_heap w) (entry_value e)) localEntries →
  Forall (λ e, outside P (w_heap w) (entry_value e)) staged →
  preserves P options (LiveCacheTransactionImpl.writeToCache_loop localEntries staged T) w
    (λ r h, Forall (λ e, outside P h (entry_value e)) r.1).
Proof.
  induction localEntries as [|entry localEntries IH]; intros staged T w Hg Hes Hst; simpl.
  - by apply preserves_mret.
  - apply Forall_cons in Hes as [He Hes].
    eapply preserves_bind; [by apply preserves_get|].
    intros latestCacheValue w1 [= <- <-] Hlatest _ _. simpl in Hlatest.
    eapply preserves_bind; [by apply preserves_getCacheOptions|].
    intros o w1 [= <- <-] -> _ _.
    eapply (preserves_bind _ _ _ (λ v h, outside P h v)).
    { destruct (truthy _); [|by apply preserves_mret].
      apply good_confines; [done|].
      apply confines_mergeStrategy; [by destruct Hg|done|done]. }
    intros entityToCommit w1 _ Hentity Hg1 Hf1.
    eapply preserves_bind.
    { apply good_confines; [done|]. apply confines_structuredClone; [by destruct Hg1|done]. }
    intros clone w2 _ Hclone Hg2 Hf2. simpl in Hclone.
    eapply preserves_bind; [by apply preserves_next_revision|].
    intros revisionNumber w3 _ _ Hg3 Hf3.
    assert (frame P (w_heap w) (w_heap w3)) as Hf.
    { eapply frame_trans; [exact Hf1|]. by eapply frame_trans. }
    apply IH; [done|by apply (entries_outside_frame (w_heap w))|].
    apply Forall_app. split; [by apply (entries_outside_frame (w_heap w))|].
    constructor; [|done]. simpl. by apply (outside_frame P (w_heap w2)).
Qed.

Lemma preserves_commit T w :
  good P options w →
  Forall (λ kv : string * jsval, outside P (w_heap w) kv.2)
         (LiveCacheTransactionImpl.localUpdatedEntries T) →
  preserves P options (LiveCacheTransactionImpl.commit T) w (λ _ _, True).
Proof.
  intros Hg Hlocal. unfold LiveCacheTransactionImpl.commit.
  eapply preserves_bind.
  { apply preserves_writeToCache_loop; [done| |done].
    unfold LiveCacheTransactionImpl.localEntries, LiveCacheTransactionImpl.asyncIterator.
    apply Forall_fmap. eapply Forall_impl; [exact Hlocal|]. by intros [k v]. }
  intros [staged T'] w1 _ Hstaged Hg1 _. simpl in Hstaged.
  eapply preserves_bind; [by apply preserves_getCacheOptions|].
  intros o w2 [= <- <-] -> _ _.
  eapply preserves_bind.
  { apply good_confines; [done|]. apply confines_customRetentionPolicy. by destruct Hg1. }
  intros [] w2 _ _ Hg2 Hf2.
  eapply preserves_bind.
  { apply preserves_commitTransaction; [done|].
    by apply (entries_outside_frame (w_heap w1)). }
  intros [] w3 _ _ Hg3 _. by apply preserves_mret.
Qed.

Lemma mergeStrategy_of_default {I} :
  custom_merge options = false →
  mergeStrategy_of (I:=I) options = defaultMergeStrategy.
Proof.
  unfold custom_merge, mergeStrategy_of. destruct (hooks_of options) as [hs|]; [|done].
  destruct (entitymergeStrategy hs); [|done]. intros Hno.
  apply bool_decide_eq_false in Hno. by destruct Hno.
Qed.

Lemma preserves_merge cacheKey entityRevision now T w :
  good P options w →
  (∀ l, l ∈ P → isObject (w_heap w) (VRef l) = true) →
  (∀ l, entity entityRevision = VRef l → l ∈ dom (w_heap w)) →
  (custom_merge options = true →
     outside P (w_heap w) (entity entityRevision) ∧
     outside P (w_heap w)
       (default VUndefined (Map_get cacheKey (LiveCacheTransactionImpl.transactionalCache T)))) →
  preserves P options (LiveCacheTransactionImpl.merge cacheKey entityRevision now T) w
    (λ _ _, True).
Proof.
  intros Hg Hobj Hexists Hcustom. unfold LiveCacheTransactionImpl.merge.
  eapply preserves_bind; [by apply preserves_getCacheOptions|].
  intros o w1 [= <- <-] -> _ _.
  eapply preserves_bind.
  { apply good_confines; [done|].
    destruct (custom_merge options) eqn:Hc.
    - destruct (Hcustom eq_refl) as [Hin Hcur].
      apply confines_mergeStrategy; [by destruct Hg|done|done].
    - rewrite mergeStrategy_of_default by done.
      apply confines_defaultMergeStrategy; [by destruct Hg|].
      simpl. intros Hno l Hl. split; [by apply Hexists|].
      intros HlP. rewrite Hl, (Hobj l HlP) in Hno. done. }
  intros mergedEntity w1 _ _ Hg1 _. by apply preserves_mret.
Qed.

End methods.
(** ** What [beginTransaction] makes *)

Lemma weak_lookup_ref (c : CacheImpl.t) (h : heap) key l :
  CacheImpl.weak_lookup c h key = VRef l →
  ∃ r, Map_get key (CacheImpl.weakCache c) = Some r ∧ target r = l ∧ is_live h l = true.
Proof.
  unfold CacheImpl.weak_lookup, deref.
  destruct (Map_get key (CacheImpl.weakCache c)) as [r|]; [|done].
  destruct (is_live h (target r)) eqn:Hlive; [|done].
  intros [= <-]. by exists r.
Qed.

Lemma weak_lookup_truthy (c : CacheImpl.t) (h : heap) key :
  truthy (CacheImpl.weak_lookup c h key) = true →
  ∃ l, CacheImpl.weak_lookup c h key = VRef l.
Proof.
  unfold CacheImpl.weak_lookup, deref.
  destruct (Map_get key (CacheImpl.weakCache c)) as [r|]; [|done].
  destruct (is_live h (target r)); [|done]. by exists (target r).
Qed.

Lemma is_live_dom (h : heap) l : is_live h l = true → l ∈ dom h.
Proof.
  unfold is_live, live_obj. intros Hl. apply elem_of_dom. by destruct (h !! l).
Qed.

Lemma live_obj_extends_dom (h h' : heap) l :
  h ⊆ h' → l ∈ dom h → live_obj h' l = live_obj h l.
Proof.
  intros Hsub [c Hc]%elem_of_dom. unfold live_obj.
  by rewrite Hc, (lookup_weaken _ _ _ _ Hc Hsub).
Qed.

Lemma weak_lookup_extends (c : CacheImpl.t) (h h' : heap) key :
  cache_outside ∅ c h → h ⊆ h' →
  CacheImpl.weak_lookup c h' key = CacheImpl.weak_lookup c h key.
Proof.
  intros Hc Hsub. unfold CacheImpl.weak_lookup, deref.
  destruct (Map_get key (CacheImpl.weakCache c)) as [r|] eqn:Hget; [|done].
  apply Map_get_elem in Hget. unfold cache_outside in Hc. rewrite Forall_forall in Hc.
  destruct (Hc _ Hget) as [Hdom _]. simpl in Hdom.
  unfold is_live. by rewrite (live_obj_extends_dom h h').
Qed.

Lemma CopyDataProperties_extends (h h' : heap) l :
  h ⊆ h' → l ∈ dom h →
  CopyDataProperties h' (VRef l) = CopyDataProperties h (VRef l).
Proof. intros Hsub Hl. unfold CopyDataProperties. by rewrite (live_obj_extends_dom h h'). Qed.

Lemma asyncIterator_next_eq key (w : World) :
  CacheImpl.asyncIterator_next key w =
  if negb (truthy (CacheImpl.weak_lookup (this w) (w_heap w) key))
  then (Throw (Error "ref is undefined"), w)
  else (Ok {| entry_key := key;
              entry_value := CacheImpl.weak_lookup (this w) (w_heap w) key;
              entry_state :=
                Some (default DEFAULT_ENTRY_STATE
                        (mjoin (Map_get key (CacheImpl.cacheEntryState (this w))))) |}, w).
Proof.
  unfold CacheImpl.asyncIterator_next. repeat (rewrite bind_eq; simpl).
  by destruct (negb (truthy _)).
Qed.

Lemma copy_entry_eq entry maps (w : World) :
  LiveCacheTransactionImpl.copy_entry entry maps w =
  let a := alloc (OObj (CopyDataProperties (w_heap w) (entry_value entry))) (w_heap w) in
  (Ok (Map_set (entry_key entry) (VRef a.1) maps.1,
       LiveCacheTransactionImpl.keep_last_revision (entry_key entry)
         (CacheImpl.entryRevisions_of (this w) (entry_key entry)) maps.2),
   {| w_heap := a.2; this := this w |}).
Proof.
  unfold LiveCacheTransactionImpl.copy_entry. rewrite bind_eq, spread_eq.
  simpl. by rewrite bind_eq.
Qed.

Lemma cache_outside_extends P c (h h' : heap) :
  h ⊆ h' → cache_outside P c h → cache_outside P c h'.
Proof. intros Hsub. apply cache_outside_dom. by apply subseteq_dom. Qed.

Lemma begin_loop keys : ∀ maps (w : World) r w',
  cache_outside ∅ (this w) (w_heap w) →
  CacheImpl.for_await_keys keys LiveCacheTransactionImpl.copy_entry maps w = (Ok r, w') →
  this w' = this w ∧ w_heap w ⊆ w_heap w' ∧
  (∀ l', l' ∈ dom (w_heap w') → l' ∉ dom (w_heap w) →
     ∃ key l, CacheImpl.weak_lookup (this w) (w_heap w) key = VRef l ∧
              live_obj (w_heap w') l'
              = Some (OObj (CopyDataProperties (w_heap w) (VRef l)))) ∧
  (∀ key, key ∈ keys →
     ∃ l l', CacheImpl.weak_lookup (this w) (w_heap w) key = VRef l ∧
             Map_get key r.1 = Some (VRef l') ∧
             (l' ∉ dom (w_heap w)) ∧ l' ∈ dom (w_heap w') ∧
             live_obj (w_heap w') l'
             = Some (OObj (CopyDataProperties (w_heap w) (VRef l)))) ∧
  (∀ key, key ∉ keys → Map_get key r.1 = Map_get key maps.1) ∧
  (NoDup (Map_keys maps.1) → NoDup (Map_keys r.1)).
Proof.
  induction keys as [|key keys IH]; intros maps w r w' Hc; simpl.
  - intros [= <- <-]. split_and!; try done.
    intros key Hin. by apply elem_of_nil in Hin.
  - rewrite bind_eq, asyncIterator_next_eq.
    destruct (truthy (CacheImpl.weak_lookup (this w) (w_heap w) key)) eqn:Htruthy;
      simpl; [|done].
    destruct (weak_lookup_truthy _ _ _ Htruthy) as [l Hl].
    rewrite bind_eq, copy_entry_eq. simpl. rewrite Hl.
    pose proof (alloc_extends (OObj (CopyDataProperties (w_heap w) (VRef l))) (w_heap w)) as Hsub1.
    pose proof (alloc_fresh (OObj (CopyDataProperties (w_heap w) (VRef l))) (w_heap w)) as Hfresh.
    pose proof (alloc_live (OObj (CopyDataProperties (w_heap w) (VRef l))) (w_heap w)) as Hlive.
    unfold alloc in *. simpl in *.
    set (l1 := fresh (dom (w_heap w))) in *.
    set (h1 := <[l1 := Live (OObj (CopyDataProperties (w_heap w) (VRef l)))]> (w_heap w)) in *.
    intros Hrun. apply IH in Hrun; [|by apply (cache_outside_extends _ _ (w_heap w))].
    simpl in Hrun. destruct Hrun as (Hthis & Hsub2 & Hnew & Hkeys & Hrest & Hnd).
    assert (w_heap w ⊆ w_heap w') as Hsub by by etrans.
    assert (Hconv : ∀ key0 l0,
              CacheImpl.weak_lookup (this w) h1 key0 = VRef l0 →
              CacheImpl.weak_lookup (this w) (w_heap w) key0 = VRef l0 ∧
              CopyDataProperties h1 (VRef l0) = CopyDataProperties (w_heap w) (VRef l0)).
    { intros key0 l0 H0. rewrite (weak_lookup_extends _ (w_heap w)) in H0 by done.
      split; [done|]. apply CopyDataProperties_extends; [done|].
      destruct (weak_lookup_ref _ _ _ _ H0) as (r0 & _ & _ & Hlive0).
      by apply is_live_dom. }
    assert (l1 ∉ dom (w_heap w)) as Hl1 by by apply not_elem_of_dom.
    assert (live_obj (w_heap w') l1
            = Some (OObj (CopyDataProperties (w_heap w) (VRef l)))) as Hl1'.
    { by apply (extends_live_obj h1). }
    split_and!; try done.
    + intros l' Hin Hnin. destruct (decide (l' ∈ dom h1)) as [Hin1|Hnin1].
      * assert (l' = l1) as ->.
        { unfold h1 in Hin1. rewrite dom_insert in Hin1. set_solver. }
        by exists key, l.
      * destruct (Hnew l' Hin Hnin1) as (key0 & l0 & H0 & Hobj).
        destruct (Hconv key0 l0 H0) as [H0' Hcdp]. exists key0, l0.
        by rewrite <- Hcdp.
    + intros key0 Hin. destruct (decide (key0 ∈ keys)) as [Hin'|Hnin'].
      * destruct (Hkeys key0 Hin') as (l0 & l' & H0 & Hget & Hnin & Hin2 & Hobj).
        destruct (Hconv key0 l0 H0) as [H0' Hcdp]. exists l0, l'.
        split_and!; try done; [|by rewrite <- Hcdp].
        intros Hd. apply Hnin. by apply (subseteq_dom _ _ Hsub1).
      * apply elem_of_cons in Hin as [->|Hin]; [|done].
        exists l, l1. split_and!; try done.
        -- rewrite (Hrest key Hnin'). simpl. apply Map_get_set_eq.
        -- apply (subseteq_dom _ _ Hsub2). apply is_live_dom.
           unfold is_live. by rewrite Hlive.
    + intros key0 Hnin. apply not_elem_of_cons in Hnin as [Hne Hnin].
      rewrite (Hrest key0 Hnin). simpl. by apply Map_get_set_ne.
    + intros Hnd0. apply Hnd. simpl. by apply Map_set_NoDup.
Qed.
Lemma begun_eq (w0 : World) s0 :
  begun w0 = Some s0 →
  ∃ maps w1,
    CacheImpl.for_await_keys (Map_keys (CacheImpl.weakCache (this w0)))
      LiveCacheTransactionImpl.copy_entry ([], []) w0 = (Ok maps, w1) ∧
    s0 = {| tx := LiveCacheTransactionImpl.constructor
                    (CacheImpl.cacheOptions (this w1)) maps.1 maps.2;
            world := w1;
            copies := dom (w_heap w1) ∖ dom (w_heap w0) |}.
Proof.
  unfold begun, beginTransaction, LiveCacheTransactionImpl.beginLiveTransaction,
    CacheImpl.for_await_entries.
  rewrite !bind_eq. simpl.
  destruct (CacheImpl.for_await_keys _ _ _ w0) as [[maps|e] w1] eqn:Hloop; [|done].
  repeat (rewrite bind_eq; simpl). intros [= <-]. by exists maps, w1.
Qed.

Lemma begun_spec (w0 : World) s0 :
  well_formed w0 → begun w0 = Some s0 →
  this (world s0) = this w0 ∧
  w_heap w0 ⊆ w_heap (world s0) ∧
  copies s0 = dom (w_heap (world s0)) ∖ dom (w_heap w0) ∧
  isolated (copies s0) (CacheImpl.cacheOptions (this w0)) (w_heap (world s0)) s0 ∧
  (∀ l, l ∈ copies s0 → isObject (w_heap (world s0)) (VRef l) = true) ∧
  (∀ key,
     match CacheImpl.weak_lookup (this w0) (w_heap w0) key with
     | VRef l =>
         ∃ l', Map_get key (LiveCacheTransactionImpl.transactionalCache (tx s0))
               = Some (VRef l') ∧
               l' ∈ copies s0 ∧
               live_obj (w_heap (world s0)) l'
               = Some (OObj (CopyDataProperties (w_heap w0) (VRef l)))
     | _ => Map_get key (LiveCacheTransactionImpl.transactionalCache (tx s0)) = None
     end) ∧
  NoDup (Map_keys (LiveCacheTransactionImpl.transactionalCache (tx s0))).
Proof.
  intros [Hs0 Hc0] Hbegun.
  destruct (begun_eq w0 s0 Hbegun) as (maps & w1 & Hloop & ->). simpl.
  destruct (begin_loop _ _ _ _ _ Hc0 Hloop) as (Hthis & Hsub & Hnew & Hkeys & Hrest & Hnd).
  destruct Hs0 as [_ Hs0].
  assert (Hcells : ∀ l o l', live_obj (w_heap w1) l = Some o → l' ∈ children o →
                             l' ∈ dom (w_heap w0)).
  { intros l o l' Hl Hchild. destruct (decide (l ∈ dom (w_heap w0))) as [Hin|Hnin].
    - rewrite (live_obj_extends_dom (w_heap w0)) in Hl by done.
      by apply (Hs0 l o l').
    - destruct (Hnew l) as (key & l0 & _ & Hobj); [|done|].
      { apply elem_of_dom. unfold live_obj in Hl. by destruct (w_heap w1 !! l). }
      rewrite Hl in Hobj. injection Hobj as ->.
      apply (CopyDataProperties_outside ∅ (w_heap w0) (VRef l0) l'); [|done].
      split; [set_solver|done]. }
  pose proof (subseteq_dom _ _ Hsub) as Hdom.
  split_and!; try done.
  - split_and!; [done| |done].
    split_and!.
    + split; [set_solver|]. intros l o l' Hl Hchild.
      pose proof (Hcells l o l' Hl Hchild). set_solver.
    + simpl. rewrite Hthis. unfold cache_outside in *.
      eapply Forall_impl; [exact Hc0|]. intros kr [Hin _]. set_solver.
    + simpl. by rewrite Hthis.
  - intros l [Hin Hnin]%elem_of_difference.
    destruct (Hnew l Hin Hnin) as (key & l0 & _ & Hobj).
    unfold isObject. by rewrite Hobj.
  - intros key.
    destruct (decide (key ∈ Map_keys (CacheImpl.weakCache (this w0)))) as [Hin|Hnin].
    + destruct (Hkeys key Hin) as (l & l' & Hl & Hget & Hnin & Hin' & Hobj).
      rewrite Hl. exists l'. split_and!; [done|set_solver|done].
    + rewrite (Hrest key Hnin). simpl.
      destruct (CacheImpl.weak_lookup (this w0) (w_heap w0) key) as [| | | | | |l] eqn:Hl;
        try done.
      destruct (weak_lookup_ref _ _ _ _ Hl) as (r & Hget & _).
      exfalso. apply Hnin. apply Map_get_is_Some. by exists r.
  - apply Hnd. simpl. constructor.
Qed.

Lemma weak_lookup_truthy_extends (c : CacheImpl.t) (h h' : heap) key :
  h ⊆ h' → truthy (CacheImpl.weak_lookup c h key) = true →
  truthy (CacheImpl.weak_lookup c h' key) = true.
Proof.
  intros Hsub Ht. destruct (weak_lookup_truthy _ _ _ Ht) as [l Hl].
  destruct (weak_lookup_ref _ _ _ _ Hl) as (r & Hget & <- & Hlive).
  unfold CacheImpl.weak_lookup, deref. rewrite Hget.
  by rewrite (extends_is_live h h').
Qed.

(** [beginTransaction] returns when every entry of the cache resolves. *)
Lemma begun_when_all_resolve (w0 : World) :
  (∀ key, key ∈ Map_keys (CacheImpl.weakCache (this w0)) →
          truthy (CacheImpl.weak_lookup (this w0) (w_heap w0) key) = true) →
  is_Some (begun w0).
Proof.
  intros Hall. unfold begun, beginTransaction,
    LiveCacheTransactionImpl.beginLiveTransaction, CacheImpl.for_await_entries.
  rewrite !bind_eq. simpl.
  assert (Hloop : ∀ ks maps (w : World),
            (∀ key, key ∈ ks →
                    truthy (CacheImpl.weak_lookup (this w) (w_heap w) key) = true) →
            ∃ r w', CacheImpl.for_await_keys ks LiveCacheTransactionImpl.copy_entry maps w
                    = (Ok r, w')).
  { intros ks. induction ks as [|key ks IH]; intros maps w Hkeys; simpl.
    - by eexists _, _.
    - rewrite bind_eq, asyncIterator_next_eq.
      rewrite (Hkeys key) by by left. simpl.
      rewrite bind_eq, copy_entry_eq. simpl. apply IH.
      intros key' Hin. simpl. apply (weak_lookup_truthy_extends _ (w_heap w)).
      + apply alloc_extends.
      + apply Hkeys. by right. }
  destruct (Hloop _ ([], []) w0 Hall) as (r & w' & ->).
  repeat (rewrite bind_eq; simpl). done.
Qed.

(** ** The schedule keeps the transaction isolated *)

Section schedule.
Context `{Engine}.
Variable P : gset loc.
Variable options : option CacheOptions.
Variable h1 : heap.
Hypothesis hooks_confined : confined_hooks options.
Hypothesis copies_are_objects : ∀ l, l ∈ P → isObject h1 (VRef l) = true.

Lemma isolated_world (s : Session) (w : World) :
  isolated P options h1 s →
  good P options w → frame P (w_heap (world s)) (w_heap w) →
  isolated P options h1 (with_world s w).
Proof.
  intros (Hcopies & _ & Hsame) Hg (_ & _ & Hkeep). split_and!; [done|done|].
  intros l Hl. simpl. by rewrite (Hkeep l Hl), (Hsame l Hl).
Qed.

Lemma isolated_preserves {A} (s : Session) (m : M A) :
  isolated P options h1 s →
  preserves P options m (world s) (λ _ _, True) →
  isolated P options h1 (with_world s (m (world s)).2).
Proof. intros Hiso (Hg & Hf & _). by apply isolated_world. Qed.

Lemma isolated_heap (s : Session) (h : heap) :
  isolated P options h1 s →
  frame P (w_heap (world s)) h →
  isolated P options h1 (with_heap s h).
Proof.
  intros Hiso Hf. apply isolated_world; [done| |done].
  destruct Hiso as (_ & (_ & Hc & Ho) & _). split_and!; [by destruct Hf| |done].
  simpl. apply (cache_outside_dom _ _ (w_heap (world s))); [|done].
  by destruct Hf as (_ & ? & _).
Qed.

Lemma isolated_objects (s : Session) l :
  isolated P options h1 s → l ∈ P → isObject (w_heap (world s)) (VRef l) = true.
Proof.
  intros (_ & _ & Hsame) Hl. pose proof (copies_are_objects l Hl) as Hobj.
  unfold isObject, live_obj in *. by rewrite (Hsame l Hl).
Qed.

Lemma run_event_isolated ev s :
  isolated P options h1 s → allowed ev s →
  isolated P options h1 (run_event ev s).2.
Proof.
  intros Hiso Hallowed. pose proof Hiso as (Hcopies & Hg & Hsame).
  pose proof Hg as (Hs & Hc & Ho).
  destruct ev as [key now|key value now|key|key rev now| | |T'|entries| | |o|l name v|D];
    simpl in *; rewrite ?Hcopies, ?Ho in Hallowed.
  - by destruct (LiveCacheTransactionImpl.get key now (tx s)).
  - done.
  - done.
  - destruct Hallowed as [Hexists Hcustom].
    pose proof (preserves_merge P options hooks_confined key rev now (tx s) (world s)
                  Hg (λ l, isolated_objects s l Hiso) Hexists Hcustom) as Hp.
    pose proof (isolated_preserves s _ Hiso Hp) as Hiso'.
    destruct (LiveCacheTransactionImpl.merge key rev now (tx s) (world s))
      as [[[mergedEntity T]|e] w]; simpl in *; [|done].
    destruct Hiso' as (? & ? & ?). by split_and!.
  - done.
  - apply isolated_preserves; [done|]. by apply preserves_beginLiveTransaction.
  - apply isolated_preserves; [done|]. by apply preserves_commit.
  - apply isolated_preserves; [done|]. by apply preserves_load.
  - apply isolated_preserves; [done|]. by apply preserves_save.
  - apply isolated_preserves; [done|]. by apply preserves_clear.
  - apply isolated_heap; [done|]. by apply sealed_alloc.
  - apply isolated_heap; [done|]. destruct Hallowed. by apply sealed_assign.
  - apply isolated_heap; [done|]. by apply sealed_reclaim.
Qed.

Lemma run_cons ev evs s :
  run (ev :: evs) s =
  ((run_event ev s).1 :: (run evs (run_event ev s).2).1, (run evs (run_event ev s).2).2).
Proof.
  simpl. destruct (run_event ev s) as [out s']. simpl.
  by destruct (run evs s') as [outs s''].
Qed.

Lemma run_isolated evs : ∀ s,
  isolated P options h1 s → admissible evs s →
  isolated P options h1 (run evs s).2.
Proof.
  induction evs as [|ev evs IH]; intros s Hiso Hadm; [done|].
  destruct Hadm as [Hallowed Hadm]. rewrite run_cons. simpl.
  apply IH; [by apply run_event_isolated|done].
Qed.

End schedule.
(** ** What the transaction reads *)

Lemma Map_delete_NoDup {V} k (m : JsMap V) :
  NoDup (Map_keys m) → NoDup (Map_keys (Map_delete k m)).
Proof.
  unfold Map_keys. induction m as [|[k0 v0] m IH]; simpl; [done|].
  intros [Hnin Hnd]%NoDup_cons. destruct (decide (k0 = k)); [done|].
  simpl. apply NoDup_cons. split; [|by apply IH].
  intros Hin. apply Hnin. clear -Hin.
  induction m as [|[k1 v1] m IHm]; simpl in *; [done|].
  destruct (decide (k1 = k)); [by right|].
  simpl in Hin. apply elem_of_cons in Hin as [->|Hin]; [by left|right; by apply IHm].
Qed.

Section reads.
Context `{Engine}.

Lemma read_eq cacheKey now (s : Session) :
  (run_event (TxGet cacheKey now) s).1 =
  let v := default VUndefined
             (Map_get cacheKey (LiveCacheTransactionImpl.transactionalCache (tx s))) in
  Read v (observe (w_heap (world s)) v).
Proof. done. Qed.

Lemma merge_transactionalCache cacheKey rev now T (w : World) mergedEntity T' w' :
  LiveCacheTransactionImpl.merge cacheKey rev now T w = (Ok (mergedEntity, T'), w') →
  LiveCacheTransactionImpl.transactionalCache T'
  = Map_set cacheKey mergedEntity (LiveCacheTransactionImpl.transactionalCache T).
Proof.
  unfold LiveCacheTransactionImpl.merge. repeat (rewrite bind_eq; simpl).
  destruct (mergeStrategy_of _ _ _ _ w) as [[v|e] w1]; [|done].
  intros [= <- <- <-]. done.
Qed.

Lemma run_event_unwritten cacheKey ev (s : Session) :
  writes cacheKey ev = false →
  Map_get cacheKey (LiveCacheTransactionImpl.transactionalCache (tx (run_event ev s).2))
  = Map_get cacheKey (LiveCacheTransactionImpl.transactionalCache (tx s)).
Proof.
  destruct ev as [key now|key value now|key|key rev now| | |T'|entries| | |o|l name v|D];
    simpl; try done.
  - intros _. unfold LiveCacheTransactionImpl.get. by destruct (truthy _).
  - intros Hne%bool_decide_eq_false. by apply Map_get_set_ne.
  - intros Hne%bool_decide_eq_false. by apply Map_get_delete_ne.
  - intros Hne%bool_decide_eq_false.
    destruct (LiveCacheTransactionImpl.merge key rev now (tx s) (world s))
      as [[[mergedEntity T]|e] w] eqn:Hmerge; simpl; [|done].
    rewrite (merge_transactionalCache _ _ _ _ _ _ _ _ Hmerge). by apply Map_get_set_ne.
Qed.

Lemma run_unwritten cacheKey evs : ∀ s : Session,
  unwritten cacheKey evs = true →
  Map_get cacheKey (LiveCacheTransactionImpl.transactionalCache (tx (run evs s).2))
  = Map_get cacheKey (LiveCacheTransactionImpl.transactionalCache (tx s)).
Proof.
  induction evs as [|ev evs IH]; intros s Hun; [done|].
  simpl in Hun. apply andb_prop in Hun as [Hev Hun]. apply negb_true_iff in Hev.
  rewrite run_cons. simpl. rewrite (IH _ Hun). by apply run_event_unwritten.
Qed.

Lemma run_event_NoDup ev (s : Session) :
  NoDup (Map_keys (LiveCacheTransactionImpl.transactionalCache (tx s))) →
  NoDup (Map_keys (LiveCacheTransactionImpl.transactionalCache (tx (run_event ev s).2))).
Proof.
  intros Hnd.
  destruct ev as [key now|key value now|key|key rev now| | |T'|entries| | |o|l name v|D];
    simpl; try done.
  - unfold LiveCacheTransactionImpl.get. by destruct (truthy _).
  - by apply Map_set_NoDup.
  - by apply Map_delete_NoDup.
  - destruct (LiveCacheTransactionImpl.merge key rev now (tx s) (world s))
      as [[[mergedEntity T]|e] w] eqn:Hmerge; simpl; [|done].
    rewrite (merge_transactionalCache _ _ _ _ _ _ _ _ Hmerge). by apply Map_set_NoDup.
Qed.

Lemma run_NoDup evs : ∀ s : Session,
  NoDup (Map_keys (LiveCacheTransactionImpl.transactionalCache (tx s))) →
  NoDup (Map_keys (LiveCacheTransactionImpl.transactionalCache (tx (run evs s).2))).
Proof.
  induction evs as [|ev evs IH]; intros s Hnd; [done|].
  rewrite run_cons. simpl. by apply IH, run_event_NoDup.
Qed.

Lemma run_app evs1 evs2 (s : Session) :
  (run (evs1 ++ evs2) s).2 = (run evs2 (run evs1 s).2).2.
Proof.
  revert s. induction evs1 as [|ev evs1 IH]; intros s; [done|].
  rewrite <- app_comm_cons, !run_cons. simpl. apply IH.
Qed.

Lemma shallow_copy_of_object (w0 : World) cacheKey :
  isObject (w_heap w0) (CacheImpl.weak_lookup (this w0) (w_heap w0) cacheKey) = true →
  shallow_copy w0 cacheKey = primary_value w0 cacheKey.
Proof.
  unfold shallow_copy, primary_value, isObject, CopyDataProperties, observe.
  destruct (CacheImpl.weak_lookup (this w0) (w_heap w0) cacheKey) as [| | | | | |l]; try done.
  by destruct (live_obj (w_heap w0) l) as [[props|elems|props body]|].
Qed.

End reads.


Lemma w_loaded_well_formed : well_formed w_loaded.
Proof.
  split.
  - split; [set_solver|]. intros l o l' Hl Hchild. exfalso.
    assert (l ∈ dom (w_heap w_loaded)) as Hdom.
    { apply elem_of_dom. unfold live_obj in Hl. by destruct (w_heap w_loaded !! l). }
    assert (dom (w_heap w_loaded)
            = {[1%positive; 2%positive; 3%positive; 4%positive; 5%positive]}) as Hd.
    { apply (bool_decide_unpack _). by vm_compute. }
    rewrite Hd in Hdom.
    repeat (apply elem_of_union in Hdom as [Hdom|Hdom]);
      apply elem_of_singleton in Hdom as ->; vm_compute in Hl; injection Hl as <-;
      vm_compute in Hchild; by repeat (apply elem_of_cons in Hchild as [?|Hchild]; [done|]);
      apply elem_of_nil in Hchild.
  - unfold cache_outside.
    change (CacheImpl.weakCache (this w_loaded))
      with [("u:1", {| target := 4%positive |}); ("list", {| target := 5%positive |})].
    repeat constructor; simpl; try set_solver;
      apply elem_of_dom; by vm_compute.
Defined.

Lemma admissible_cons `{Engine} ev evs (s : Session) :
  allowed ev s → admissible evs (run_event ev s).2 → admissible (ev :: evs) s.
Proof. by split. Qed.

Lemma outside_check (P : gset loc) (h : heap) v :
  match v with VRef l => bool_decide (l ∈ dom h ∧ l ∉ P) | _ => true end = true →
  outside P h v.
Proof.
  intros Hv l ->. by apply bool_decide_eq_true in Hv.
Qed.

Lemma Forall_outside_check {A} (f : A → jsval) (P : gset loc) (h : heap) (xs : list A) :
  forallb (λ x, match f x with
                | VRef l => bool_decide (l ∈ dom h ∧ l ∉ P)
                | _ => true
                end) xs = true →
  Forall (λ x, outside P h (f x)) xs.
Proof.
  induction xs as [|x xs IH]; simpl; [done|].
  intros [Hx Hxs]%andb_prop. constructor; [by apply outside_check|by apply IH].
Qed.

Lemma w_loaded_begun :
  ∃ s0, begun w_loaded = Some s0 ∧
        LiveCacheTransactionImpl.transactionalCache (tx s0)
        = [("u:1", VRef 6%positive); ("list", VRef 7%positive)] ∧
        live_obj (w_heap (world s0)) 7%positive
        = Some (OObj [("0", VNum 1); ("1", VNum 2)]) ∧
        admissible (H:=sample_engine) busy_schedule s0 ∧
        primary_value (world (run (H:=sample_engine) busy_schedule s0).2) "u:1"
        = ObsObject (Some (OObj [("name", VStr "b")])).
Proof.
  destruct (begun w_loaded) as [s0|] eqn:Hbegun; [|by vm_compute in Hbegun].
  exists s0. split; [done|].
  assert (Hs0 : Some s0 = begun w_loaded) by done. clear Hbegun.
  vm_compute in Hs0. injection Hs0 as ->.
  split; [done|]. split; [by vm_compute|]. split; [|by vm_compute].
  unfold busy_schedule.
  apply admissible_cons.
  { apply (Forall_outside_check snd). by vm_compute. }
  apply admissible_cons; [done|].
  apply admissible_cons.
  { apply (Forall_outside_check entry_value). by vm_compute. }
  apply admissible_cons; [done|].
  apply admissible_cons; [done|].
  apply admissible_cons.
  { split; [apply (bool_decide_unpack _); by vm_compute|by apply outside_check]. }
  apply admissible_cons.
  { cbv beta iota zeta delta [allowed]. apply (bool_decide_unpack _). by vm_compute. }
  apply admissible_cons; [done|].
  done.
Defined.


